(** * The map screen of lycoris-mobile

    A shallow embedding of the [MapScreen] component
    (src/screens/DocsScreen.tsx): the pure longitude/latitude helpers, the
    camera and its persistence, the viewport marker query coordinator, the
    native location arbiter and the submit step of the draft workflow.

    Conventions.

    - A JavaScript [number] that passed [Number.isFinite] is a rational
      ([Q]), the exact value of the double.  [%], [Math.min], [Math.max] and
      [Math.abs] of doubles are doubles and are the exact operations.  The
      longitude arithmetic of the screen ([normalizeLng], the wrap of
      [__rnSetView], the span of the reported edges) rounds as binary64
      does: [fl] is rounding to the nearest double, ties to even, and a
      difference beyond the largest double is an infinity.  Nothing else
      in the screen rounds: the other sums and products are on small
      integers, and [Math.round] is defined on the exact value.
      Values that are read from a message or from storage and may be [NaN]
      or infinite have type [number].  Module [Binary64] evaluates the
      longitude arithmetic on primitive floats, as a second reading of the
      same lines.
    - React state and refs of the component are the fields of one record,
      [Screen]; what the component asks of the outside world (HTTP requests,
      the OS location call, scripts injected in the web view, storage
      writes) is appended to its [effects] log.
    - An [async] function is cut at its [await]s: the part that runs when it
      is called, and the part that runs when the awaited promise settles,
      on the state the screen has by then. *)

From Stdlib Require Import ZArith QArith Qround Qabs Qpower Lqa Lia List String Bool.
From Stdlib Require Import SetoidList.
From Stdlib Require Import PrimFloat SpecFloat FloatOps.
Import ListNotations.

Open Scope Q_scope.

(** ** JavaScript numbers *)

Module JsNumber.

(** The result of [Number(x)]: a finite value, or one of [NaN], [Infinity],
    [-Infinity], which the code only ever tells apart from the finite ones. *)
Inductive number : Type :=
| Finite (q : Q)
| NotFinite.

Definition Number_isFinite (n : number) : bool :=
  match n with
  | Finite _ => true
  | NotFinite => false
  end.

(** Rounding toward zero, the integer quotient behind [%]. *)
Definition Qtrunc (x : Q) : Z :=
  if Qle_bool 0 x then Qfloor x else Qceiling x.

(** [a % b]: the remainder has the sign of the dividend.  Every use in the
    screen has [b = 360]. *)
Definition js_rem (a b : Q) : Q :=
  a - b * inject_Z (Qtrunc (a / b)).

Definition Math_max (a b : Q) : Q := if Qle_bool a b then b else a.

Definition Math_min (a b : Q) : Q := if Qle_bool a b then a else b.

Definition Math_abs (a : Q) : Q := Qabs a.

(** *** Rounding to binary64

    A double is zero or [m * 2 ^ e] with [m] an integer of at most 53 bits
    and [e] at least -1074.  The doubles next to a positive [x] are the
    multiples of [pow2 (exponent x)]. *)

Definition pow2 (e : Z) : Q := 2 ^ e.

(** The integer [k] with [pow2 k <= x < pow2 (k + 1)], for positive [x]. *)
Definition ilog2 (x : Q) : Z :=
  let k := (Z.log2 (Qnum x) - Z.log2 (Z.pos (Qden x)))%Z in
  if Qle_bool (pow2 k) x then k else (k - 1)%Z.

(** The integer nearest to [t], the even one of two equally near. *)
Definition rne (t : Q) : Z :=
  let f := Qfloor t in
  match Qcompare (t - inject_Z f) (1 # 2) with
  | Lt => f
  | Gt => (f + 1)%Z
  | Eq => if Z.even f then f else (f + 1)%Z
  end.

(** The exponent of the last bit of the doubles around [x]; -1074 is that
    of the subnormal ones. *)
Definition exponent (x : Q) : Z := Z.max (ilog2 x - 52) (-1074).

Definition onGrid (e : Z) (x : Q) : Q := inject_Z (rne (x * pow2 (- e))) * pow2 e.

Definition fl_pos (x : Q) : Q := Qred (onGrid (exponent x) x).

(** The double nearest to [x], were the exponent range unbounded above. *)
Definition fl (x : Q) : Q :=
  match Qnum x with
  | Z0 => 0
  | Zpos _ => fl_pos x
  | Zneg _ => - fl_pos (- x)
  end.

(** [Number.MAX_VALUE]. *)
Definition max_double : Q := pow2 1024 - pow2 971.

(** [x + y] and [x - y] on doubles whose rounded result is finite, which it
    is wherever [js_add] and [js_sub] are used. *)
Definition js_add (x y : Q) : Q := fl (x + y).

Definition js_sub (x y : Q) : Q := fl (x - y).

(** [x - y] on any two doubles: a rounded difference beyond the largest
    double is [Infinity] or [-Infinity]. *)
Definition js_minus (x y : Q) : number :=
  let difference := fl (x - y) in
  if Qle_bool (Qabs difference) max_double then Finite difference else NotFinite.

(** [Math.abs] of a number that may be infinite. *)
Definition Math_abs_number (n : number) : number :=
  match n with
  | Finite q => Finite (Math_abs q)
  | NotFinite => NotFinite
  end.

End JsNumber.

Import JsNumber.

(** ** Latitude and longitude helpers (lines 1020-1025) *)

Definition clampLat (value : Q) : Q :=
  Math_max (-90) (Math_min 90 value).

(** Each [+] and [-] rounds; [%] of two doubles is exact.  For a finite
    double [value] no step overflows: [value + 180] rounds to at most the
    largest double, and the remainders are below 360 in size. *)
Definition normalizeLng (value : Q) : Q :=
  let normalized :=
    js_sub (js_rem (js_add (js_rem (js_add value 180) 360) 360) 360) 180 in
  Math_max (-180) (Math_min 180 normalized).

(** ** The same longitude arithmetic on primitive floats *)

Module Binary64.

Open Scope float_scope.

(** [x % y] on doubles.  The remainder of two doubles is a double, so it is
    computed exactly on the integer mantissas and converted back. *)
Definition js_rem (x y : float) : float :=
  match Prim2SF x, Prim2SF y with
  | S754_nan, _ | _, S754_nan => nan
  | S754_infinity _, _ => nan
  | _, S754_zero _ => nan
  | S754_zero _, _ => x
  | S754_finite _ _ _, S754_infinity _ => x
  | S754_finite sx mx ex, S754_finite _ my ey =>
      let e := Z.min ex ey in
      let X := (Z.pos mx * 2 ^ (ex - e))%Z in
      let Y := (Z.pos my * 2 ^ (ey - e))%Z in
      match (X mod Y)%Z with
      | Z.pos r => SF2Prim (S754_finite sx r e)
      | _ => SF2Prim (S754_zero sx)
      end
  end.

Definition Math_max (a b : float) : float :=
  if is_nan a || is_nan b then nan else if a <? b then b else a.

Definition Math_min (a b : float) : float :=
  if is_nan a || is_nan b then nan else if b <? a then b else a.

Definition normalizeLng (value : float) : float :=
  let normalized := js_rem (js_rem (value + 180) 360 + 360) 360 - 180 in
  Math_max (-180) (Math_min 180 normalized).

(** The double nearest to -181.3. *)
Definition lng_minus_181_3 : float := -0x1.6a9999999999ap+7.

(** The exact value of a finite double. *)
Definition value (x : float) : option Q :=
  match Prim2SF x with
  | S754_zero _ => Some 0%Q
  | S754_finite false m e => Some (inject_Z (Z.pos m) * pow2 e)%Q
  | S754_finite true m e => Some (- (inject_Z (Z.pos m) * pow2 e))%Q
  | S754_infinity _ => None
  | S754_nan => None
  end.

End Binary64.

(** The two readings compared at a double [x]: the rational [normalizeLng],
    at the value of [x], gives the value of the primitive-float one. *)
Definition normalizeLng_agrees (x : float) : bool :=
  match Binary64.value x, Binary64.value (Binary64.normalizeLng x) with
  | Some q, Some r => Qeq_bool (normalizeLng q) r
  | _, _ => false
  end.

(** The same for the difference of two doubles, infinite results included. *)
Definition js_minus_agrees (xy : float * float) : bool :=
  let (x, y) := xy in
  match Binary64.value x, Binary64.value y with
  | Some a, Some b =>
      match js_minus a b, Binary64.value (x - y)%float with
      | Finite difference, Some r => Qeq_bool difference r
      | NotFinite, None => true
      | _, _ => false
      end
  | _, _ => false
  end.

(** ** Data of the screen *)

Inductive MarkerCategory : Type :=
| accessible_toilet
| friendly_clinic
| conversion_therapy
| self_definition.

Module MapMarker.
Record t : Type := {
  id : Q;
  lat : Q;
  lng : Q;
  category : MarkerCategory;
  title : string;
  description : string;
  isPublic : bool;
  isActive : bool;
  openTimeStart : option string;
  openTimeEnd : option string;
  markImage : option string;
  username : string;
  userPublicId : option string
}.
End MapMarker.

Module LatLngZoom.
Record t : Type := {
  latitude : Q;
  longitude : Q;
  zoom : Q
}.
End LatLngZoom.

Module ViewportBounds.
Record t : Type := {
  minLat : Q;
  maxLat : Q;
  minLng : Q;
  maxLng : Q;
  wrapsAntimeridian : bool;
  wholeWorld : bool
}.
End ViewportBounds.

Module DraftMarker.
Record t : Type := {
  lat : Q;
  lng : Q;
  category : MarkerCategory;
  title : string;
  description : string;
  isPublic : bool;
  openStartHour : string;
  openStartMinute : string;
  openEndHour : string;
  openEndMinute : string
}.
End DraftMarker.

Module LocalUploadImage.
Record t : Type := {
  uri : string;
  name : string;
  type : string;
  size : Q
}.
End LocalUploadImage.

(** The parameters of one [GET /api/markers/viewport] request, as
    [fetchViewportSegment] puts them in the query string. *)
Module ViewportQuery.
Record t : Type := {
  minLat : Q;
  maxLat : Q;
  minLng : Q;
  maxLng : Q;
  categories : list MarkerCategory
}.
End ViewportQuery.

(** A value caught by [catch]: an [Error] with its message, or anything
    else; [code] is its [code] property when that is a string. *)
Inductive thrown : Type :=
| ErrorObject (message : string) (code : option string)
| OtherThrown (code : option string).

(** How an awaited promise settles. *)
Inductive settled (A : Type) : Type :=
| Fulfilled (value : A)
| Rejected (reason : thrown).

Arguments Fulfilled {A} value.
Arguments Rejected {A} reason.

(** What the screen asks of its collaborators.  [DELETE_marker] is the
    request of [confirmDeleteDraft]. *)
Inductive Effect : Type :=
| GET_markers_viewport (q : ViewportQuery.t)
| PATCH_marker (id : Q) (body : DraftMarker.t)
| POST_marker (body : DraftMarker.t)
| POST_marker_image (id : Q) (file : LocalUploadImage.t)
| DELETE_marker (id : Q)
| NativeLocation_getCurrentPosition (timeoutMs maxAgeMs : Z)
| injectJavaScript_rnSetView (lat lng zoom : Q)
| AsyncStorage_setItem_mapViewport (payload : LatLngZoom.t).

(** ** State of the component (lines 1356-1436)

    The [useState] values and the refs the modelled handlers read or write;
    flags that only drive the layout of the form are left out. *)

Record Screen : Type := {
  loading : bool;
  error : string;
  notice : string;
  markers : list MapMarker.t;
  selectedMarkerId : option Q;
  draft : option DraftMarker.t;
  savingDraft : bool;
  draftImageFile : option LocalUploadImage.t;
  editingId : option Q;
  locationPermissionGranted : bool;
  userLocation : option (Q * Q);
  mapViewport : LatLngZoom.t;
  mapBounds : option ViewportBounds.t;
  sessionRestored : bool;
  nativeLocateInFlightRef : bool;
  nativeFallbackCooldownRef : Z;
  markerQuerySeqRef : nat;
  hasLoadedMarkersRef : bool;
  effects : list Effect
}.

(** Field updates, one per [setX] of the component and per ref that is
    assigned. *)

Definition set_loading (v : bool) (s : Screen) : Screen :=
  {| loading := v; error := error s; notice := notice s;
     markers := markers s; selectedMarkerId := selectedMarkerId s;
     draft := draft s; savingDraft := savingDraft s;
     draftImageFile := draftImageFile s; editingId := editingId s;
     locationPermissionGranted := locationPermissionGranted s;
     userLocation := userLocation s; mapViewport := mapViewport s;
     mapBounds := mapBounds s; sessionRestored := sessionRestored s;
     nativeLocateInFlightRef := nativeLocateInFlightRef s;
     nativeFallbackCooldownRef := nativeFallbackCooldownRef s;
     markerQuerySeqRef := markerQuerySeqRef s;
     hasLoadedMarkersRef := hasLoadedMarkersRef s; effects := effects s |}.

Definition set_error (v : string) (s : Screen) : Screen :=
  {| loading := loading s; error := v; notice := notice s;
     markers := markers s; selectedMarkerId := selectedMarkerId s;
     draft := draft s; savingDraft := savingDraft s;
     draftImageFile := draftImageFile s; editingId := editingId s;
     locationPermissionGranted := locationPermissionGranted s;
     userLocation := userLocation s; mapViewport := mapViewport s;
     mapBounds := mapBounds s; sessionRestored := sessionRestored s;
     nativeLocateInFlightRef := nativeLocateInFlightRef s;
     nativeFallbackCooldownRef := nativeFallbackCooldownRef s;
     markerQuerySeqRef := markerQuerySeqRef s;
     hasLoadedMarkersRef := hasLoadedMarkersRef s; effects := effects s |}.

Definition set_notice (v : string) (s : Screen) : Screen :=
  {| loading := loading s; error := error s; notice := v;
     markers := markers s; selectedMarkerId := selectedMarkerId s;
     draft := draft s; savingDraft := savingDraft s;
     draftImageFile := draftImageFile s; editingId := editingId s;
     locationPermissionGranted := locationPermissionGranted s;
     userLocation := userLocation s; mapViewport := mapViewport s;
     mapBounds := mapBounds s; sessionRestored := sessionRestored s;
     nativeLocateInFlightRef := nativeLocateInFlightRef s;
     nativeFallbackCooldownRef := nativeFallbackCooldownRef s;
     markerQuerySeqRef := markerQuerySeqRef s;
     hasLoadedMarkersRef := hasLoadedMarkersRef s; effects := effects s |}.

Definition set_markers (v : list MapMarker.t) (s : Screen) : Screen :=
  {| loading := loading s; error := error s; notice := notice s;
     markers := v; selectedMarkerId := selectedMarkerId s; draft := draft s;
     savingDraft := savingDraft s; draftImageFile := draftImageFile s;
     editingId := editingId s;
     locationPermissionGranted := locationPermissionGranted s;
     userLocation := userLocation s; mapViewport := mapViewport s;
     mapBounds := mapBounds s; sessionRestored := sessionRestored s;
     nativeLocateInFlightRef := nativeLocateInFlightRef s;
     nativeFallbackCooldownRef := nativeFallbackCooldownRef s;
     markerQuerySeqRef := markerQuerySeqRef s;
     hasLoadedMarkersRef := hasLoadedMarkersRef s; effects := effects s |}.

Definition set_selectedMarkerId (v : option Q) (s : Screen) : Screen :=
  {| loading := loading s; error := error s; notice := notice s;
     markers := markers s; selectedMarkerId := v; draft := draft s;
     savingDraft := savingDraft s; draftImageFile := draftImageFile s;
     editingId := editingId s;
     locationPermissionGranted := locationPermissionGranted s;
     userLocation := userLocation s; mapViewport := mapViewport s;
     mapBounds := mapBounds s; sessionRestored := sessionRestored s;
     nativeLocateInFlightRef := nativeLocateInFlightRef s;
     nativeFallbackCooldownRef := nativeFallbackCooldownRef s;
     markerQuerySeqRef := markerQuerySeqRef s;
     hasLoadedMarkersRef := hasLoadedMarkersRef s; effects := effects s |}.

Definition set_draft (v : option DraftMarker.t) (s : Screen) : Screen :=
  {| loading := loading s; error := error s; notice := notice s;
     markers := markers s; selectedMarkerId := selectedMarkerId s;
     draft := v; savingDraft := savingDraft s;
     draftImageFile := draftImageFile s; editingId := editingId s;
     locationPermissionGranted := locationPermissionGranted s;
     userLocation := userLocation s; mapViewport := mapViewport s;
     mapBounds := mapBounds s; sessionRestored := sessionRestored s;
     nativeLocateInFlightRef := nativeLocateInFlightRef s;
     nativeFallbackCooldownRef := nativeFallbackCooldownRef s;
     markerQuerySeqRef := markerQuerySeqRef s;
     hasLoadedMarkersRef := hasLoadedMarkersRef s; effects := effects s |}.

Definition set_savingDraft (v : bool) (s : Screen) : Screen :=
  {| loading := loading s; error := error s; notice := notice s;
     markers := markers s; selectedMarkerId := selectedMarkerId s;
     draft := draft s; savingDraft := v; draftImageFile := draftImageFile s;
     editingId := editingId s;
     locationPermissionGranted := locationPermissionGranted s;
     userLocation := userLocation s; mapViewport := mapViewport s;
     mapBounds := mapBounds s; sessionRestored := sessionRestored s;
     nativeLocateInFlightRef := nativeLocateInFlightRef s;
     nativeFallbackCooldownRef := nativeFallbackCooldownRef s;
     markerQuerySeqRef := markerQuerySeqRef s;
     hasLoadedMarkersRef := hasLoadedMarkersRef s; effects := effects s |}.

Definition set_draftImageFile (v : option LocalUploadImage.t) (s : Screen) : Screen :=
  {| loading := loading s; error := error s; notice := notice s;
     markers := markers s; selectedMarkerId := selectedMarkerId s;
     draft := draft s; savingDraft := savingDraft s; draftImageFile := v;
     editingId := editingId s;
     locationPermissionGranted := locationPermissionGranted s;
     userLocation := userLocation s; mapViewport := mapViewport s;
     mapBounds := mapBounds s; sessionRestored := sessionRestored s;
     nativeLocateInFlightRef := nativeLocateInFlightRef s;
     nativeFallbackCooldownRef := nativeFallbackCooldownRef s;
     markerQuerySeqRef := markerQuerySeqRef s;
     hasLoadedMarkersRef := hasLoadedMarkersRef s; effects := effects s |}.

Definition set_editingId (v : option Q) (s : Screen) : Screen :=
  {| loading := loading s; error := error s; notice := notice s;
     markers := markers s; selectedMarkerId := selectedMarkerId s;
     draft := draft s; savingDraft := savingDraft s;
     draftImageFile := draftImageFile s; editingId := v;
     locationPermissionGranted := locationPermissionGranted s;
     userLocation := userLocation s; mapViewport := mapViewport s;
     mapBounds := mapBounds s; sessionRestored := sessionRestored s;
     nativeLocateInFlightRef := nativeLocateInFlightRef s;
     nativeFallbackCooldownRef := nativeFallbackCooldownRef s;
     markerQuerySeqRef := markerQuerySeqRef s;
     hasLoadedMarkersRef := hasLoadedMarkersRef s; effects := effects s |}.

Definition set_locationPermissionGranted (v : bool) (s : Screen) : Screen :=
  {| loading := loading s; error := error s; notice := notice s;
     markers := markers s; selectedMarkerId := selectedMarkerId s;
     draft := draft s; savingDraft := savingDraft s;
     draftImageFile := draftImageFile s; editingId := editingId s;
     locationPermissionGranted := v; userLocation := userLocation s;
     mapViewport := mapViewport s; mapBounds := mapBounds s;
     sessionRestored := sessionRestored s;
     nativeLocateInFlightRef := nativeLocateInFlightRef s;
     nativeFallbackCooldownRef := nativeFallbackCooldownRef s;
     markerQuerySeqRef := markerQuerySeqRef s;
     hasLoadedMarkersRef := hasLoadedMarkersRef s; effects := effects s |}.

Definition set_userLocation (v : option (Q * Q)) (s : Screen) : Screen :=
  {| loading := loading s; error := error s; notice := notice s;
     markers := markers s; selectedMarkerId := selectedMarkerId s;
     draft := draft s; savingDraft := savingDraft s;
     draftImageFile := draftImageFile s; editingId := editingId s;
     locationPermissionGranted := locationPermissionGranted s;
     userLocation := v; mapViewport := mapViewport s;
     mapBounds := mapBounds s; sessionRestored := sessionRestored s;
     nativeLocateInFlightRef := nativeLocateInFlightRef s;
     nativeFallbackCooldownRef := nativeFallbackCooldownRef s;
     markerQuerySeqRef := markerQuerySeqRef s;
     hasLoadedMarkersRef := hasLoadedMarkersRef s; effects := effects s |}.

Definition set_mapViewport (v : LatLngZoom.t) (s : Screen) : Screen :=
  {| loading := loading s; error := error s; notice := notice s;
     markers := markers s; selectedMarkerId := selectedMarkerId s;
     draft := draft s; savingDraft := savingDraft s;
     draftImageFile := draftImageFile s; editingId := editingId s;
     locationPermissionGranted := locationPermissionGranted s;
     userLocation := userLocation s; mapViewport := v;
     mapBounds := mapBounds s; sessionRestored := sessionRestored s;
     nativeLocateInFlightRef := nativeLocateInFlightRef s;
     nativeFallbackCooldownRef := nativeFallbackCooldownRef s;
     markerQuerySeqRef := markerQuerySeqRef s;
     hasLoadedMarkersRef := hasLoadedMarkersRef s; effects := effects s |}.

Definition set_mapBounds (v : option ViewportBounds.t) (s : Screen) : Screen :=
  {| loading := loading s; error := error s; notice := notice s;
     markers := markers s; selectedMarkerId := selectedMarkerId s;
     draft := draft s; savingDraft := savingDraft s;
     draftImageFile := draftImageFile s; editingId := editingId s;
     locationPermissionGranted := locationPermissionGranted s;
     userLocation := userLocation s; mapViewport := mapViewport s;
     mapBounds := v; sessionRestored := sessionRestored s;
     nativeLocateInFlightRef := nativeLocateInFlightRef s;
     nativeFallbackCooldownRef := nativeFallbackCooldownRef s;
     markerQuerySeqRef := markerQuerySeqRef s;
     hasLoadedMarkersRef := hasLoadedMarkersRef s; effects := effects s |}.

Definition set_sessionRestored (v : bool) (s : Screen) : Screen :=
  {| loading := loading s; error := error s; notice := notice s;
     markers := markers s; selectedMarkerId := selectedMarkerId s;
     draft := draft s; savingDraft := savingDraft s;
     draftImageFile := draftImageFile s; editingId := editingId s;
     locationPermissionGranted := locationPermissionGranted s;
     userLocation := userLocation s; mapViewport := mapViewport s;
     mapBounds := mapBounds s; sessionRestored := v;
     nativeLocateInFlightRef := nativeLocateInFlightRef s;
     nativeFallbackCooldownRef := nativeFallbackCooldownRef s;
     markerQuerySeqRef := markerQuerySeqRef s;
     hasLoadedMarkersRef := hasLoadedMarkersRef s; effects := effects s |}.

Definition set_nativeLocateInFlightRef (v : bool) (s : Screen) : Screen :=
  {| loading := loading s; error := error s; notice := notice s;
     markers := markers s; selectedMarkerId := selectedMarkerId s;
     draft := draft s; savingDraft := savingDraft s;
     draftImageFile := draftImageFile s; editingId := editingId s;
     locationPermissionGranted := locationPermissionGranted s;
     userLocation := userLocation s; mapViewport := mapViewport s;
     mapBounds := mapBounds s; sessionRestored := sessionRestored s;
     nativeLocateInFlightRef := v;
     nativeFallbackCooldownRef := nativeFallbackCooldownRef s;
     markerQuerySeqRef := markerQuerySeqRef s;
     hasLoadedMarkersRef := hasLoadedMarkersRef s; effects := effects s |}.

Definition set_nativeFallbackCooldownRef (v : Z) (s : Screen) : Screen :=
  {| loading := loading s; error := error s; notice := notice s;
     markers := markers s; selectedMarkerId := selectedMarkerId s;
     draft := draft s; savingDraft := savingDraft s;
     draftImageFile := draftImageFile s; editingId := editingId s;
     locationPermissionGranted := locationPermissionGranted s;
     userLocation := userLocation s; mapViewport := mapViewport s;
     mapBounds := mapBounds s; sessionRestored := sessionRestored s;
     nativeLocateInFlightRef := nativeLocateInFlightRef s;
     nativeFallbackCooldownRef := v;
     markerQuerySeqRef := markerQuerySeqRef s;
     hasLoadedMarkersRef := hasLoadedMarkersRef s; effects := effects s |}.

Definition set_markerQuerySeqRef (v : nat) (s : Screen) : Screen :=
  {| loading := loading s; error := error s; notice := notice s;
     markers := markers s; selectedMarkerId := selectedMarkerId s;
     draft := draft s; savingDraft := savingDraft s;
     draftImageFile := draftImageFile s; editingId := editingId s;
     locationPermissionGranted := locationPermissionGranted s;
     userLocation := userLocation s; mapViewport := mapViewport s;
     mapBounds := mapBounds s; sessionRestored := sessionRestored s;
     nativeLocateInFlightRef := nativeLocateInFlightRef s;
     nativeFallbackCooldownRef := nativeFallbackCooldownRef s;
     markerQuerySeqRef := v; hasLoadedMarkersRef := hasLoadedMarkersRef s;
     effects := effects s |}.

Definition set_hasLoadedMarkersRef (v : bool) (s : Screen) : Screen :=
  {| loading := loading s; error := error s; notice := notice s;
     markers := markers s; selectedMarkerId := selectedMarkerId s;
     draft := draft s; savingDraft := savingDraft s;
     draftImageFile := draftImageFile s; editingId := editingId s;
     locationPermissionGranted := locationPermissionGranted s;
     userLocation := userLocation s; mapViewport := mapViewport s;
     mapBounds := mapBounds s; sessionRestored := sessionRestored s;
     nativeLocateInFlightRef := nativeLocateInFlightRef s;
     nativeFallbackCooldownRef := nativeFallbackCooldownRef s;
     markerQuerySeqRef := markerQuerySeqRef s; hasLoadedMarkersRef := v;
     effects := effects s |}.

Definition set_effects (v : list Effect) (s : Screen) : Screen :=
  {| loading := loading s; error := error s; notice := notice s;
     markers := markers s; selectedMarkerId := selectedMarkerId s;
     draft := draft s; savingDraft := savingDraft s;
     draftImageFile := draftImageFile s; editingId := editingId s;
     locationPermissionGranted := locationPermissionGranted s;
     userLocation := userLocation s; mapViewport := mapViewport s;
     mapBounds := mapBounds s; sessionRestored := sessionRestored s;
     nativeLocateInFlightRef := nativeLocateInFlightRef s;
     nativeFallbackCooldownRef := nativeFallbackCooldownRef s;
     markerQuerySeqRef := markerQuerySeqRef s;
     hasLoadedMarkersRef := hasLoadedMarkersRef s; effects := v |}.

(** An effect is logged after those that came before. *)
Definition perform (e : Effect) (s : Screen) : Screen :=
  set_effects (effects s ++ [e]) s.

(** [showNotice] (lines 1441-1448); the timer that clears the notice after
    2.6 s is not modelled. *)
Definition showNotice (text : string) (s : Screen) : Screen :=
  set_notice text s.

Definition Qgt_bool (a b : Q) : bool := negb (Qle_bool a b).

(** ** Camera: restore, move-end, persistence *)

(** The stored item as [parseStoredViewport] sees it: nothing stored
    ([!raw]), a text on which [JSON.parse] or the property reads throw, or
    the three properties after [Number(...)]. *)
Inductive StoredItem : Type :=
| ItemAbsent
| ItemUnparsable
| ItemParsed (latitude longitude zoom : number).

(** Lines 1030-1047. *)
Definition parseStoredViewport (raw : StoredItem) : option LatLngZoom.t :=
  match raw with
  | ItemAbsent => None
  | ItemUnparsable => None
  | ItemParsed (Finite latitude) (Finite longitude) zoom =>
      let safeZoom :=
        match zoom with
        | Finite z => Math_max 3 (Math_min 20 z)
        | NotFinite => 11
        end in
      Some {| LatLngZoom.latitude := clampLat latitude;
              LatLngZoom.longitude := normalizeLng longitude;
              LatLngZoom.zoom := safeZoom |}
  | ItemParsed _ _ _ => None
  end.

(** The restore effect (lines 1459-1491), for the camera. *)
Definition restoreSession (savedViewportRaw : StoredItem) (s : Screen) : Screen :=
  let s1 :=
    match parseStoredViewport savedViewportRaw with
    | Some savedViewport => set_mapViewport savedViewport s
    | None => s
    end in
  set_sessionRestored true s1.

(** The body of the 450 ms timer of the persistence effect
    (lines 2029-2047). *)
Definition persistedViewport (mapViewport : LatLngZoom.t) : LatLngZoom.t :=
  {| LatLngZoom.latitude := clampLat (LatLngZoom.latitude mapViewport);
     LatLngZoom.longitude := normalizeLng (LatLngZoom.longitude mapViewport);
     LatLngZoom.zoom := Math_max 3 (Math_min 20 (LatLngZoom.zoom mapViewport)) |}.

Definition persistViewport (s : Screen) : Screen :=
  if sessionRestored s
  then perform (AsyncStorage_setItem_mapViewport (persistedViewport (mapViewport s))) s
  else s.

(** The [moveend] branch of [handleWebMessage] (lines 2292-2336).  The
    arguments are [Number(msg.latitude)], ..., [Number(msg.east)].  The
    span of two finite edges is their rounded difference, an infinity when
    that is beyond the largest double: then [Number.isFinite(lngSpan)]
    fails.  The literal [359.999] is the double nearest to it. *)
Definition handleWebMessage_moveend
  (lat lng zoom south north west east : number) (s : Screen) : Screen :=
  let s1 :=
    match lat, lng, zoom with
    | Finite lat, Finite lng, Finite zoom =>
        set_mapViewport {| LatLngZoom.latitude := lat;
                           LatLngZoom.longitude := normalizeLng lng;
                           LatLngZoom.zoom := zoom |} s
    | _, _, _ => s
    end in
  match south, north, west, east with
  | Finite south, Finite north, Finite west, Finite east =>
      let minLat := clampLat (Math_min south north) in
      let maxLat := clampLat (Math_max south north) in
      let lngSpan := Math_abs_number (js_minus east west) in
      if Number_isFinite lngSpan
         && match lngSpan with
            | Finite span => Qle_bool (fl 359.999) span
            | NotFinite => false
            end
      then set_mapBounds (Some {| ViewportBounds.minLat := minLat;
                                  ViewportBounds.maxLat := maxLat;
                                  ViewportBounds.minLng := -180;
                                  ViewportBounds.maxLng := 180;
                                  ViewportBounds.wrapsAntimeridian := false;
                                  ViewportBounds.wholeWorld := true |}) s1
      else
        let minLng := normalizeLng west in
        let maxLng := normalizeLng east in
        let wrapsAntimeridian := Qgt_bool minLng maxLng in
        set_mapBounds (Some {| ViewportBounds.minLat := minLat;
                               ViewportBounds.maxLat := maxLat;
                               ViewportBounds.minLng := minLng;
                               ViewportBounds.maxLng := maxLng;
                               ViewportBounds.wrapsAntimeridian := wrapsAntimeridian;
                               ViewportBounds.wholeWorld := false |}) s1
  | _, _, _, _ => s1
  end.

(** ** The insertion-ordered [Map] used to merge markers by id *)

Fixpoint Map_set {V : Type} (k : Q) (v : V) (m : list (Q * V)) : list (Q * V) :=
  match m with
  | [] => [(k, v)]
  | (k', v') :: rest =>
      if Qeq_bool k' k then (k', v) :: rest else (k', v') :: Map_set k v rest
  end.

Fixpoint Map_get {V : Type} (k : Q) (m : list (Q * V)) : option V :=
  match m with
  | [] => None
  | (k', v') :: rest => if Qeq_bool k' k then Some v' else Map_get k rest
  end.

Definition Map_values {V : Type} (m : list (Q * V)) : list V := map snd m.

(** [items.forEach(marker => mergedById.set(marker.id, marker))] followed
    by [Array.from(mergedById.values())]. *)
Definition setMarker (m : list (Q * MapMarker.t)) (marker : MapMarker.t)
  : list (Q * MapMarker.t) :=
  Map_set (MapMarker.id marker) marker m.

Definition mergedById (items : list MapMarker.t) : list (Q * MapMarker.t) :=
  fold_left setMarker items [].

Definition mergeMarkersById (items : list MapMarker.t) : list MapMarker.t :=
  Map_values (mergedById items).

(** Every entry of the map is filed under the id of its marker. *)
Definition keyedById (m : list (Q * MapMarker.t)) : Prop :=
  Forall (fun entry => fst entry == MapMarker.id (snd entry)) m.

(** The first marker of a list that has the id [k]. *)
Definition findById (k : Q) (items : list MapMarker.t) : option MapMarker.t :=
  find (fun marker => Qeq_bool (MapMarker.id marker) k) items.

(** The message shown for a caught value [e]:
    [e instanceof Error ? e.message : fallback]. *)
Definition messageOr (fallback : string) (e : thrown) : string :=
  match e with
  | ErrorObject message _ => message
  | OtherThrown _ => fallback
  end.

Definition nativeCode (e : thrown) : string :=
  match e with
  | ErrorObject _ (Some code) | OtherThrown (Some code) => code
  | _ => ""%string
  end.

(** ** Marker query coordinator *)

Inductive Plan : Type :=
| Single (q : ViewportQuery.t)
| Pair (left right : ViewportQuery.t).

Definition requests (p : Plan) : list ViewportQuery.t :=
  match p with
  | Single q => [q]
  | Pair l r => [l; r]
  end.

(** A call of [loadMarkersInViewport] suspended at its [await]. *)
Record Pending : Type := {
  seq : nat;
  plan : Plan
}.

Definition fetchViewportSegment
  (bounds : ViewportBounds.t) (categories : list MarkerCategory)
  (minLng maxLng : Q) : ViewportQuery.t :=
  {| ViewportQuery.minLat := ViewportBounds.minLat bounds;
     ViewportQuery.maxLat := ViewportBounds.maxLat bounds;
     ViewportQuery.minLng := minLng;
     ViewportQuery.maxLng := maxLng;
     ViewportQuery.categories := categories |}.

(** The three branches of lines 1790-1800: which segments are fetched. *)
Definition segments
  (bounds : ViewportBounds.t) (categories : list MarkerCategory) : Plan :=
  if ViewportBounds.wholeWorld bounds
  then Single (fetchViewportSegment bounds categories (-180) 180)
  else if negb (ViewportBounds.wrapsAntimeridian bounds)
          && Qle_bool (ViewportBounds.minLng bounds) (ViewportBounds.maxLng bounds)
  then Single (fetchViewportSegment bounds categories
                 (ViewportBounds.minLng bounds) (ViewportBounds.maxLng bounds))
  else Pair (fetchViewportSegment bounds categories (ViewportBounds.minLng bounds) 180)
            (fetchViewportSegment bounds categories (-180) (ViewportBounds.maxLng bounds)).

(** [loadMarkersInViewport] up to its [await] (lines 1755-1800): the fast
    path for no category, else a new sequence number and the requests. *)
Definition loadMarkersInViewport
  (bounds : ViewportBounds.t) (categories : list MarkerCategory) (s : Screen)
  : Screen * option Pending :=
  match categories with
  | [] =>
      let s1 := set_error "" (set_markers [] s) in
      let s2 :=
        if hasLoadedMarkersRef s1 then s1
        else set_loading false (set_hasLoadedMarkersRef true s1) in
      (s2, None)
  | _ :: _ =>
      let seq := S (markerQuerySeqRef s) in
      let s1 := set_markerQuerySeqRef seq s in
      let isFirstLoad := negb (hasLoadedMarkersRef s1) in
      let s2 := if isFirstLoad then set_loading true s1 else s1 in
      let p := segments bounds categories in
      (fold_left (fun st q => perform (GET_markers_viewport q) st) (requests p) s2,
       Some {| seq := seq; plan := p |})
  end.

Section Payloads.

(** The JSON answer of the server and its reading.  [normalizeMarkers]
    (lines 921-950) keeps the items with a finite id, latitude and
    longitude and fills in the other fields; [arrayOf raw] is the array
    [[raw]].  Nothing below depends on how an answer is read, so both are
    parameters; a read that throws is caught like a failed request and is
    a [Rejected] below. *)
Variable payload : Type.
Variable normalizeMarkers : payload -> list MapMarker.t.
Variable arrayOf : payload -> payload.

(** Lines 952-955. *)
Definition normalizeSingleMarker (raw : payload) : option MapMarker.t :=
  hd_error (normalizeMarkers (arrayOf raw)).

(** What the awaited fetches of a plan resolve to. *)
Definition Payloads (p : Plan) : Type :=
  match p with
  | Single _ => payload
  | Pair _ _ => (payload * payload)%type
  end.

(** [mergedMarkers] of lines 1789-1808. *)
Definition mergedMarkers (p : Plan) : Payloads p -> list MapMarker.t :=
  match p return Payloads p -> list MapMarker.t with
  | Single _ => fun payload => normalizeMarkers payload
  | Pair _ _ => fun both =>
      let (leftPayload, rightPayload) := both in
      mergeMarkersById (normalizeMarkers leftPayload ++ normalizeMarkers rightPayload)
  end.

(** [loadMarkersInViewport] from the [await] on (lines 1788-1834): the
    [try] body, the [catch] and the [finally], on the state the screen has
    when the fetches settle. *)
Definition loadMarkersInViewport_settled
  (pd : Pending) (r : settled (Payloads (plan pd))) (s : Screen) : Screen :=
  let s1 :=
    match r with
    | Fulfilled payloads =>
        let merged := mergedMarkers (plan pd) payloads in
        if negb (Nat.eqb (seq pd) (markerQuerySeqRef s)) then s
        else set_error "" (set_markers merged s)
    | Rejected e =>
        if negb (Nat.eqb (seq pd) (markerQuerySeqRef s)) then s
        else set_error (messageOr "加载点位失败" e) s
    end in
  if Nat.eqb (seq pd) (markerQuerySeqRef s1) && negb (hasLoadedMarkersRef s1)
  then set_loading false (set_hasLoadedMarkersRef true s1)
  else s1.

(** ** Draft workflow: the submit step of [saveDraft] *)

(** Lines 2441-2456, for the fields of [Screen]. *)
Definition resetDraftState (s : Screen) : Screen :=
  set_editingId None (set_draft None (set_draftImageFile None s)).

(** The [catch] and [finally] of [saveDraft] (lines 2648-2653). *)
Definition saveDraft_failed (e : thrown) (s : Screen) : Screen :=
  set_savingDraft false (showNotice (messageOr "保存失败" e) s).

(** Lines 2643-2647 and the [finally]. *)
Definition saveDraft_succeeded (created : MapMarker.t) (s : Screen) : Screen :=
  let s1 :=
    set_markers
      (created ::
       filter (fun marker => negb (Qeq_bool (MapMarker.id marker) (MapMarker.id created)))
              (markers s)) s in
  let s2 := set_selectedMarkerId (Some (MapMarker.id created)) s1 in
  let s3 := resetDraftState s2 in
  let s4 := showNotice "已提交管理员审核，将在审核通过后显示。" s3 in
  let s5 := perform (injectJavaScript_rnSetView
                       (MapMarker.lat created) (MapMarker.lng created) 15) s4 in
  set_savingDraft false s5.

(** [saveDraft] from [setSavingDraft(true)] to its first [await]
    (lines 2597-2624), entered with a draft that passed the checks of lines
    2552-2595.  [editingId] selects PATCH or POST; a number is falsy when it
    is zero. *)
Definition saveDraft_submit (body : DraftMarker.t) (s : Screen) : Screen :=
  let s1 := set_savingDraft true s in
  match editingId s with
  | Some id =>
      if Qeq_bool id 0 then perform (POST_marker body) s1
      else perform (PATCH_marker id body) s1
  | None => perform (POST_marker body) s1
  end.

(** Lines 2626-2641, when the create or update request settles.  With an
    image attached the upload is requested for the id just returned and the
    function waits again, remembering [created]. *)
Definition saveDraft_created
  (image : option LocalUploadImage.t) (r : settled payload) (s : Screen)
  : Screen * option MapMarker.t :=
  match r with
  | Rejected e => (saveDraft_failed e s, None)
  | Fulfilled raw =>
      match normalizeSingleMarker raw with
      | None =>
          (saveDraft_failed (ErrorObject "保存成功，但返回数据格式异常。" None) s, None)
      | Some created =>
          match image with
          | Some file =>
              (perform (POST_marker_image (MapMarker.id created) file) s, Some created)
          | None => (saveDraft_succeeded created s, None)
          end
      end
  end.

(** Lines 2634-2653, when the image upload settles. *)
Definition saveDraft_uploaded
  (created : MapMarker.t) (r : settled payload) (s : Screen) : Screen :=
  match r with
  | Rejected e => saveDraft_failed e s
  | Fulfilled raw =>
      match normalizeSingleMarker raw with
      | Some withImage => saveDraft_succeeded withImage s
      | None => saveDraft_succeeded created s
      end
  end.

End Payloads.

(** ** Native location arbiter *)

Record LocateOptions : Type := {
  recenter : bool;
  silent : bool
}.

(** What is fixed for a run of the app: the platform and whether the native
    module with its [getCurrentPosition] function is there (lines 830-833). *)
Record Platform : Type := {
  supportsNativeLocation : bool;
  nativeLocationModule : bool
}.

(** The native payload after [Number(payload?.latitude)] and
    [Number(payload?.longitude)]; [provider] is present when it is a string
    that is not blank. *)
Record NativeLocationPayload : Type := {
  latitude : number;
  longitude : number;
  provider : option string
}.

(** [requestNativeCurrentLocation] up to its [await] (lines 1501-1516):
    [Some false] when it returns at once, [None] when the OS request is on
    its way. *)
Definition requestNativeCurrentLocation
  (env : Platform) (opts : LocateOptions) (s : Screen) : Screen * option bool :=
  if negb (supportsNativeLocation env) then (s, Some false)
  else if negb (locationPermissionGranted s) then (s, Some false)
  else if negb (nativeLocationModule env) then (s, Some false)
  else if nativeLocateInFlightRef s then (s, Some false)
  else
    let s1 := set_nativeLocateInFlightRef true s in
    (perform (NativeLocation_getCurrentPosition 8000 60000) s1, None).

(** The [catch] of lines 1538-1556. *)
Definition requestNativeCurrentLocation_catch
  (opts : LocateOptions) (err : thrown) (s : Screen) : Screen * bool :=
  let s1 :=
    if String.eqb (nativeCode err) "LOCATION_PERMISSION_DENIED"
    then set_locationPermissionGranted false s
    else s in
  let s2 :=
    if silent opts then s1
    else
      let message : string :=
        match err with
        | ErrorObject message _ =>
            if String.eqb message "" then "定位失败，请稍后重试。"%string else message
        | OtherThrown _ => "定位失败，请稍后重试。"%string
        end in
      showNotice ("原生定位失败：" ++ message) s1 in
  (s2, false).

(** [requestNativeCurrentLocation] from the [await] on (lines 1513-1559):
    the result is what the promise resolves to. *)
Definition requestNativeCurrentLocation_settled
  (opts : LocateOptions) (r : settled NativeLocationPayload) (s : Screen)
  : Screen * bool :=
  let (s1, ok) :=
    match r with
    | Fulfilled payload =>
        match latitude payload, longitude payload with
        | Finite latitude, Finite longitude =>
            let s1 := set_userLocation (Some (latitude, longitude)) s in
            let s2 :=
              if recenter opts
              then perform (injectJavaScript_rnSetView latitude longitude 15) s1
              else s1 in
            let s3 :=
              if silent opts then s2
              else
                let provider : string :=
                  match provider payload with
                  | Some p => p
                  | None => "native"%string
                  end in
                showNotice ("已使用原生定位（" ++ provider ++ "）。") s2 in
            (s3, true)
        | _, _ =>
            requestNativeCurrentLocation_catch opts
              (ErrorObject "原生定位返回坐标无效" None) s
        end
    | Rejected err => requestNativeCurrentLocation_catch opts err s
    end in
  (set_nativeLocateInFlightRef false s1, ok).

(** Whether a handler called [requestNativeCurrentLocation], with which
    options and what the call did at once. *)
Inductive Invocation : Type :=
| NotInvoked
| Invoked (opts : LocateOptions) (immediate : option bool).

(** The [geoError] branch of [handleWebMessage] (lines 2347-2376), up to
    the call of [requestNativeCurrentLocation]; [now] is [Date.now()].  The
    notices of the [then] and [catch] callbacks are not modelled. *)
Definition handleWebMessage_geoError
  (env : Platform) (now : Z) (s : Screen) : Screen * Invocation :=
  if locationPermissionGranted s then
    if (now - nativeFallbackCooldownRef s <? 1800)%Z then (s, NotInvoked)
    else
      let s1 := set_nativeFallbackCooldownRef now s in
      let opts := {| recenter := false; silent := true |} in
      let (s2, immediate) := requestNativeCurrentLocation env opts s1 in
      (s2, Invoked opts immediate)
  else (s, NotInvoked).

(** The OS requests among the effects. *)
Definition isOsLocationRequest (e : Effect) : bool :=
  match e with
  | NativeLocation_getCurrentPosition _ _ => true
  | _ => false
  end.

Definition osLocationRequests (s : Screen) : nat :=
  List.length (filter isOsLocationRequest (effects s)).

(** The viewport requests among the effects. *)
Definition viewportRequests (s : Screen) : list ViewportQuery.t :=
  flat_map (fun e => match e with GET_markers_viewport q => [q] | _ => [] end)
           (effects s).

(** ** The camera invariant of the specification *)

Definition cameraInvariant (c : LatLngZoom.t) : Prop :=
  (-90 <= LatLngZoom.latitude c /\ LatLngZoom.latitude c <= 90) /\
  (-180 <= LatLngZoom.longitude c /\ LatLngZoom.longitude c < 180) /\
  (3 <= LatLngZoom.zoom c /\ LatLngZoom.zoom c <= 20).

(** ** The component as it is mounted, and data for the examples *)

(** Lines 835-839. *)
Definition INITIAL_VIEW : LatLngZoom.t :=
  {| LatLngZoom.latitude := 39.9042;
     LatLngZoom.longitude := 116.4074;
     LatLngZoom.zoom := 11 |}.

(** The initial values of lines 1361-1436; the location permission starts
    granted except on Android. *)
Definition initialScreen (permission : bool) : Screen :=
  {| loading := true; error := ""; notice := ""; markers := [];
     selectedMarkerId := None; draft := None; savingDraft := false;
     draftImageFile := None; editingId := None;
     locationPermissionGranted := permission; userLocation := None;
     mapViewport := INITIAL_VIEW; mapBounds := None; sessionRestored := false;
     nativeLocateInFlightRef := false; nativeFallbackCooldownRef := 0%Z;
     markerQuerySeqRef := 0%nat; hasLoadedMarkersRef := false; effects := [] |}.

(** A phone with the native location module. *)
Definition phone : Platform :=
  {| supportsNativeLocation := true; nativeLocationModule := true |}.

(** A marker as [normalizeMarkers] fills it in from an item that only has
    an id, a position and a title. *)
Definition plainMarker (id lat lng : Q) (title : string) : MapMarker.t :=
  {| MapMarker.id := id; MapMarker.lat := lat; MapMarker.lng := lng;
     MapMarker.category := self_definition; MapMarker.title := title;
     MapMarker.description := ""; MapMarker.isPublic := true;
     MapMarker.isActive := true; MapMarker.openTimeStart := None;
     MapMarker.openTimeEnd := None; MapMarker.markImage := None;
     MapMarker.username := ""; MapMarker.userPublicId := None |}.

(** A server whose answers are already lists of markers. *)
Definition listPayload : Type := list MapMarker.t.

Definition listNormalize (raw : listPayload) : list MapMarker.t := raw.

Definition listArrayOf (raw : listPayload) : listPayload := raw.

(** A viewport around the initial camera, as a move-end event reports it,
    and the screen after four loads on it. *)
Definition sampleBounds : ViewportBounds.t :=
  {| ViewportBounds.minLat := 39.8; ViewportBounds.maxLat := 40;
     ViewportBounds.minLng := 116.3; ViewportBounds.maxLng := 116.5;
     ViewportBounds.wrapsAntimeridian := false;
     ViewportBounds.wholeWorld := false |}.

Definition loadAgain (s : Screen) : Screen :=
  fst (loadMarkersInViewport sampleBounds [accessible_toilet] s).

Definition screenAfterFourLoads : Screen :=
  loadAgain (loadAgain (loadAgain (loadAgain (initialScreen true)))).

(** A draft for a new marker, a photo to attach, and a screen that shows
    two markers. *)
Definition sampleDraft : DraftMarker.t :=
  {| DraftMarker.lat := 39.9; DraftMarker.lng := 116.4;
     DraftMarker.category := accessible_toilet;
     DraftMarker.title := "Exit A"; DraftMarker.description := "";
     DraftMarker.isPublic := true;
     DraftMarker.openStartHour := ""; DraftMarker.openStartMinute := "";
     DraftMarker.openEndHour := ""; DraftMarker.openEndMinute := "" |}.

Definition samplePhoto : LocalUploadImage.t :=
  {| LocalUploadImage.uri := "file:///tmp/photo.jpg";
     LocalUploadImage.name := "photo.jpg";
     LocalUploadImage.type := "image/jpeg";
     LocalUploadImage.size := 1024 |}.

Definition screenWithTwoMarkers : Screen :=
  set_draft (Some sampleDraft)
    (set_markers [plainMarker 7 39.9 116.4 "old"; plainMarker 8 39.9 116.5 "other"]
       (initialScreen true)).

(** * The rest of the screen and its collaborators *)

(** ** The renderer's [__rnSetView] (lines 1275-1284) *)

(** The longitude wrap of the renderer, which has no final clamp.  The
    operations and their roundings are those of [normalizeLng]. *)
Definition rnSetView_safeLng (safeLng : Q) : Q :=
  js_sub (js_rem (js_add (js_rem (js_add safeLng 180) 360) 360) 360) 180.

(** Where [__rnSetView(lat, lng, zoom)] moves the map whose zoom is
    [currentZoom]: nowhere when a coordinate is not finite. *)
Definition rnSetView (lat lng zoom : number) (currentZoom : Q) : option LatLngZoom.t :=
  match lat, lng with
  | Finite safeLat, Finite safeLng =>
      Some {| LatLngZoom.latitude := safeLat;
              LatLngZoom.longitude := rnSetView_safeLng safeLng;
              LatLngZoom.zoom := match zoom with
                                 | Finite z => z
                                 | NotFinite => currentZoom
                                 end |}
  | _, _ => None
  end.

(** ** Stored camera: what is written is what is read *)

(** The item read back after [JSON.stringify(payload)] was stored: the three
    numbers are finite and survive the text form unchanged. *)
Definition storedItemOf (payload : LatLngZoom.t) : StoredItem :=
  ItemParsed (Finite (LatLngZoom.latitude payload))
             (Finite (LatLngZoom.longitude payload))
             (Finite (LatLngZoom.zoom payload)).

(** Two cameras with equal numbers. *)
Definition sameCamera (a b : LatLngZoom.t) : Prop :=
  LatLngZoom.latitude a == LatLngZoom.latitude b /\
  LatLngZoom.longitude a == LatLngZoom.longitude b /\
  LatLngZoom.zoom a == LatLngZoom.zoom b.

(** A request for a range of longitudes that the server can answer. *)
Definition wellFormedQuery (q : ViewportQuery.t) : Prop :=
  ViewportQuery.minLat q <= ViewportQuery.maxLat q /\
  -180 <= ViewportQuery.minLng q /\
  ViewportQuery.minLng q <= ViewportQuery.maxLng q /\
  ViewportQuery.maxLng q <= 180.

(** ** Startup camera (lines 2071-2110) *)

(** The screen with the two refs of the startup camera. *)
Record Startup : Type := {
  screen : Screen;
  mapReady : bool;
  startupCameraAppliedRef : bool;
  restoredViewportRef : option LatLngZoom.t
}.

(** Lines 2071-2080. *)
Definition applyStartupCamera (target : LatLngZoom.t) (st : Startup) : Startup :=
  if startupCameraAppliedRef st then st
  else
    {| screen := perform (injectJavaScript_rnSetView
                            (LatLngZoom.latitude target)
                            (LatLngZoom.longitude target)
                            (LatLngZoom.zoom target)) (screen st);
       mapReady := mapReady st;
       startupCameraAppliedRef := true;
       restoredViewportRef := restoredViewportRef st |}.

(** What can happen to the startup camera: the session is restored from a
    stored item (lines 1470-1476 and 1482), the map reports ready, a fix
    arrives, the effect on the user location runs (lines 2082-2091), the
    1.8 s timer of the fallback effect fires (lines 2093-2110); the timer
    is only pending while the conditions of its effect hold. *)
Inductive StartupEvent : Type :=
| SessionRestored (raw : StoredItem)
| MapReady
| UserLocationFix (latitude longitude : Q)
| LocationEffect (isActive : bool)
| FallbackTimer (isActive : bool).

Definition startupStep (st : Startup) (e : StartupEvent) : Startup :=
  match e with
  | SessionRestored raw =>
      {| screen := restoreSession raw (screen st);
         mapReady := mapReady st;
         startupCameraAppliedRef := startupCameraAppliedRef st;
         restoredViewportRef :=
           match parseStoredViewport raw with
           | Some savedViewport => Some savedViewport
           | None => restoredViewportRef st
           end |}
  | MapReady =>
      {| screen := screen st; mapReady := true;
         startupCameraAppliedRef := startupCameraAppliedRef st;
         restoredViewportRef := restoredViewportRef st |}
  | UserLocationFix latitude longitude =>
      {| screen := set_userLocation (Some (latitude, longitude)) (screen st);
         mapReady := mapReady st;
         startupCameraAppliedRef := startupCameraAppliedRef st;
         restoredViewportRef := restoredViewportRef st |}
  | LocationEffect isActive =>
      if negb isActive || negb (mapReady st) || negb (sessionRestored (screen st))
      then st
      else if startupCameraAppliedRef st then st
      else
        match userLocation (screen st) with
        | None => st
        | Some (latitude, longitude) =>
            applyStartupCamera {| LatLngZoom.latitude := latitude;
                                  LatLngZoom.longitude := longitude;
                                  LatLngZoom.zoom := 15 |} st
        end
  | FallbackTimer isActive =>
      if negb isActive || negb (mapReady st) || negb (sessionRestored (screen st))
      then st
      else if startupCameraAppliedRef st then st
      else
        match userLocation (screen st) with
        | Some _ => st
        | None =>
            let fallback :=
              match restoredViewportRef st with
              | Some restored => restored
              | None => INITIAL_VIEW
              end in
            applyStartupCamera fallback st
        end
  end.

Definition initialStartup (permission : bool) : Startup :=
  {| screen := initialScreen permission; mapReady := false;
     startupCameraAppliedRef := false; restoredViewportRef := None |}.

(** The cameras the app asked the renderer to show. *)
Definition setViewRequests (s : Screen) : list LatLngZoom.t :=
  flat_map (fun e => match e with
                     | injectJavaScript_rnSetView lat lng zoom =>
                         [{| LatLngZoom.latitude := lat;
                             LatLngZoom.longitude := lng;
                             LatLngZoom.zoom := zoom |}]
                     | _ => []
                     end)
           (effects s).

(** What the startup steps keep: once applied, one camera has been asked
    for and before that none; the restored camera, if any, satisfies the
    invariant. *)
Definition startupInvariant (st : Startup) : Prop :=
  (if startupCameraAppliedRef st
   then List.length (setViewRequests (screen st)) = 1%nat
   else setViewRequests (screen st) = []) /\
  match restoredViewportRef st with
  | Some restored => cameraInvariant restored
  | None => True
  end.

(** ** Runs of the marker query coordinator *)

Section QueryRuns.

Variable payload : Type.
Variable normalizeMarkers : payload -> list MapMarker.t.

(** What happens to the coordinator: a call of [loadMarkersInViewport], or
    the fetches of some call settling. *)
Inductive QueryEvent : Type :=
| Load (bounds : ViewportBounds.t) (categories : list MarkerCategory)
| Settle (pd : Pending) (r : settled (Payloads payload (plan pd))).

Definition queryStep (s : Screen) (e : QueryEvent) : Screen :=
  match e with
  | Load bounds categories => fst (loadMarkersInViewport bounds categories s)
  | Settle pd r => loadMarkersInViewport_settled payload normalizeMarkers pd r s
  end.

(** The calls that take a sequence number. *)
Definition dispatches (e : QueryEvent) : bool :=
  match e with
  | Load _ (_ :: _) => true
  | _ => false
  end.

End QueryRuns.

Arguments Load {payload} bounds categories.
Arguments Settle {payload} pd r.

(** ** Re-centring on the user (lines 2400-2420) *)

(** [recenterToUserLocation] up to its [await]. *)
Definition recenterToUserLocation (env : Platform) (s : Screen) : Screen * Invocation :=
  if negb (locationPermissionGranted s)
  then (showNotice "请先开启定位权限。" s, NotInvoked)
  else
    match userLocation s with
    | None =>
        let opts := {| recenter := true; silent := true |} in
        let (s1, immediate) := requestNativeCurrentLocation env opts s in
        let s2 :=
          match immediate with
          | Some false => showNotice "暂时无法获取定位，请稍后重试。" s1
          | _ => s1
          end in
        (s2, Invoked opts immediate)
    | Some (latitude, longitude) =>
        (perform (injectJavaScript_rnSetView latitude longitude 15) s, NotInvoked)
    end.

(** [recenterToUserLocation] after the native request it awaited settled. *)
Definition recenterToUserLocation_settled
  (r : settled NativeLocationPayload) (s : Screen) : Screen :=
  let (s1, ok) :=
    requestNativeCurrentLocation_settled {| recenter := true; silent := true |} r s in
  if ok then s1 else showNotice "暂时无法获取定位，请稍后重试。" s1.

(** ** Marker list: nearby merge, filters, selection, pins *)

(** The updater that [searchNearby] passes to [setMarkers]
    (lines 2737-2742): the results are set over the previous markers in one
    [Map]. *)
Definition searchNearby_merge (prev results : list MapMarker.t) : list MapMarker.t :=
  mergeMarkersById (prev ++ results).

Inductive OwnerFilter : Type :=
| owner_all
| owner_mine
| owner_fav.

(** What [filteredMarkers] depends on besides the markers: the category
    switches, the nearby restriction, the owner filter, [user?.publicId],
    and the favourite ids.  A [Set] of numbers is the list of its members. *)
Record Filters : Type := {
  visibleCats : MarkerCategory -> bool;
  nearbyOnly : bool;
  nearbyIds : list Q;
  ownerFilter : OwnerFilter;
  userPublicId : option string;
  favoriteIds : list Q
}.

Definition Set_has (ids : list Q) (k : Q) : bool :=
  existsb (fun member => Qeq_bool member k) ids.

(** The predicate of lines 1879-1889. *)
Definition passesFilters (f : Filters) (marker : MapMarker.t) : bool :=
  if negb (visibleCats f (MapMarker.category marker)) then false
  else if nearbyOnly f && negb (Set_has (nearbyIds f) (MapMarker.id marker)) then false
  else if match ownerFilter f with
          | owner_mine =>
              match userPublicId f with
              | None => true
              | Some publicId =>
                  String.eqb publicId ""
                  || negb match MapMarker.userPublicId marker with
                          | Some owner => String.eqb owner publicId
                          | None => false
                          end
              end
          | _ => false
          end then false
  else if match ownerFilter f with
          | owner_fav => negb (Set_has (favoriteIds f) (MapMarker.id marker))
          | _ => false
          end then false
  else true.

Definition filteredMarkers (f : Filters) (markers : list MapMarker.t) : list MapMarker.t :=
  filter (passesFilters f) markers.

(** The filters of a screen that was just mounted (lines 1397-1414). *)
Definition initialFilters (publicId : option string) (favorites : list Q) : Filters :=
  {| visibleCats := fun _ => true; nearbyOnly := false; nearbyIds := [];
     ownerFilter := owner_all; userPublicId := publicId; favoriteIds := favorites |}.

Definition MarkerCategory_eqb (a b : MarkerCategory) : bool :=
  match a, b with
  | accessible_toilet, accessible_toilet
  | friendly_clinic, friendly_clinic
  | conversion_therapy, conversion_therapy
  | self_definition, self_definition => true
  | _, _ => false
  end.

Definition with_visibleCats (v : MarkerCategory -> bool) (f : Filters) : Filters :=
  {| visibleCats := v; nearbyOnly := nearbyOnly f; nearbyIds := nearbyIds f;
     ownerFilter := ownerFilter f; userPublicId := userPublicId f;
     favoriteIds := favoriteIds f |}.

(** Lines 2689-2691. *)
Definition toggleCategory (key : MarkerCategory) (f : Filters) : Filters :=
  with_visibleCats
    (fun c => if MarkerCategory_eqb c key then negb (visibleCats f c) else visibleCats f c)
    f.

(** Lines 2693-2700. *)
Definition setAllCategoriesVisible (visible : bool) (f : Filters) : Filters :=
  with_visibleCats (fun _ => visible) f.

(** The effect of lines 1902-1906 and [selectedMarker] of lines 1917-1920. *)
Definition syncSelection (filtered : list MapMarker.t) (selectedMarkerId : option Q)
  : option Q :=
  match selectedMarkerId with
  | None => None
  | Some id =>
      if existsb (fun marker => Qeq_bool (MapMarker.id marker) id) filtered
      then Some id else None
  end.

Definition selectedMarker (filtered : list MapMarker.t) (selectedMarkerId : option Q)
  : option MapMarker.t :=
  match selectedMarkerId with
  | None => None
  | Some id => findById id filtered
  end.

(** Lines 864-869 and 997-1000. *)
Definition categoryColor (c : MarkerCategory) : string :=
  match c with
  | accessible_toilet => "#1e88e5"
  | friendly_clinic => "#43a047"
  | conversion_therapy => "#e53935"
  | self_definition => "#f0bf2f"
  end.

Definition getMarkerPinColor (marker : MapMarker.t) : string :=
  if negb (MapMarker.isActive marker) then "#9e9e9e"
  else categoryColor (MapMarker.category marker).

(** A pin as it is sent to the renderer (lines 1950-1959). *)
Module WebMarker.
Record t : Type := {
  id : Q;
  lat : Q;
  lng : Q;
  color : string
}.
End WebMarker.

Definition webMarkers (filtered : list MapMarker.t) : list WebMarker.t :=
  map (fun marker => {| WebMarker.id := MapMarker.id marker;
                        WebMarker.lat := MapMarker.lat marker;
                        WebMarker.lng := MapMarker.lng marker;
                        WebMarker.color := getMarkerPinColor marker |}) filtered.

(** ** Opening hours: the time fields of the draft *)

From Stdlib Require Ascii DecimalString DecimalFacts DecimalPos.

(** The string operations the time fields go through.  A text is a string
    of bytes; the operations below only look for ASCII digits and the
    colon, which are single bytes. *)
Module JsString.

Import Ascii.

(** [\d] *)
Definition isDigit (c : ascii) : bool :=
  (48 <=? nat_of_ascii c)%nat && (nat_of_ascii c <=? 57)%nat.

Fixpoint allDigits (text : string) : bool :=
  match text with
  | EmptyString => true
  | String c rest => isDigit c && allDigits rest
  end.

(** [text.replace(/\D/g, '')] *)
Fixpoint keepDigits (text : string) : string :=
  match text with
  | EmptyString => EmptyString
  | String c rest => if isDigit c then String c (keepDigits rest) else keepDigits rest
  end.

(** [text.slice(0, n)] *)
Definition slice_from_0 (n : nat) (text : string) : string := substring 0 n text.

(** [/^\d{2}:\d{2}$/.test(value)] *)
Definition test_HHMM (value : string) : bool :=
  match value with
  | String a (String b (String colon (String c (String d EmptyString)))) =>
      isDigit a && isDigit b && (nat_of_ascii colon =? 58)%nat && isDigit c && isDigit d
  | _ => false
  end.

(** The value of a string of decimal digits, leading zeros allowed. *)
Fixpoint decimal (acc : Z) (text : string) : Z :=
  match text with
  | EmptyString => acc
  | String c rest => decimal (10 * acc + (Z.of_nat (nat_of_ascii c) - 48)) rest
  end.

(** [String(n)] for an integer [n]. *)
Definition String_of_integer (n : Z) : string :=
  DecimalString.NilZero.string_of_int (Z.to_int n).

Fixpoint fill_with (n : nat) (c : ascii) : string :=
  match n with
  | O => EmptyString
  | S n' => String c (fill_with n' c)
  end.

(** [text.padStart(targetLength, c)] for a fill string of one character. *)
Definition padStart (targetLength : nat) (c : ascii) (text : string) : string :=
  (fill_with (targetLength - String.length text) c ++ text)%string.

(** [Boolean(text)] and [!text]: only the empty string is falsy. *)
Definition Boolean (text : string) : bool :=
  match text with
  | EmptyString => false
  | String _ _ => true
  end.

Definition zero : ascii := ascii_of_nat 48.

End JsString.

Inductive TimePart : Type :=
| openStartHour
| openStartMinute
| openEndHour
| openEndMinute.

Definition TimePart_get (key : TimePart) (d : DraftMarker.t) : string :=
  match key with
  | openStartHour => DraftMarker.openStartHour d
  | openStartMinute => DraftMarker.openStartMinute d
  | openEndHour => DraftMarker.openEndHour d
  | openEndMinute => DraftMarker.openEndMinute d
  end.

(** [{...prev, [key]: value}] *)
Definition TimePart_set (key : TimePart) (value : string) (d : DraftMarker.t)
  : DraftMarker.t :=
  {| DraftMarker.lat := DraftMarker.lat d;
     DraftMarker.lng := DraftMarker.lng d;
     DraftMarker.category := DraftMarker.category d;
     DraftMarker.title := DraftMarker.title d;
     DraftMarker.description := DraftMarker.description d;
     DraftMarker.isPublic := DraftMarker.isPublic d;
     DraftMarker.openStartHour :=
       match key with openStartHour => value | _ => DraftMarker.openStartHour d end;
     DraftMarker.openStartMinute :=
       match key with openStartMinute => value | _ => DraftMarker.openStartMinute d end;
     DraftMarker.openEndHour :=
       match key with openEndHour => value | _ => DraftMarker.openEndHour d end;
     DraftMarker.openEndMinute :=
       match key with openEndMinute => value | _ => DraftMarker.openEndMinute d end |}.

Definition TimePart_isHour (key : TimePart) : bool :=
  match key with
  | openStartHour | openEndHour => true
  | openStartMinute | openEndMinute => false
  end.

Definition TimePart_max (key : TimePart) : Q :=
  if TimePart_isHour key then 23 else 59.

(** The draft with the hint shown under its time fields ([timeFixHint]);
    the timer that clears the hint after 2.4 s is not modelled. *)
Record TimeForm : Type := {
  formDraft : option DraftMarker.t;
  timeFixHint : string
}.

(** What [splitHHMM] returns. *)
Module HourMinute.
Record t : Type := {
  hour : string;
  minute : string
}.
End HourMinute.

(** Lines 974-978.  [value.split(':')] of a text that passed the test is
    its first two and its last two characters. *)
Definition splitHHMM (value : option string) : HourMinute.t :=
  match value with
  | None => {| HourMinute.hour := ""; HourMinute.minute := "" |}
  | Some text =>
      if negb (JsString.Boolean text) || negb (JsString.test_HHMM text)
      then {| HourMinute.hour := ""; HourMinute.minute := "" |}
      else {| HourMinute.hour := substring 0 2 text;
              HourMinute.minute := substring 3 2 text |}
  end.

(** Lines 980-983. *)
Definition composeHHMM (hour minute : string) : string :=
  if negb (JsString.Boolean hour) || negb (JsString.Boolean minute) then ""%string
  else (hour ++ ":" ++ minute)%string.

(** The time fields that [openEditDraft] gives the draft of a marker
    (lines 2204-2217). *)
Definition openEditDraft_times (openTimeStart openTimeEnd : option string)
  (d : DraftMarker.t) : DraftMarker.t :=
  let startParts := splitHHMM openTimeStart in
  let endParts := splitHHMM openTimeEnd in
  TimePart_set openEndMinute (HourMinute.minute endParts)
    (TimePart_set openEndHour (HourMinute.hour endParts)
       (TimePart_set openStartMinute (HourMinute.minute startParts)
          (TimePart_set openStartHour (HourMinute.hour startParts) d))).

Section TimeFields.

(** [Number(text)] and [text.trim()] are what the JavaScript engine makes
    of them, except that [Number] of one to fifteen decimal digits is the
    integer they write, which a double holds exactly. *)
Variable Number_of_text : string -> number.
Variable trim : string -> string.

Definition Number (text : string) : number :=
  if JsString.allDigits text
     && (1 <=? String.length text)%nat && (String.length text <=? 15)%nat
  then Finite (inject_Z (JsString.decimal 0 text))
  else Number_of_text text.

(** Lines 957-972. *)
Definition isValidHHMM (value : string) : bool :=
  if negb (JsString.test_HHMM value) then false
  else
    let hRaw := substring 0 2 value in
    let mRaw := substring 3 2 value in
    match Number hRaw, Number mRaw with
    | Finite hour, Finite minute =>
        Qle_bool 0 hour && Qle_bool hour 23 && Qle_bool 0 minute && Qle_bool minute 59
    | _, _ => false
    end.

(** Lines 2512-2522. *)
Definition setDraftTimePart (key : TimePart) (value : string) (f : TimeForm)
  : TimeForm :=
  let digits := JsString.slice_from_0 2 (JsString.keepDigits value) in
  {| formDraft :=
       match formDraft f with
       | Some prev => Some (TimePart_set key digits prev)
       | None => None
       end;
     timeFixHint := "" |}.

(** Lines 2524-2549. *)
Definition normalizeDraftTimePartOnBlur (key : TimePart) (f : TimeForm) : TimeForm :=
  match formDraft f with
  | None => f
  | Some prev =>
      let current := TimePart_get key prev in
      if negb (JsString.Boolean current) then f
      else
        match Number current with
        | NotFinite => f
        | Finite parsed =>
            let max := TimePart_max key in
            let unit := if TimePart_isHour key then "小时"%string else "分钟"%string in
            let clamped := Math_max 0 (Math_min max (inject_Z (Qtrunc parsed))) in
            let normalized :=
              JsString.padStart 2 JsString.zero
                (JsString.String_of_integer (Qtrunc clamped)) in
            {| formDraft := Some (TimePart_set key normalized prev);
               timeFixHint :=
                 if Qgt_bool parsed max
                 then (unit ++ "超出范围，已自动修正为 " ++ normalized ++ "。")%string
                 else timeFixHint f |}
        end
  end.

(** [saveDraft] from its call to its first [await] (lines 2551-2624):
    the checks, then the request of [saveDraft_submit]. *)
Definition saveDraft (isLoggedIn : bool) (s : Screen) : Screen :=
  match draft s with
  | None => s
  | Some d =>
      if negb isLoggedIn
      then resetDraftState (showNotice "请先登录后再标点。" s)
      else
        let title := trim (DraftMarker.title d) in
        let hasStartHour := JsString.Boolean (DraftMarker.openStartHour d) in
        let hasStartMinute := JsString.Boolean (DraftMarker.openStartMinute d) in
        let hasEndHour := JsString.Boolean (DraftMarker.openEndHour d) in
        let hasEndMinute := JsString.Boolean (DraftMarker.openEndMinute d) in
        if negb (Bool.eqb hasStartHour hasStartMinute)
        then showNotice "开始时间请同时选择小时和分钟。" s
        else if negb (Bool.eqb hasEndHour hasEndMinute)
        then showNotice "结束时间请同时选择小时和分钟。" s
        else
          let start :=
            composeHHMM (DraftMarker.openStartHour d) (DraftMarker.openStartMinute d) in
          let end_ :=
            composeHHMM (DraftMarker.openEndHour d) (DraftMarker.openEndMinute d) in
          if negb (JsString.Boolean title)
          then showNotice "请填写标题（例如：地铁站 A 口无障碍卫生间）。" s
          else if negb (Bool.eqb (JsString.Boolean start) (JsString.Boolean end_))
          then showNotice "开始和结束时间需同时填写，或都留空。" s
          else if JsString.Boolean start && negb (isValidHHMM start)
          then showNotice "开始时间格式不正确，请使用 HH:MM。" s
          else if JsString.Boolean end_ && negb (isValidHHMM end_)
          then showNotice "结束时间格式不正确，请使用 HH:MM。" s
          else saveDraft_submit d s
  end.

End TimeFields.

(** A reading of [Number] and [trim] for the examples: no other text is a
    number, and the sample titles have no outer blanks. *)
Definition sampleNumber_of_text (_ : string) : number := NotFinite.

Definition sampleTrim (text : string) : string := text.

(** ** The iOS location module (ios/mobile/AppDelegate.swift)

    [NativeLocation] as a state machine: the stored properties of the
    object, the promise blocks being the number of the call they belong to,
    and two logs, of the promises settled and of the calls made to the
    location manager.  Everything runs on the main queue, one event at a
    time. *)

From Stdlib Require Import Permutation.

Module NativeLocationIOS.

Inductive CLAuthorizationStatus : Type :=
| notDetermined
| restricted
| denied
| authorizedAlways
| authorizedWhenInUse
| unknownDefault.

(** A fix, with its age in milliseconds at the moment it is looked at
    ([abs(location.timestamp.timeIntervalSinceNow * 1000)]). *)
Record CLLocation : Type := {
  latitude : Q;
  longitude : Q;
  horizontalAccuracy : Q;
  ageMs : Q
}.

(** The entries of the options dictionary that are numbers. *)
Record Options : Type := {
  timeoutMs : option Z;
  maxAgeMs : option Z
}.

Inductive Settlement : Type :=
| Resolved (location : CLLocation) (provider : string)
| Rejected (code message : string).

Inductive ManagerCall : Type :=
| requestLocation
| requestWhenInUseAuthorization.

Inductive CLErrorCode : Type :=
| locationUnknown
| deniedError
| otherError.

Record t : Type := {
  hasLocationManager : bool;
  blocks : option nat;
  timeoutWorkItem : option Z;
  requestInFlight : bool;
  maxAge : Z;
  settled : list (nat * Settlement);
  managerCalls : list ManagerCall
}.

Definition initial : t :=
  {| hasLocationManager := false; blocks := None; timeoutWorkItem := None;
     requestInFlight := false; maxAge := 60000; settled := []; managerCalls := [] |}.

Definition readInt (options : option Options) (key : Options -> option Z)
  (defaultValue min max : Z) : Z :=
  match options with
  | None => defaultValue
  | Some dictionary =>
      match key dictionary with
      | None => defaultValue
      | Some value => Z.max min (Z.min max value)
      end
  end.

Definition resetRequestState (m : t) : t :=
  {| hasLocationManager := hasLocationManager m; blocks := None;
     timeoutWorkItem := None; requestInFlight := false; maxAge := maxAge m;
     settled := settled m; managerCalls := managerCalls m |}.

(** [resolveBlock?(payload)] and [rejectBlock?(code, message, error)]. *)
Definition callBlock (outcome : Settlement) (m : t) : t :=
  match blocks m with
  | Some call =>
      {| hasLocationManager := hasLocationManager m; blocks := blocks m;
         timeoutWorkItem := timeoutWorkItem m; requestInFlight := requestInFlight m;
         maxAge := maxAge m; settled := settled m ++ [(call, outcome)];
         managerCalls := managerCalls m |}
  | None => m
  end.

Definition finishSuccess (location : CLLocation) (provider : string) (m : t) : t :=
  if negb (requestInFlight m) then m
  else resetRequestState (callBlock (Resolved location provider) m).

Definition finishFailure (code message : string) (m : t) : t :=
  if negb (requestInFlight m) then m
  else resetRequestState (callBlock (Rejected code message) m).

Definition startTimeout (delayMs : Z) (m : t) : t :=
  {| hasLocationManager := hasLocationManager m; blocks := blocks m;
     timeoutWorkItem := Some delayMs; requestInFlight := requestInFlight m;
     maxAge := maxAge m; settled := settled m; managerCalls := managerCalls m |}.

Definition callManager (c : ManagerCall) (m : t) : t :=
  {| hasLocationManager := hasLocationManager m; blocks := blocks m;
     timeoutWorkItem := timeoutWorkItem m; requestInFlight := requestInFlight m;
     maxAge := maxAge m; settled := settled m;
     managerCalls := managerCalls m ++ [c] |}.

Definition isFresh (location : CLLocation) (m : t) : bool :=
  Qle_bool (ageMs location) (inject_Z (maxAge m)).

(** [startRequest]; [call] is the promise of this call, and
    [servicesEnabled], [status] and [managerLocation] are what the system
    answers. *)
Definition startRequest
  (call : nat) (options : option Options)
  (servicesEnabled : bool) (status : CLAuthorizationStatus)
  (managerLocation : option CLLocation) (m : t) : t :=
  if requestInFlight m
  then {| hasLocationManager := hasLocationManager m; blocks := blocks m;
          timeoutWorkItem := timeoutWorkItem m; requestInFlight := requestInFlight m;
          maxAge := maxAge m;
          settled := settled m ++ [(call, Rejected "LOCATION_BUSY" "定位请求进行中。")];
          managerCalls := managerCalls m |}
  else if negb servicesEnabled
  then {| hasLocationManager := hasLocationManager m; blocks := blocks m;
          timeoutWorkItem := timeoutWorkItem m; requestInFlight := requestInFlight m;
          maxAge := maxAge m;
          settled := settled m
                     ++ [(call, Rejected "LOCATION_PROVIDER_DISABLED" "定位服务未开启。")];
          managerCalls := managerCalls m |}
  else
    let delayMs := readInt options timeoutMs 8000 1000 30000 in
    let m1 :=
      {| hasLocationManager := true; blocks := Some call;
         timeoutWorkItem := timeoutWorkItem m; requestInFlight := true;
         maxAge := readInt options maxAgeMs 60000 0 600000;
         settled := settled m; managerCalls := managerCalls m |} in
    match status with
    | authorizedAlways | authorizedWhenInUse =>
        match managerLocation with
        | Some lastKnown =>
            if isFresh lastKnown m1 then finishSuccess lastKnown "last_known" m1
            else callManager requestLocation (startTimeout delayMs m1)
        | None => callManager requestLocation (startTimeout delayMs m1)
        end
    | notDetermined =>
        callManager requestWhenInUseAuthorization (startTimeout delayMs m1)
    | denied | restricted =>
        finishFailure "LOCATION_PERMISSION_DENIED" "定位权限未授予。" m1
    | unknownDefault =>
        finishFailure "LOCATION_INTERNAL_ERROR" "定位状态不可用。" m1
    end.

Definition handleAuthorizationChange
  (status : CLAuthorizationStatus) (managerLocation : option CLLocation) (m : t) : t :=
  match status with
  | authorizedAlways | authorizedWhenInUse =>
      match managerLocation with
      | Some lastKnown =>
          if isFresh lastKnown m then finishSuccess lastKnown "last_known" m
          else callManager requestLocation m
      | None => callManager requestLocation m
      end
  | denied | restricted =>
      finishFailure "LOCATION_PERMISSION_DENIED" "定位权限未授予。" m
  | notDetermined => m
  | unknownDefault => finishFailure "LOCATION_INTERNAL_ERROR" "定位状态不可用。" m
  end.

(** [locations.last(where: { $0.horizontalAccuracy >= 0 }) ?? locations.last] *)
Definition pickLocation (locations : list CLLocation) : option CLLocation :=
  match find (fun l => Qle_bool 0 (horizontalAccuracy l)) (rev locations) with
  | Some l => Some l
  | None => hd_error (rev locations)
  end.

(** What the main queue can run. *)
Inductive Event : Type :=
| GetCurrentPosition (call : nat) (options : option Options)
    (servicesEnabled : bool) (status : CLAuthorizationStatus)
    (managerLocation : option CLLocation)
| TimeoutWorkItem
| DidChangeAuthorization (status : CLAuthorizationStatus)
    (managerLocation : option CLLocation)
| DidUpdateLocations (locations : list CLLocation)
| DidFailWithError (code : CLErrorCode).

(** A work item runs only if it was not cancelled, and the one kept in
    [timeoutWorkItem] is the only one that is not. *)
Definition step (m : t) (e : Event) : t :=
  match e with
  | GetCurrentPosition call options servicesEnabled status managerLocation =>
      startRequest call options servicesEnabled status managerLocation m
  | TimeoutWorkItem =>
      match timeoutWorkItem m with
      | Some _ => finishFailure "LOCATION_TIMEOUT" "定位超时，请稍后重试。" m
      | None => m
      end
  | DidChangeAuthorization status managerLocation =>
      if negb (requestInFlight m) then m
      else handleAuthorizationChange status managerLocation m
  | DidUpdateLocations locations =>
      if negb (requestInFlight m) then m
      else
        match pickLocation locations with
        | None => finishFailure "LOCATION_UNAVAILABLE" "无法获取当前位置。" m
        | Some location => finishSuccess location "core_location" m
        end
  | DidFailWithError code =>
      if negb (requestInFlight m) then m
      else
        match code with
        | locationUnknown => m
        | deniedError => finishFailure "LOCATION_PERMISSION_DENIED" "定位权限未授予。" m
        | otherError => finishFailure "LOCATION_UNAVAILABLE" "无法获取当前位置。" m
        end
  end.

Definition run (events : list Event) : t := fold_left step events initial.

(** The calls of a run, and the calls that a state knows of: those it
    settled and the one whose blocks it holds. *)
Definition calls (events : list Event) : list nat :=
  flat_map (fun e => match e with
                     | GetCurrentPosition call _ _ _ _ => [call]
                     | _ => []
                     end) events.

Definition known (m : t) : list nat :=
  map fst (settled m) ++ match blocks m with Some call => [call] | None => [] end.

(** In flight, holding blocks and waiting for the timeout go together. *)
Definition consistent (m : t) : Prop :=
  match blocks m, timeoutWorkItem m with
  | Some _, Some delayMs => requestInFlight m = true /\ (1000 <= delayMs <= 30000)%Z
  | None, None => requestInFlight m = false
  | _, _ => False
  end.

End NativeLocationIOS.

(** ** The Android location module
    (android/app/src/main/java/com/mobile/NativeLocationModule.kt) *)

Module NativeLocationAndroid.

Inductive Provider : Type :=
| GPS_PROVIDER
| NETWORK_PROVIDER
| PASSIVE_PROVIDER.

Definition providerName (p : Provider) : string :=
  match p with
  | GPS_PROVIDER => "gps"
  | NETWORK_PROVIDER => "network"
  | PASSIVE_PROVIDER => "passive"
  end.

Record Location : Type := {
  latitude : Q;
  longitude : Q;
  accuracy : Q;
  time : Z
}.

(** An entry of the options map: missing or null, an integer as [getInt]
    returns it, or something on which [getInt] throws. *)
Inductive Entry : Type :=
| Missing
| IntValue (value : Z)
| NotAnInt.

Record Options : Type := {
  timeoutMs : Entry;
  maxAgeMs : Entry
}.

(** What the system answers during one call. *)
Record System : Type := {
  locationService : bool;
  fineLocationGranted : bool;
  coarseLocationGranted : bool;
  isProviderEnabled : Provider -> bool;
  getLastKnownLocation : Provider -> option Location;
  currentTimeMillis : Z
}.

Inductive Settlement : Type :=
| Resolved (location : option Location) (provider : string)
| Rejected (code message : string).

(** How [getCurrentPosition] ends: the promise settled at once, or handed
    to [requestSingleLocation]. *)
Inductive Outcome : Type :=
| Settled (how : Settlement)
| RequestSingleLocation (provider : Provider) (timeout : Z).

Definition coerceIn (value min max : Z) : Z :=
  if (value <? min)%Z then min else if (max <? value)%Z then max else value.

Definition readInt (options : option Options) (key : Options -> Entry)
  (defaultValue min max : Z) : Z :=
  match options with
  | None => defaultValue
  | Some map =>
      match key map with
      | Missing => defaultValue
      | IntValue raw => coerceIn raw min max
      | NotAnInt => coerceIn defaultValue min max
      end
  end.

Definition hasLocationPermission (sys : System) : bool :=
  fineLocationGranted sys || coarseLocationGranted sys.

Definition pickProvider (sys : System) : option Provider :=
  if isProviderEnabled sys GPS_PROVIDER then Some GPS_PROVIDER
  else if isProviderEnabled sys NETWORK_PROVIDER then Some NETWORK_PROVIDER
  else if isProviderEnabled sys PASSIVE_PROVIDER then Some PASSIVE_PROVIDER
  else None.

Definition providers : list Provider :=
  [GPS_PROVIDER; NETWORK_PROVIDER; PASSIVE_PROVIDER].

Definition bestLastKnownLocation (sys : System) : option Location :=
  fold_left
    (fun best provider =>
       match getLastKnownLocation sys provider with
       | Some location =>
           match best with
           | None => Some location
           | Some b => if (time b <? time location)%Z then Some location else best
           end
       | None => best
       end)
    providers None.

Definition getCurrentPosition (options : option Options) (sys : System) : Outcome :=
  if negb (locationService sys)
  then Settled (Rejected "LOCATION_SERVICE_UNAVAILABLE" "无法访问定位服务。")
  else if negb (hasLocationPermission sys)
  then Settled (Rejected "LOCATION_PERMISSION_DENIED" "定位权限未授予。")
  else
    let timeout := readInt options timeoutMs 8000 1000 30000 in
    let maxAge := readInt options maxAgeMs 60000 0 600000 in
    match pickProvider sys with
    | None => Settled (Rejected "LOCATION_PROVIDER_DISABLED" "定位服务未开启。")
    | Some provider =>
        let now := currentTimeMillis sys in
        match bestLastKnownLocation sys with
        | Some lastKnown =>
            if (now - time lastKnown <=? maxAge)%Z
            then Settled (Resolved (Some lastKnown) "last_known")
            else RequestSingleLocation provider timeout
        | None => RequestSingleLocation provider timeout
        end
    end.

(** *** [requestSingleLocation]

    The promise of one call with what guards it: the [handled] flag,
    whether [timeoutRunnable] is still posted, and, below API level R,
    whether the listener is registered. *)
Record Request : Type := {
  provider : Provider;
  handled : bool;
  timeoutRunnablePosted : bool;
  listenerRegistered : bool;
  cancelled : bool;
  settled : list Settlement
}.

(** Whether the call that starts the update returns or throws. *)
Inductive Start : Type :=
| Returns
| ThrowsSecurityException
| ThrowsThrowable.

(** [handled.compareAndSet(false, true)] followed, when it succeeds, by a
    settlement of the promise. *)
Definition settleOnce (how : Settlement) (unregister : bool) (r : Request) : Request :=
  if handled r then r
  else {| provider := provider r; handled := true;
          timeoutRunnablePosted := timeoutRunnablePosted r;
          listenerRegistered := if unregister then false else listenerRegistered r;
          cancelled := cancelled r;
          settled := settled r ++ [how] |}.

Definition removeTimeoutRunnable (r : Request) : Request :=
  {| provider := provider r; handled := handled r; timeoutRunnablePosted := false;
     listenerRegistered := listenerRegistered r; cancelled := cancelled r;
     settled := settled r |}.

Definition requestSingleLocation (sdkAtLeastR : bool) (p : Provider) (start : Start)
  : Request :=
  let posted :=
    {| provider := p; handled := false; timeoutRunnablePosted := true;
       listenerRegistered := false; cancelled := false; settled := [] |} in
  match start with
  | Returns =>
      {| provider := p; handled := false; timeoutRunnablePosted := true;
         listenerRegistered := negb sdkAtLeastR; cancelled := false; settled := [] |}
  | ThrowsSecurityException =>
      settleOnce (Rejected "LOCATION_PERMISSION_DENIED" "定位权限未授予。") false
        (removeTimeoutRunnable posted)
  | ThrowsThrowable =>
      settleOnce (Rejected "LOCATION_INTERNAL_ERROR" "原生定位失败。") false
        (removeTimeoutRunnable posted)
  end.

(** What the main looper can run afterwards: the posted runnable, the
    callback of [getCurrentLocation] and the timer that cancels it (from API
    level R), the two listener callbacks and the second timer (below). *)
Inductive Event : Type :=
| TimeoutRunnable
| CurrentLocationCallback (location : option Location)
| CancelTimer
| OnLocationChanged (location : Location)
| OnProviderDisabled (disabledProvider : Provider)
| ListenerTimer.

Definition Provider_eqb (a b : Provider) : bool :=
  match a, b with
  | GPS_PROVIDER, GPS_PROVIDER
  | NETWORK_PROVIDER, NETWORK_PROVIDER
  | PASSIVE_PROVIDER, PASSIVE_PROVIDER => true
  | _, _ => false
  end.

Definition step (r : Request) (e : Event) : Request :=
  match e with
  | TimeoutRunnable =>
      if timeoutRunnablePosted r
      then settleOnce (Rejected "LOCATION_TIMEOUT" "定位超时，请稍后重试。") false
             (removeTimeoutRunnable r)
      else r
  | CurrentLocationCallback location =>
      settleOnce
        match location with
        | None => Rejected "LOCATION_UNAVAILABLE" "无法获取当前位置。"
        | Some _ => Resolved location (providerName (provider r))
        end
        false (removeTimeoutRunnable r)
  | CancelTimer =>
      if handled r then r
      else {| provider := provider r; handled := handled r;
              timeoutRunnablePosted := timeoutRunnablePosted r;
              listenerRegistered := listenerRegistered r; cancelled := true;
              settled := settled r |}
  | OnLocationChanged location =>
      settleOnce (Resolved (Some location) (providerName (provider r))) true
        (removeTimeoutRunnable r)
  | OnProviderDisabled disabledProvider =>
      if negb (Provider_eqb disabledProvider (provider r)) then r
      else settleOnce (Rejected "LOCATION_PROVIDER_DISABLED" "定位服务未开启。") true
             (removeTimeoutRunnable r)
  | ListenerTimer =>
      settleOnce (Rejected "LOCATION_TIMEOUT" "定位超时，请稍后重试。") true r
  end.

Definition run (r : Request) (events : list Event) : Request :=
  fold_left step events r.

(** Handled means settled, exactly once; a request not yet handled still
    has its timeout runnable posted. *)
Definition guarded (r : Request) : Prop :=
  if handled r then List.length (settled r) = 1%nat
  else settled r = [] /\ timeoutRunnablePosted r = true.

End NativeLocationAndroid.

(** ** The radius of the nearby search
    (lines 1418-1420, 2762-2776 and 3500-3534) *)

(** [Math.round]: to the nearest integer, a half upwards. *)
Definition Math_round (x : Q) : Z := Qfloor (x + (1 # 2)).

Record NearbyRadius : Type := {
  nearbyRadius : Q;
  nearbyRadiusInput : string;
  nearbyRadiusError : string
}.

Definition initialNearbyRadius : NearbyRadius :=
  {| nearbyRadius := 1000; nearbyRadiusInput := "1000"; nearbyRadiusError := "" |}.

(** The three chips of the settings sheet. *)
Inductive RadiusChip : Type :=
| chip500
| chip1000
| chip2500.

Definition chipRadius (c : RadiusChip) : Z :=
  match c with
  | chip500 => 500
  | chip1000 => 1000
  | chip2500 => 2500
  end.

Inductive RadiusEvent : Type :=
| RadiusTyped (value : string)
| RadiusApplied
| RadiusChipPressed (c : RadiusChip).

Section NearbyRadiusInput.

Variable Number_of_text : string -> number.
Variable trim : string -> string.

(** Lines 2762-2776; [String(safe)] of the integer [safe]. *)
Definition applyNearbyRadiusInput (st : NearbyRadius) : NearbyRadius :=
  match Number Number_of_text (trim (nearbyRadiusInput st)) with
  | NotFinite =>
      {| nearbyRadius := nearbyRadius st;
         nearbyRadiusInput := nearbyRadiusInput st;
         nearbyRadiusError := "请输入数字（0-10000）" |}
  | Finite parsed =>
      let safe := Math_max 0 (Math_min 10000 (inject_Z (Math_round parsed))) in
      {| nearbyRadius := safe;
         nearbyRadiusInput := JsString.String_of_integer (Qtrunc safe);
         nearbyRadiusError :=
           if negb (Qeq_bool safe parsed) then "范围需在 0-10000m，已自动修正"%string
           else ""%string |}
  end.

Definition radiusStep (st : NearbyRadius) (e : RadiusEvent) : NearbyRadius :=
  match e with
  | RadiusTyped value =>
      {| nearbyRadius := nearbyRadius st; nearbyRadiusInput := value;
         nearbyRadiusError := "" |}
  | RadiusApplied => applyNearbyRadiusInput st
  | RadiusChipPressed c =>
      {| nearbyRadius := inject_Z (chipRadius c);
         nearbyRadiusInput := JsString.String_of_integer (chipRadius c);
         nearbyRadiusError := "" |}
  end.

End NearbyRadiusInput.

(** ** Runtime configuration and URLs (src/config/runtime.ts) *)

Module Runtime.

Import Ascii.

Definition isSlash (c : ascii) : bool := (nat_of_ascii c =? 47)%nat.

(** [value.replace(/\/+$/, '')] *)
Fixpoint trimTrailingSlash (value : string) : string :=
  match value with
  | EmptyString => EmptyString
  | String c rest =>
      match trimTrailingSlash rest with
      | EmptyString => if isSlash c then EmptyString else String c EmptyString
      | trimmed => String c trimmed
      end
  end.

Fixpoint endsWithSlash (value : string) : bool :=
  match value with
  | EmptyString => false
  | String c EmptyString => isSlash c
  | String _ rest => endsWithSlash rest
  end.

(** [value.startsWith(prefix)] *)
Fixpoint startsWith (prefix value : string) : bool :=
  match prefix, value with
  | EmptyString, _ => true
  | String p prefix', String v value' =>
      (nat_of_ascii p =? nat_of_ascii v)%nat && startsWith prefix' value'
  | String _ _, EmptyString => false
  end.

(** The letter [A-Z] in lower case, any other character as it is. *)
Definition lower (c : ascii) : nat :=
  let n := nat_of_ascii c in
  if (65 <=? n)%nat && (n <=? 90)%nat then (n + 32)%nat else n.

(** A prefix test that ignores the case of ASCII letters, as the flag [i]
    of a regular expression does for a pattern of ASCII letters. *)
Fixpoint startsWith_i (prefix value : string) : bool :=
  match prefix, value with
  | EmptyString, _ => true
  | String p prefix', String v value' =>
      (lower p =? lower v)%nat && startsWith_i prefix' value'
  | String _ _, EmptyString => false
  end.

Definition defaultDevBaseUrl : string := "http://10.0.2.2:8080".

Definition defaultProdBaseUrl : string := "https://api.lycoris.online".

(** [/^(https?:)?\/\//i.test(value) || value.startsWith('data:') ||
    value.startsWith('blob:')] *)
Definition isAbsoluteUrl (value : string) : bool :=
  (startsWith_i "//" value || startsWith_i "http://" value
   || startsWith_i "https://" value)
  || startsWith "data:" value
  || startsWith "blob:" value.

Section Configured.

Variable trim : string -> string.

(** The configuration read when the module is loaded: the two places an
    override can come from, and [__DEV__]. *)
Variable runtimeGlobal nativeConfig : option string.
Variable DEV : bool.

Fixpoint pickConfigValue (candidates : list (option string)) : string :=
  match candidates with
  | [] => ""
  | Some value :: rest =>
      let trimmed := trim value in
      if (0 <? String.length trimmed)%nat then trimmed else pickConfigValue rest
  | None :: rest => pickConfigValue rest
  end.

Definition apiBaseOverride : string :=
  pickConfigValue [runtimeGlobal; nativeConfig].

Definition API_BASE_URL : string :=
  trimTrailingSlash
    (if JsString.Boolean apiBaseOverride then apiBaseOverride
     else if DEV then defaultDevBaseUrl else defaultProdBaseUrl).

Definition buildApiUrl (path : string) : string :=
  let normalizedPath := if startsWith "/" path then path else ("/" ++ path)%string in
  (API_BASE_URL ++ normalizedPath)%string.

Definition toBackendAssetUrl (value : option string) : option string :=
  match value with
  | None => None
  | Some text =>
      if negb (JsString.Boolean text) then None
      else if isAbsoluteUrl text then Some text
      else if negb (JsString.Boolean API_BASE_URL) then Some text
      else if startsWith "/" text then Some (API_BASE_URL ++ text)%string
      else Some (API_BASE_URL ++ "/" ++ text)%string
  end.

End Configured.

End Runtime.

(** ** Picking an image to upload (src/lib/imageUpload.ts)

    The texts of the errors and hints are left out: an error is its case,
    a hint says whether the size is known. *)

Module ImageUpload.

Import Ascii.

Definition MAX_UPLOAD_IMAGE_BYTES : Q := 5 * 1024 * 1024.

(** [text.toLowerCase()], as far as a comparison with a text of ASCII
    letters can tell. *)
Fixpoint toLowerCase (text : string) : string :=
  match text with
  | EmptyString => EmptyString
  | String c rest => String (ascii_of_nat (Runtime.lower c)) (toLowerCase rest)
  end.

Definition extFromMime (mime : string) : string :=
  let normalized := toLowerCase mime in
  if String.eqb normalized "image/jpeg" || String.eqb normalized "image/jpg" then "jpg"
  else if String.eqb normalized "image/png" then "png"
  else if String.eqb normalized "image/webp" then "webp"
  else if String.eqb normalized "image/heic" then "heic"
  else if String.eqb normalized "image/heif" then "heif"
  else "jpg".

(** [[a-z0-9]] under the flag [i]. *)
Definition isAlnum (c : ascii) : bool :=
  let n := Runtime.lower c in
  ((48 <=? nat_of_ascii c)%nat && (nat_of_ascii c <=? 57)%nat)
  || ((97 <=? n)%nat && (n <=? 122)%nat).

Fixpoint allAlnum (text : string) : bool :=
  match text with
  | EmptyString => true
  | String c rest => isAlnum c && allAlnum rest
  end.

(** [/\.[a-z0-9]+$/i.test(text)] *)
Fixpoint hasExt (text : string) : bool :=
  match text with
  | EmptyString => false
  | String c rest =>
      ((nat_of_ascii c =? 46)%nat && JsString.Boolean rest && allAlnum rest)
      || hasExt rest
  end.

(** A pattern of ASCII letters found anywhere in the text, and at its end,
    ignoring case. *)
Fixpoint contains_i (pattern text : string) : bool :=
  Runtime.startsWith_i pattern text
  || match text with
     | EmptyString => false
     | String _ rest => contains_i pattern rest
     end.

Fixpoint endsWith_i (suffix text : string) : bool :=
  (Runtime.startsWith_i suffix text && (String.length text =? String.length suffix)%nat)
  || match text with
     | EmptyString => false
     | String _ rest => endsWith_i suffix rest
     end.

(** [/image\/hei(c|f)/i.test(file.type) || /\.(heic|heif)$/i.test(file.name)] *)
Definition looksLikeHeic (file : LocalUploadImage.t) : bool :=
  (contains_i "image/heic" (LocalUploadImage.type file)
   || contains_i "image/heif" (LocalUploadImage.type file))
  || (endsWith_i ".heic" (LocalUploadImage.name file)
      || endsWith_i ".heif" (LocalUploadImage.name file)).

(** An asset of the picker; a property that is missing or has not the
    type the code asks for is [None]. *)
Record Asset : Type := {
  uri : option string;
  fileName : option string;
  type : option string;
  fileSize : option number
}.

Definition emptyAsset : Asset :=
  {| uri := None; fileName := None; type := None; fileSize := None |}.

Inductive Mode : Type :=
| avatar
| marker.

Definition modeName (m : Mode) : string :=
  match m with
  | avatar => "avatar"
  | marker => "marker"
  end.

(** What [launchImageLibrary] gives. *)
Inductive PickerResult : Type :=
| PickerThrows
| PickerReturns (didCancel : bool) (errorCode : bool) (asset : option Asset).

Inductive PickError : Type :=
| pickerFailed
| noValidImage
| tooLarge (size : Q)
| stillHeic
| processingFailed.

Inductive PickUploadImageResult : Type :=
| Cancelled
| Failed (error : PickError)
| Picked (file : LocalUploadImage.t) (sizeKnown : bool).

Section Picking.

Variable trim : string -> string.

(** The text of [Date.now()] at the call. *)
Variable now : string.

Definition normalizeUploadImage (asset : Asset) (fallbackPrefix : string)
  : option LocalUploadImage.t :=
  let uri := match uri asset with Some text => text | None => ""%string end in
  if negb (JsString.Boolean uri) then None
  else
    let type :=
      match type asset with
      | Some text => if Runtime.startsWith "image/" text then text else "image/jpeg"%string
      | None => "image/jpeg"%string
      end in
    let ext := extFromMime type in
    let safeNameRaw :=
      match fileName asset with
      | Some text =>
          if JsString.Boolean (trim text) then trim text
          else (fallbackPrefix ++ "-" ++ now ++ "." ++ ext)%string
      | None => (fallbackPrefix ++ "-" ++ now ++ "." ++ ext)%string
      end in
    let name := if hasExt safeNameRaw then safeNameRaw
                else (safeNameRaw ++ "." ++ ext)%string in
    let size :=
      match fileSize asset with
      | Some (Finite bytes) => Math_max 0 (inject_Z (Qfloor bytes))
      | _ => 0
      end in
    Some {| LocalUploadImage.uri := uri; LocalUploadImage.name := name;
            LocalUploadImage.type := type; LocalUploadImage.size := size |}.

Definition pickUploadImage (mode : Mode) (result : PickerResult)
  : PickUploadImageResult :=
  match result with
  | PickerThrows => Failed processingFailed
  | PickerReturns didCancel errorCode asset =>
      if didCancel then Cancelled
      else if errorCode then Failed pickerFailed
      else
        match normalizeUploadImage
                (match asset with Some a => a | None => emptyAsset end)
                (modeName mode) with
        | None => Failed noValidImage
        | Some normalized =>
            if Qgt_bool (LocalUploadImage.size normalized) MAX_UPLOAD_IMAGE_BYTES
            then Failed (tooLarge (LocalUploadImage.size normalized))
            else if match mode with avatar => looksLikeHeic normalized | marker => false end
            then Failed stillHeic
            else Picked normalized (Qgt_bool (LocalUploadImage.size normalized) 0)
        end
  end.

End Picking.

End ImageUpload.

(** * Properties *)

(** ** Exact arithmetic of [%], [Math.min] and [Math.max] *)

Lemma Qtrunc_nonneg (x : Q) :
  0 <= x -> inject_Z (Qtrunc x) <= x /\ x < inject_Z (Qtrunc x) + 1.
Proof.
  intros H. unfold Qtrunc. apply Qle_bool_iff in H. rewrite H.
  split; [apply Qfloor_le|].
  rewrite <- (inject_Z_plus _ 1). apply Qlt_floor.
Qed.

Lemma Qtrunc_neg (x : Q) :
  x < 0 -> x <= inject_Z (Qtrunc x) /\ inject_Z (Qtrunc x) - 1 < x.
Proof.
  intros H. unfold Qtrunc.
  destruct (Qle_bool 0 x) eqn:E; [apply Qle_bool_iff in E; lra|].
  split; [apply Qle_ceiling|].
  assert (Hm : inject_Z (Qceiling x - 1) == inject_Z (Qceiling x) - 1)
    by (unfold Z.sub; rewrite inject_Z_plus; reflexivity).
  rewrite <- Hm. apply Qceiling_lt.
Qed.

Lemma Qtrunc_unique (x : Q) (k : Z) :
  0 <= x -> inject_Z k <= x -> x < inject_Z k + 1 -> Qtrunc x = k.
Proof.
  intros H0 Hl Hu. destruct (Qtrunc_nonneg x H0) as [L U].
  assert (A : inject_Z (Qtrunc x) < inject_Z (k + 1))
    by (rewrite inject_Z_plus; change (inject_Z 1) with 1; lra).
  assert (B : inject_Z k < inject_Z (Qtrunc x + 1))
    by (rewrite inject_Z_plus; change (inject_Z 1) with 1; lra).
  rewrite <- Zlt_Qlt in A, B. lia.
Qed.

Lemma Qdiv_mult_back (a b : Q) : 0 < b -> b * (a / b) == a.
Proof. intros Hb. field. lra. Qed.

Lemma js_rem_nonneg (a b : Q) :
  0 < b -> 0 <= a -> 0 <= js_rem a b /\ js_rem a b < b.
Proof.
  intros Hb Ha. unfold js_rem.
  assert (H0 : 0 <= a / b) by (apply Qle_shift_div_l; lra).
  destruct (Qtrunc_nonneg _ H0) as [L U].
  pose proof (Qdiv_mult_back a b Hb) as E.
  set (t := inject_Z (Qtrunc (a / b))) in *. set (d := a / b) in *.
  split; nra.
Qed.

Lemma js_rem_neg (a b : Q) :
  0 < b -> a < 0 -> - b < js_rem a b /\ js_rem a b <= 0.
Proof.
  intros Hb Ha. unfold js_rem.
  assert (H0 : a / b < 0) by (apply Qlt_shift_div_r; lra).
  destruct (Qtrunc_neg _ H0) as [L U].
  pose proof (Qdiv_mult_back a b Hb) as E.
  set (t := inject_Z (Qtrunc (a / b))) in *. set (d := a / b) in *.
  split; nra.
Qed.

Lemma js_rem_bounds (a b : Q) : 0 < b -> - b < js_rem a b /\ js_rem a b < b.
Proof.
  intros Hb. destruct (Qlt_le_dec a 0) as [Ha|Ha].
  - destruct (js_rem_neg a b Hb Ha). lra.
  - destruct (js_rem_nonneg a b Hb Ha). lra.
Qed.

(** A dividend already in [[0, b)] is its own remainder. *)
Lemma js_rem_small (a b : Q) : 0 <= a -> a < b -> js_rem a b == a.
Proof.
  intros Ha Hb. unfold js_rem.
  assert (Hpos : 0 < b) by lra.
  pose proof (Qdiv_mult_back a b Hpos) as E.
  assert (H0 : 0 <= a / b) by (apply Qle_shift_div_l; lra).
  assert (H1 : a / b < 1) by (apply Qlt_shift_div_r; lra).
  rewrite (Qtrunc_unique (a / b) 0 H0); change (inject_Z 0) with 0; lra.
Qed.

(** A dividend in [[b, 2b)] loses one [b]. *)
Lemma js_rem_once (a b : Q) : b <= a -> a < 2 * b -> js_rem a b == a - b.
Proof.
  intros Ha Hb. unfold js_rem.
  assert (Hpos : 0 < b) by lra.
  pose proof (Qdiv_mult_back a b Hpos) as E.
  assert (H1 : 1 <= a / b) by (apply Qle_shift_div_l; lra).
  assert (H2 : a / b < 2) by (apply Qlt_shift_div_r; lra).
  rewrite (Qtrunc_unique (a / b) 1); change (inject_Z 1) with 1; lra.
Qed.

Lemma Math_min_spec (a b : Q) :
  (a <= b /\ Math_min a b = a) \/ (b < a /\ Math_min a b = b).
Proof.
  unfold Math_min. destruct (Qle_bool a b) eqn:E.
  - left. apply Qle_bool_iff in E. auto.
  - right. split; [|reflexivity].
    apply Qnot_le_lt. intros H. apply Qle_bool_iff in H. congruence.
Qed.

Lemma Math_max_spec (a b : Q) :
  (a <= b /\ Math_max a b = b) \/ (b < a /\ Math_max a b = a).
Proof.
  unfold Math_max. destruct (Qle_bool a b) eqn:E.
  - left. apply Qle_bool_iff in E. auto.
  - right. split; [|reflexivity].
    apply Qnot_le_lt. intros H. apply Qle_bool_iff in H. congruence.
Qed.

(** [Math.max(lo, Math.min(hi, v))] lies between its bounds. *)
Lemma clamp_range (lo hi v : Q) :
  lo <= hi -> lo <= Math_max lo (Math_min hi v) /\ Math_max lo (Math_min hi v) <= hi.
Proof.
  intros H.
  destruct (Math_min_spec hi v) as [[? ->]|[? ->]];
    [destruct (Math_max_spec lo hi) as [[? ->]|[? ->]]
    |destruct (Math_max_spec lo v) as [[? ->]|[? ->]]]; lra.
Qed.

(** It leaves a value between the bounds as it is. *)
Lemma clamp_inside (lo hi v : Q) :
  lo <= v -> v <= hi -> Math_max lo (Math_min hi v) == v.
Proof.
  intros H1 H2.
  destruct (Math_min_spec hi v) as [[? ->]|[? ->]];
    [destruct (Math_max_spec lo hi) as [[? ->]|[? ->]]
    |destruct (Math_max_spec lo v) as [[? ->]|[? ->]]]; lra.
Qed.

Lemma clampLat_range (v : Q) : -90 <= clampLat v /\ clampLat v <= 90.
Proof. apply clamp_range. lra. Qed.

(** ** Rounding to binary64 *)

Lemma pow2_pos (e : Z) : 0 < pow2 e.
Proof. apply Qpower_0_lt. reflexivity. Qed.

Lemma pow2_add (a b : Z) : pow2 (a + b) == pow2 a * pow2 b.
Proof. apply Qpower_plus. discriminate. Qed.

Lemma pow2_le (a b : Z) : (a <= b)%Z -> pow2 a <= pow2 b.
Proof. intros H. apply Qpower_le_compat_l; [exact H|discriminate]. Qed.

Lemma pow2_lt (a b : Z) : (a < b)%Z -> pow2 a < pow2 b.
Proof. intros H. apply Qpower_lt_compat_l; [exact H|reflexivity]. Qed.

Lemma pow2_Z (n : Z) : (0 <= n)%Z -> pow2 n == inject_Z (2 ^ n).
Proof. intros H. symmetry. apply (Zpower_Qpower 2 n H). Qed.

Lemma pow2_cancel (e : Z) : pow2 e * pow2 (- e) == 1.
Proof. rewrite <- pow2_add, Z.add_opp_diag_r. reflexivity. Qed.

Lemma pow2_succ (e : Z) : pow2 (e + 1) == 2 * pow2 e.
Proof. rewrite pow2_add. change (pow2 1) with 2. ring. Qed.

Lemma pow2_pred (e : Z) : pow2 (e - 1) == pow2 e * (1 # 2).
Proof.
  assert (H : pow2 e == pow2 (e - 1 + 1)) by (now replace (e - 1 + 1)%Z with e by lia).
  rewrite pow2_succ in H. lra.
Qed.

(** *** The integer logarithm *)

Lemma ilog2_spec (x : Q) :
  0 < x -> pow2 (ilog2 x) <= x /\ x < pow2 (ilog2 x + 1).
Proof.
  intros Hx. destruct x as [n d].
  assert (Hn : (0 < n)%Z) by (unfold Qlt in Hx; simpl in Hx; lia).
  unfold ilog2. cbn [Qnum Qden].
  set (a := Z.log2 n). set (b := Z.log2 (Z.pos d)).
  destruct (Z.log2_spec n Hn) as [A1 A2].
  destruct (Z.log2_spec (Z.pos d) ltac:(lia)) as [B1 B2].
  fold a in A1, A2. fold b in B1, B2.
  assert (a0 : (0 <= a)%Z) by apply Z.log2_nonneg.
  assert (b0 : (0 <= b)%Z) by apply Z.log2_nonneg.
  rewrite Zle_Qle in A1, B1. rewrite Zlt_Qlt in A2, B2.
  rewrite <- pow2_Z in A1, B1 by lia.
  rewrite <- pow2_Z in A2, B2 by lia.
  unfold Z.succ in A2, B2. rewrite pow2_succ in A2, B2.
  assert (E : (n # d) * inject_Z (Z.pos d) == inject_Z n).
  { unfold Qeq, Qmult, inject_Z. simpl. rewrite Pos.mul_1_r. ring. }
  assert (K : pow2 a == pow2 (a - b) * pow2 b)
    by (rewrite <- pow2_add; now replace (a - b + b)%Z with a by lia).
  pose proof (pow2_pos (a - b)) as Pk. pose proof (pow2_pos b) as Pb.
  set (X := n # d) in *. set (D := inject_Z (Z.pos d)) in *.
  set (Nn := inject_Z n) in *. set (Kp := pow2 (a - b)) in *. set (P := pow2 b) in *.
  assert (U : X < 2 * Kp) by nra.
  assert (L : Kp * (1 # 2) < X) by nra.
  destruct (Qle_bool Kp X) eqn:C.
  - apply Qle_bool_iff in C. split; [exact C|]. rewrite pow2_succ. exact U.
  - assert (C' : X < Kp).
    { apply Qnot_le_lt. intros H. apply Qle_bool_iff in H. congruence. }
    split.
    + rewrite pow2_pred. fold Kp. lra.
    + replace (a - b - 1 + 1)%Z with (a - b)%Z by lia. exact C'.
Qed.

Lemma ilog2_unique (x : Q) (k : Z) :
  pow2 k <= x -> x < pow2 (k + 1) -> ilog2 x = k.
Proof.
  intros L U.
  assert (Hx : 0 < x) by (pose proof (pow2_pos k); lra).
  destruct (ilog2_spec x Hx) as [L' U'].
  destruct (Z_lt_le_dec (ilog2 x) k) as [A|A].
  - pose proof (pow2_le (ilog2 x + 1) k ltac:(lia)). lra.
  - destruct (Z_lt_le_dec k (ilog2 x)) as [B|B]; [|lia].
    pose proof (pow2_le (k + 1) (ilog2 x) ltac:(lia)). lra.
Qed.

Lemma ilog2_mono (x y : Q) : 0 < x -> x <= y -> (ilog2 x <= ilog2 y)%Z.
Proof.
  intros Hx H. destruct (ilog2_spec x Hx) as [Lx Ux].
  destruct (ilog2_spec y ltac:(lra)) as [Ly Uy].
  destruct (Z_lt_le_dec (ilog2 y) (ilog2 x)) as [A|A]; [|exact A].
  pose proof (pow2_le (ilog2 y + 1) (ilog2 x) ltac:(lia)). lra.
Qed.

(** *** Rounding to the nearest integer *)

Lemma rne_cases (t : Q) :
  let f := Qfloor t in
  let r := t - inject_Z f in
  0 <= r /\ r < 1 /\
  ((r < 1 # 2 /\ rne t = f) \/
   ((1 # 2) < r /\ rne t = (f + 1)%Z) \/
   (r == 1 # 2 /\ rne t = (if Z.even f then f else f + 1)%Z)).
Proof.
  cbv zeta. pose proof (Qfloor_le t) as L. pose proof (Qlt_floor t) as U.
  rewrite inject_Z_plus in U. change (inject_Z 1) with 1 in U.
  split; [lra|]. split; [lra|]. unfold rne.
  destruct (Qcompare (t - inject_Z (Qfloor t)) (1 # 2)) eqn:C.
  - right. right. apply Qeq_alt in C. auto.
  - left. apply Qlt_alt in C. auto.
  - right. left. apply Qgt_alt in C. auto.
Qed.

Lemma rne_error (t : Q) :
  inject_Z (rne t) - (1 # 2) <= t /\ t <= inject_Z (rne t) + (1 # 2).
Proof.
  destruct (rne_cases t) as (R0 & R1 & [[C ->]|[[C ->]|[C ->]]]).
  - lra.
  - rewrite inject_Z_plus. change (inject_Z 1) with 1. lra.
  - destruct (Z.even (Qfloor t));
      [|rewrite inject_Z_plus; change (inject_Z 1) with 1]; lra.
Qed.

Lemma rne_mono (t u : Q) : t <= u -> (rne t <= rne u)%Z.
Proof.
  intros H.
  assert (F : (Qfloor t <= Qfloor u)%Z) by (apply Qfloor_resp_le; exact H).
  destruct (rne_cases t) as (T0 & T1 & Ct). destruct (rne_cases u) as (U0 & U1 & Cu).
  assert (Lt' : (Qfloor t <= rne t <= Qfloor t + 1)%Z).
  { destruct Ct as [[_ ->]|[[_ ->]|[_ ->]]]; try lia.
    destruct (Z.even (Qfloor t)); lia. }
  assert (Lu' : (Qfloor u <= rne u <= Qfloor u + 1)%Z).
  { destruct Cu as [[_ ->]|[[_ ->]|[_ ->]]]; try lia.
    destruct (Z.even (Qfloor u)); lia. }
  destruct (Z.eq_dec (Qfloor t) (Qfloor u)) as [E|N]; [|lia].
  rewrite E in *.
  destruct Ct as [[Ct ->]|[[Ct ->]|[Ct ->]]];
    destruct Cu as [[Cu ->]|[[Cu ->]|[Cu ->]]];
    try lia; try (exfalso; lra); destruct (Z.even (Qfloor u)); lia.
Qed.

Lemma rne_Z (z : Z) : rne (inject_Z z) = z.
Proof.
  destruct (rne_cases (inject_Z z)) as (_ & _ & C).
  rewrite Qfloor_Z in C.
  destruct C as [[_ ->]|[[C _]|[C _]]]; [reflexivity| |]; exfalso; lra.
Qed.

Lemma rne_eq (t : Q) (z : Z) : t == inject_Z z -> rne t = z.
Proof.
  intros H. rewrite <- (rne_Z z). apply Z.le_antisymm; apply rne_mono; lra.
Qed.

(** *** Rounding to a grid of step [pow2 e] *)

Lemma onGrid_mono (e : Z) (x y : Q) : x <= y -> onGrid e x <= onGrid e y.
Proof.
  intros H. unfold onGrid. pose proof (pow2_pos e) as P. pose proof (pow2_pos (- e)) as P'.
  assert (S : x * pow2 (- e) <= y * pow2 (- e)) by nra.
  apply rne_mono in S. rewrite Zle_Qle in S. nra.
Qed.

Lemma onGrid_fix (e : Z) (m : Z) (x : Q) :
  x == inject_Z m * pow2 e -> onGrid e x == x.
Proof.
  intros H. unfold onGrid.
  assert (S : x * pow2 (- e) == inject_Z m).
  { rewrite H. rewrite <- Qmult_assoc, pow2_cancel. ring. }
  rewrite (rne_eq _ _ S). symmetry. exact H.
Qed.

Lemma onGrid_error (e : Z) (x : Q) :
  onGrid e x - pow2 (e - 1) <= x /\ x <= onGrid e x + pow2 (e - 1).
Proof.
  unfold onGrid. pose proof (pow2_pos e) as P.
  destruct (rne_error (x * pow2 (- e))) as [L U].
  set (n := inject_Z (rne (x * pow2 (- e)))) in *.
  assert (X : x == x * pow2 (- e) * pow2 e).
  { rewrite <- Qmult_assoc, (Qmult_comm (pow2 (- e))), pow2_cancel. ring. }
  rewrite pow2_pred. set (s := x * pow2 (- e)) in *. nra.
Qed.

Lemma onGrid_coarser (e e' : Z) (x : Q) :
  (e' <= e)%Z -> exists N, onGrid e x == inject_Z N * pow2 e'.
Proof.
  intros H. unfold onGrid.
  exists (rne (x * pow2 (- e)) * 2 ^ (e - e'))%Z.
  rewrite inject_Z_mult, <- pow2_Z by lia.
  rewrite <- Qmult_assoc, <- pow2_add. now replace (e - e' + e')%Z with e by lia.
Qed.

(** *** The nearest double *)

Lemma fl_pos_onGrid (x : Q) : fl_pos x == onGrid (exponent x) x.
Proof. unfold fl_pos. apply Qred_correct. Qed.

Lemma exponent_mono (x y : Q) : 0 < x -> x <= y -> (exponent x <= exponent y)%Z.
Proof. intros Hx H. unfold exponent. pose proof (ilog2_mono x y Hx H). lia. Qed.

(** A positive number lies at or above the boundary [pow2 (exponent + 52)]
    unless its exponent is the least one. *)
Lemma exponent_boundary (y : Q) :
  0 < y -> (-1074 < exponent y)%Z -> pow2 (exponent y + 52) <= y.
Proof.
  intros Hy H. unfold exponent in *. destruct (ilog2_spec y Hy) as [L _].
  replace (Z.max (ilog2 y - 52) (-1074) + 52)%Z with (ilog2 y) by lia. exact L.
Qed.

Lemma exponent_below (x : Q) : 0 < x -> x < pow2 (exponent x + 53).
Proof.
  intros Hx. unfold exponent. destruct (ilog2_spec x Hx) as [_ U].
  pose proof (pow2_le (ilog2 x + 1) (Z.max (ilog2 x - 52) (-1074) + 53) ltac:(lia)).
  lra.
Qed.

Lemma fl_pos_mono (x y : Q) : 0 < x -> x <= y -> fl_pos x <= fl_pos y.
Proof.
  intros Hx H. rewrite !fl_pos_onGrid.
  pose proof (exponent_mono x y Hx H) as E.
  assert (M : (-1074 <= exponent x)%Z) by (unfold exponent; lia).
  destruct (Z.eq_dec (exponent x) (exponent y)) as [Same|N].
  - rewrite Same. apply onGrid_mono. exact H.
  - set (B := pow2 (exponent y + 52)).
    assert (By : B <= y) by (apply exponent_boundary; [lra|lia]).
    assert (Bx : x <= B).
    { pose proof (exponent_below x Hx).
      pose proof (pow2_le (exponent x + 53) (exponent y + 52) ltac:(lia)).
      unfold B. lra. }
    assert (Gy : onGrid (exponent y) B == B).
    { apply (onGrid_fix _ (2 ^ 52)). unfold B.
      rewrite <- pow2_Z by lia. rewrite <- pow2_add. now rewrite Z.add_comm. }
    assert (Gx : onGrid (exponent x) B == B).
    { apply (onGrid_fix _ (2 ^ (exponent y + 52 - exponent x))). unfold B.
      rewrite <- pow2_Z by lia. rewrite <- pow2_add.
      now replace (exponent y + 52 - exponent x + exponent x)%Z
        with (exponent y + 52)%Z by lia. }
    pose proof (onGrid_mono (exponent x) x B Bx).
    pose proof (onGrid_mono (exponent y) B y By). lra.
Qed.

Lemma fl_pos_nonneg (x : Q) : 0 < x -> 0 <= fl_pos x.
Proof.
  intros Hx. rewrite fl_pos_onGrid.
  assert (Z0 : onGrid (exponent x) 0 == 0) by (apply (onGrid_fix _ 0); ring).
  pose proof (onGrid_mono (exponent x) 0 x ltac:(lra)). lra.
Qed.

Lemma Qnum_sign (x : Q) :
  match Qnum x with
  | Z0 => x == 0
  | Zpos _ => 0 < x
  | Zneg _ => x < 0
  end.
Proof.
  destruct x as [[|p|p] d]; unfold Qeq, Qlt; simpl; lia.
Qed.

Lemma fl_pos_case (x : Q) : 0 < x -> fl x = fl_pos x.
Proof.
  intros H. unfold fl. pose proof (Qnum_sign x) as S.
  destruct (Qnum x); [lra|reflexivity|lra].
Qed.

Lemma fl_neg_case (x : Q) : x < 0 -> fl x = - fl_pos (- x).
Proof.
  intros H. unfold fl. pose proof (Qnum_sign x) as S.
  destruct (Qnum x); [lra|lra|reflexivity].
Qed.

Lemma fl_zero_case (x : Q) : x == 0 -> fl x = 0.
Proof.
  intros H. unfold fl. pose proof (Qnum_sign x) as S.
  destruct (Qnum x); [reflexivity|lra|lra].
Qed.

(** Rounding keeps the order. *)
Lemma fl_mono (x y : Q) : x <= y -> fl x <= fl y.
Proof.
  intros H.
  destruct (Q_dec x 0) as [[Nx|Px]|Zx], (Q_dec y 0) as [[Ny|Py]|Zy];
    rewrite ?(fl_neg_case x) by assumption; rewrite ?(fl_pos_case x) by assumption;
    rewrite ?(fl_zero_case x) by assumption;
    rewrite ?(fl_neg_case y) by assumption; rewrite ?(fl_pos_case y) by assumption;
    rewrite ?(fl_zero_case y) by assumption; try lra.
  - pose proof (fl_pos_mono (- y) (- x) ltac:(lra) ltac:(lra)). lra.
  - pose proof (fl_pos_nonneg (- x) ltac:(lra)). pose proof (fl_pos_nonneg y Py). lra.
  - pose proof (fl_pos_nonneg (- x) ltac:(lra)). lra.
  - apply fl_pos_mono; assumption.
  - pose proof (fl_pos_nonneg y Py). lra.
Qed.

Lemma fl_eq (x y : Q) : x == y -> fl x == fl y.
Proof. intros H. apply Qle_antisym; apply fl_mono; lra. Qed.

(** The rounding error of a number below [pow2 K] in size. *)
Lemma fl_pos_error (x : Q) (K : Z) :
  0 < x -> x < pow2 K -> (-1021 <= K)%Z ->
  fl_pos x - pow2 (K - 54) <= x /\ x <= fl_pos x + pow2 (K - 54).
Proof.
  intros Hx H HK. rewrite fl_pos_onGrid.
  destruct (onGrid_error (exponent x) x) as [L U].
  assert (E : (exponent x - 1 <= K - 54)%Z).
  { unfold exponent. destruct (ilog2_spec x Hx) as [A _].
    destruct (Z_lt_le_dec (ilog2 x) K) as [B|B]; [lia|].
    pose proof (pow2_le K (ilog2 x) B). lra. }
  pose proof (pow2_le _ _ E). lra.
Qed.

Lemma fl_error (x : Q) (K : Z) :
  Qabs x < pow2 K -> (-1021 <= K)%Z -> Qabs (fl x - x) <= pow2 (K - 54).
Proof.
  intros H HK. pose proof (pow2_pos (K - 54)) as P.
  destruct (Q_dec x 0) as [[Nx|Px]|Zx].
  - rewrite (fl_neg_case x Nx).
    rewrite Qabs_neg in H by lra.
    destruct (fl_pos_error (- x) K ltac:(lra) H HK) as [L U].
    apply Qabs_Qle_condition. lra.
  - rewrite (fl_pos_case x Px).
    rewrite Qabs_pos in H by lra.
    destruct (fl_pos_error x K Px H HK) as [L U].
    apply Qabs_Qle_condition. lra.
  - rewrite (fl_zero_case x Zx). apply Qabs_Qle_condition. lra.
Qed.

(** A positive number between [pow2 k] and [pow2 (k + 1)] rounds to a
    multiple of [pow2 (k - 52)]. *)
Lemma fl_grid (x : Q) (k k' : Z) :
  pow2 k <= x -> (k' <= k - 52)%Z ->
  exists N, fl x == inject_Z N * pow2 k'.
Proof.
  intros L H.
  assert (Hx : 0 < x) by (pose proof (pow2_pos k); lra).
  rewrite (fl_pos_case x Hx).
  assert (E : (k' <= exponent x)%Z).
  { unfold exponent. destruct (ilog2_spec x Hx) as [_ U].
    destruct (Z_lt_le_dec (ilog2 x) k) as [B|B]; [|lia].
    pose proof (pow2_le (ilog2 x + 1) k ltac:(lia)). lra. }
  destruct (onGrid_coarser (exponent x) k' x E) as [N G].
  exists N. rewrite fl_pos_onGrid. exact G.
Qed.



(** A multiple of [pow2 e] of size below [pow2 (e + 53)] is a double. *)
Lemma fl_pos_exact (x : Q) (N e : Z) :
  0 < x -> x == inject_Z N * pow2 e -> x < pow2 (e + 53) -> (-1074 <= e)%Z ->
  fl_pos x == x.
Proof.
  intros Hx G B He. rewrite fl_pos_onGrid.
  assert (E : (exponent x <= e)%Z).
  { unfold exponent. destruct (ilog2_spec x Hx) as [A _].
    destruct (Z_lt_le_dec (ilog2 x) (e + 53)) as [C|C]; [lia|].
    pose proof (pow2_le (e + 53) (ilog2 x) C). lra. }
  apply (onGrid_fix _ (N * 2 ^ (e - exponent x))).
  rewrite inject_Z_mult, <- pow2_Z by lia.
  rewrite <- Qmult_assoc, <- pow2_add.
  now replace (e - exponent x + exponent x)%Z with e by lia.
Qed.

Lemma fl_exact (x : Q) (N e : Z) :
  x == inject_Z N * pow2 e -> Qabs x < pow2 (e + 53) -> (-1074 <= e)%Z ->
  fl x == x.
Proof.
  intros G B He.
  destruct (Q_dec x 0) as [[Nx|Px]|Zx].
  - rewrite (fl_neg_case x Nx). rewrite Qabs_neg in B by lra.
    rewrite (fl_pos_exact (- x) (- N) e); [ring|lra| |exact B|exact He].
    rewrite inject_Z_opp, G. ring.
  - rewrite (fl_pos_case x Px). rewrite Qabs_pos in B by lra.
    apply (fl_pos_exact x N e); assumption.
  - rewrite (fl_zero_case x Zx). symmetry. exact Zx.
Qed.

(** The error of one rounding, relative to the size of the number. *)
Lemma fl_rel_error (x : Q) :
  Qabs (fl x - x) <= Qabs x * pow2 (-53) + pow2 (-1075).
Proof.
  pose proof (pow2_pos (-1075)) as P. pose proof (pow2_pos (-53)) as P'.
  destruct (Q_dec x 0) as [[Nx|Px]|Zx].
  - assert (A : 0 < Qabs x) by (rewrite Qabs_neg; lra).
    destruct (ilog2_spec _ A) as [L U].
    destruct (Z_lt_le_dec (ilog2 (Qabs x)) (-1022)) as [S|S].
    + assert (B : Qabs x < pow2 (-1021)).
      { pose proof (pow2_le (ilog2 (Qabs x) + 1) (-1021) ltac:(lia)). lra. }
      pose proof (fl_error x (-1021) B ltac:(lia)) as E.
      change (-1021 - 54)%Z with (-1075)%Z in E. nra.
    + pose proof (fl_error x (ilog2 (Qabs x) + 1) U ltac:(lia)) as E.
      replace (ilog2 (Qabs x) + 1 - 54)%Z with (ilog2 (Qabs x) + -53)%Z in E by lia.
      rewrite pow2_add in E. nra.
  - assert (A : 0 < Qabs x) by (rewrite Qabs_pos; lra).
    destruct (ilog2_spec _ A) as [L U].
    destruct (Z_lt_le_dec (ilog2 (Qabs x)) (-1022)) as [S|S].
    + assert (B : Qabs x < pow2 (-1021)).
      { pose proof (pow2_le (ilog2 (Qabs x) + 1) (-1021) ltac:(lia)). lra. }
      pose proof (fl_error x (-1021) B ltac:(lia)) as E.
      change (-1021 - 54)%Z with (-1075)%Z in E. nra.
    + pose proof (fl_error x (ilog2 (Qabs x) + 1) U ltac:(lia)) as E.
      replace (ilog2 (Qabs x) + 1 - 54)%Z with (ilog2 (Qabs x) + -53)%Z in E by lia.
      rewrite pow2_add in E. nra.
  - rewrite (fl_zero_case x Zx). rewrite Zx. vm_compute. discriminate.
Qed.

Lemma fl_opp (x : Q) : fl (- x) == - fl x.
Proof.
  destruct (Q_dec x 0) as [[Nx|Px]|Zx].
  - rewrite (fl_neg_case x Nx), (fl_pos_case (- x)) by lra. ring.
  - rewrite (fl_neg_case (- x)) by lra.
    rewrite <- (fl_pos_case (- - x)) by lra.
    rewrite (fl_eq (- - x) x) by ring. reflexivity.
  - rewrite (fl_zero_case x Zx), (fl_zero_case (- x)) by lra. reflexivity.
Qed.

Lemma fl_abs (x : Q) : Qabs (fl x) == fl (Qabs x).
Proof.
  destruct (Qlt_le_dec x 0) as [N|P].
  - assert (F : fl x <= 0) by (change 0 with (fl 0); apply fl_mono; lra).
    rewrite (fl_eq (Qabs x) (- x)) by (apply Qabs_neg; lra).
    rewrite (Qabs_neg (fl x)) by lra. symmetry. apply fl_opp.
  - assert (F : 0 <= fl x) by (change 0 with (fl 0); apply fl_mono; lra).
    rewrite (fl_eq (Qabs x) x) by (apply Qabs_pos; lra).
    rewrite (Qabs_pos (fl x)) by lra. reflexivity.
Qed.


Lemma Qtrunc_eq (x y : Q) : x == y -> Qtrunc x = Qtrunc y.
Proof.
  intros H. unfold Qtrunc.
  assert (B : Qle_bool 0 x = Qle_bool 0 y).
  { destruct (Qle_bool 0 x) eqn:X, (Qle_bool 0 y) eqn:Y; try reflexivity.
    - apply Qle_bool_iff in X. rewrite H in X. apply Qle_bool_iff in X. congruence.
    - apply Qle_bool_iff in Y. rewrite <- H in Y. apply Qle_bool_iff in Y. congruence. }
  rewrite B, (Qfloor_comp x y H), (Qceiling_comp x y H). reflexivity.
Qed.

Lemma js_rem_eq (a a' b : Q) : a == a' -> js_rem a b == js_rem a' b.
Proof.
  intros H. unfold js_rem.
  assert (T : Qtrunc (a / b) = Qtrunc (a' / b)) by (apply Qtrunc_eq; rewrite H; reflexivity).
  rewrite T, H. reflexivity.
Qed.


(** The multiples of [pow2 e] below a multiple are at least one step
    below it. *)
Lemma grid_below (e N M : Z) :
  inject_Z N * pow2 e < inject_Z M * pow2 e ->
  inject_Z N * pow2 e <= inject_Z M * pow2 e - pow2 e.
Proof.
  intros H. pose proof (pow2_pos e) as P.
  assert (L : (N < M)%Z).
  { rewrite Zlt_Qlt. nra. }
  assert (L' : (N <= M - 1)%Z) by lia.
  rewrite Zle_Qle in L'. unfold Z.sub in L'. rewrite inject_Z_plus in L'.
  change (inject_Z (- (1))) with (- (1)) in L'. nra.
Qed.

Lemma js_rem_grid (e N : Z) (c : Q) :
  (e <= 3)%Z -> c == inject_Z N * pow2 e ->
  exists D, js_rem c 360 == inject_Z D * pow2 e.
Proof.
  intros He Hc. unfold js_rem.
  exists (N - 45 * 2 ^ (3 - e) * Qtrunc (c / 360))%Z.
  unfold Z.sub. rewrite inject_Z_plus, inject_Z_opp, !inject_Z_mult.
  rewrite <- pow2_Z by lia.
  assert (T : pow2 (3 - e) * pow2 e == 8).
  { rewrite <- pow2_add. now replace (3 - e + e)%Z with 3%Z by lia. }
  change (inject_Z 45) with 45.
  set (t := inject_Z (Qtrunc (c / 360))). set (p := pow2 e) in *.
  set (q := pow2 (3 + - e)) in *.
  change (pow2 (3 - e)) with q in T.
  setoid_replace ((inject_Z N + - (45 * q * t)) * p)
    with (inject_Z N * p - 45 * t * (q * p)) by ring.
  rewrite T, <- Hc. ring.
Qed.

(** ** Longitude normalisation *)

(** The doubles that bound the steps of the normalisation. *)
Lemma fl_samples :
  fl 0 = 0 /\ fl 720 = 720 /\ fl 256 = 256 /\ fl 76 = 76 /\ fl (-180) = -180 /\
  fl (180 - pow2 (-44)) == 180 - pow2 (-44) /\ fl 360 = 360 /\ fl 512 = 512.
Proof. vm_compute. repeat split. Qed.

(** The first sum of the normalisation does not overflow: a finite double
    plus 180 rounds to a finite double. *)
Lemma normalizeLng_sum_finite (v : Q) :
  Qabs v <= max_double -> Qabs (js_add v 180) <= max_double.
Proof.
  intros H. unfold js_add. apply Qabs_Qle_condition in H. destruct H as [L U].
  assert (A : fl (max_double + 180) = max_double) by (vm_compute; reflexivity).
  assert (B : fl (- max_double + 180) == - max_double) by (vm_compute; reflexivity).
  pose proof (fl_mono (v + 180) (max_double + 180) ltac:(lra)) as M1.
  pose proof (fl_mono (- max_double + 180) (v + 180) ltac:(lra)) as M2.
  rewrite A in M1. rewrite B in M2.
  apply Qabs_Qle_condition. split; assumption.
Qed.

(** The value before the final clamp is already in the half-open range:
    the last sum before the second [%] is a double between 0 and 720, and
    from 256 on a multiple of 2^-44, so that its remainder is at most
    360 - 2^-44 and stays below 180 when 180 is taken off and rounded. *)
Lemma wrapped_range (v : Q) :
  let normalized := fl (js_rem (fl (js_rem (fl (v + 180)) 360 + 360)) 360 - 180) in
  -180 <= normalized /\ normalized < 180.
Proof.
  intros normalized. unfold normalized.
  destruct fl_samples as (F0 & F720 & F256 & F76 & F180 & FB & _).
  set (a := fl (v + 180)).
  destruct (js_rem_bounds a 360 ltac:(lra)) as [Lb Ub].
  set (b := js_rem a 360) in *. set (x := b + 360).
  assert (C0 : 0 <= fl x) by (rewrite <- F0; apply fl_mono; unfold x; lra).
  assert (C720 : fl x <= 720) by (rewrite <- F720; apply fl_mono; unfold x; lra).
  set (c := fl x) in *.
  destruct (js_rem_nonneg c 360 ltac:(lra) C0) as [Ld Ud].
  set (d := js_rem c 360) in *.
  split.
  - rewrite <- F180. apply fl_mono. lra.
  - destruct (Qlt_le_dec x 256) as [S|S].
    + assert (C256 : c <= 256)
        by (rewrite <- F256; apply fl_mono; lra).
      assert (E : d == c) by (apply js_rem_small; lra).
      assert (B : fl (d - 180) <= 76) by (rewrite <- F76; apply fl_mono; lra).
      lra.
    + destruct (fl_grid x 8 (-44) S ltac:(lia)) as [N G]. fold c in G.
      destruct (js_rem_grid (-44) N c ltac:(lia) G) as [D HD]. fold d in HD.
      assert (T : 360 == inject_Z (360 * 2 ^ 44) * pow2 (-44)).
      { rewrite inject_Z_mult, <- pow2_Z by lia.
        rewrite <- Qmult_assoc, pow2_cancel. reflexivity. }
      assert (B : d <= 360 - pow2 (-44)).
      { rewrite HD, T. apply grid_below. rewrite <- HD, <- T. exact Ud. }
      assert (B' : fl (d - 180) <= 180 - pow2 (-44))
        by (rewrite <- FB; apply fl_mono; lra).
      pose proof (pow2_pos (-44)). lra.
Qed.

Lemma normalizeLng_unclamped (v : Q) :
  normalizeLng v == fl (js_rem (fl (js_rem (fl (v + 180)) 360 + 360)) 360 - 180).
Proof.
  unfold normalizeLng, js_add, js_sub. destruct (wrapped_range v) as [L U].
  apply clamp_inside; lra.
Qed.

Lemma normalizeLng_range (v : Q) : -180 <= normalizeLng v /\ normalizeLng v < 180.
Proof.
  rewrite (normalizeLng_unclamped v). apply wrapped_range.
Qed.

Lemma js_rem_turns (a : Q) : js_rem a 360 == a - 360 * inject_Z (Qtrunc (a / 360)).
Proof. reflexivity. Qed.

(** The result is the argument moved by whole turns, up to the error of the
    three roundings: the first is relative to the size of the argument, the
    other two are of numbers below 720 and 180. *)
Lemma normalizeLng_turns (v : Q) :
  exists k : Z,
    Qabs (normalizeLng v - (v - 360 * inject_Z k))
    <= (Qabs v + 180) * pow2 (-53) + pow2 (-43).
Proof.
  pose proof (normalizeLng_unclamped v) as NU.
  set (n := normalizeLng v) in *.
  destruct fl_samples as (F0 & F720 & F256 & F76 & F180 & FB & _).
  pose proof (fl_rel_error (v + 180)) as E1.
  assert (T : Qabs (v + 180) <= Qabs v + 180).
  { eapply Qle_trans; [apply Qabs_triangle|]. apply Qplus_le_r. vm_compute. discriminate. }
  set (a := fl (v + 180)) in *.
  destruct (js_rem_bounds a 360 ltac:(lra)) as [Lb Ub].
  pose proof (js_rem_turns a) as Tb.
  set (b := js_rem a 360) in *.
  assert (E2 : Qabs (fl (b + 360) - (b + 360)) <= pow2 (-44)).
  { apply (fl_error _ 10); [|lia]. change (pow2 10) with 1024.
    apply Qabs_Qlt_condition. lra. }
  assert (C0 : 0 <= fl (b + 360)) by (rewrite <- F0; apply fl_mono; lra).
  set (c := fl (b + 360)) in *.
  destruct (js_rem_nonneg c 360 ltac:(lra) C0) as [Ld Ud].
  pose proof (js_rem_turns c) as Td.
  set (d := js_rem c 360) in *.
  assert (E3 : Qabs (fl (d - 180) - (d - 180)) <= pow2 (-46)).
  { apply (fl_error _ 8); [|lia]. change (pow2 8) with 256.
    apply Qabs_Qlt_condition. lra. }
  exists (Qtrunc (a / 360) + Qtrunc (c / 360) - 1)%Z.
  unfold Z.sub. rewrite !inject_Z_plus. change (inject_Z (- (1))) with (- (1)).
  set (ka := inject_Z (Qtrunc (a / 360))) in *.
  set (kc := inject_Z (Qtrunc (c / 360))) in *.
  set (r := Qabs (v + 180)) in *. set (s := Qabs v) in *.
  apply Qabs_Qle_condition in E1. apply Qabs_Qle_condition in E2.
  apply Qabs_Qle_condition in E3.
  assert (P : pow2 (-43) == 2 * pow2 (-44))
    by (change (-43)%Z with (1 + -44)%Z; rewrite pow2_add; reflexivity).
  assert (P' : pow2 (-44) == 4 * pow2 (-46))
    by (change (-44)%Z with (2 + -46)%Z; rewrite pow2_add; reflexivity).
  assert (P'' : pow2 (-1075) <= pow2 (-46)) by (apply pow2_le; lia).
  pose proof (pow2_pos (-1075)). pose proof (pow2_pos (-53)) as P53.
  assert (M : r * pow2 (-53) <= (s + 180) * pow2 (-53)) by nra.
  set (m1 := r * pow2 (-53)) in *. set (m2 := (s + 180) * pow2 (-53)) in *.
  apply Qabs_Qle_condition. lra.
Qed.

Lemma normalizeLng_eq (x y : Q) : x == y -> normalizeLng x == normalizeLng y.
Proof.
  intros H. rewrite !normalizeLng_unclamped.
  apply fl_eq. apply Qplus_comp; [|reflexivity].
  apply js_rem_eq. apply fl_eq. apply Qplus_comp; [|reflexivity].
  apply js_rem_eq. apply fl_eq. rewrite H. reflexivity.
Qed.

(** Normalising a longitude that lies in [[-180, 180)] gives a longitude
    that normalising leaves as it is. *)
Lemma normalizeLng_settled (w : Q) :
  -180 <= w -> w < 180 -> normalizeLng (normalizeLng w) == normalizeLng w.
Proof.
  intros Lw Uw.
  destruct fl_samples as (F0 & F720 & F256 & F76 & F180 & FB & F360 & F512).
  pose proof (normalizeLng_unclamped w) as NU.
  assert (A0 : 0 <= fl (w + 180)) by (rewrite <- F0; apply fl_mono; lra).
  assert (A1 : fl (w + 180) <= 360) by (rewrite <- F360; apply fl_mono; lra).
  set (a := fl (w + 180)) in *.
  destruct (js_rem_nonneg a 360 ltac:(lra) A0) as [Lb Ub].
  set (b := js_rem a 360) in *.
  assert (C0 : fl 360 <= fl (b + 360)) by (apply fl_mono; lra).
  rewrite F360 in C0.
  assert (C1 : fl (b + 360) <= 720) by (rewrite <- F720; apply fl_mono; lra).
  destruct (fl_grid (b + 360) 8 (-44)) as [N G];
    [change (pow2 8) with 256; lra|lia|].
  assert (G' : 512 <= fl (b + 360) -> exists M, fl (b + 360) == inject_Z M * pow2 (-43)).
  { intros H. destruct (Qlt_le_dec (b + 360) 512) as [S|S].
    - assert (fl (b + 360) <= 512) by (rewrite <- F512; apply fl_mono; lra).
      exists (2 ^ 52)%Z. assert (E : fl (b + 360) == 512) by lra.
      rewrite E. reflexivity.
    - apply (fl_grid (b + 360) 9 (-43)); [exact S|lia]. }
  set (c := fl (b + 360)) in *.
  assert (Pc : 0 <= c) by lra.
  destruct (js_rem_nonneg c 360 ltac:(lra) Pc) as [Ld Ud].
  destruct (js_rem_grid (-44) N c ltac:(lia) G) as [D HD].
  assert (G2 : 512 <= js_rem c 360 + 360 ->
               exists M, js_rem c 360 == inject_Z M * pow2 (-43)).
  { intros H.
    assert (T : js_rem c 360 == c - 360).
    { apply js_rem_once; [lra|].
      destruct (Qlt_le_dec c 720) as [S|S]; [lra|].
      assert (E : c == 720) by lra.
      assert (Z0 : js_rem c 360 == js_rem 720 360) by (apply js_rem_eq; exact E).
      assert (Z1 : js_rem 720 360 == 0) by reflexivity. lra. }
    destruct (G' ltac:(lra)) as [M HM].
    destruct (js_rem_grid (-43) M c ltac:(lia) HM) as [M' HM']. now exists M'. }
  set (d := js_rem c 360) in *.
  (* the first result is [d - 180], exactly *)
  assert (W : normalizeLng w == d - 180).
  { rewrite NU. apply (fl_exact _ (D - 180 * 2 ^ 44) (-44)); [| |lia].
    - unfold Z.sub. rewrite inject_Z_plus, inject_Z_opp, inject_Z_mult.
      rewrite <- pow2_Z by lia. rewrite HD.
      assert (T : pow2 44 * pow2 (-44) == 1) by apply pow2_cancel.
      change (inject_Z 180) with 180. set (p := pow2 44) in *.
      set (q := pow2 (-44)) in *. nra.
    - change (pow2 (-44 + 53)) with 512. apply Qabs_Qlt_condition. lra. }
  (* the second run reproduces [d] at every step *)
  assert (S1 : fl (normalizeLng w + 180) == d).
  { rewrite (fl_eq _ d) by (rewrite W; ring).
    apply (fl_exact _ D (-44)); [exact HD| |lia].
    change (pow2 (-44 + 53)) with 512. apply Qabs_Qlt_condition. lra. }
  assert (S2 : js_rem (fl (normalizeLng w + 180)) 360 == d).
  { rewrite (js_rem_eq _ d) by exact S1. apply js_rem_small; lra. }
  assert (S3 : fl (js_rem (fl (normalizeLng w + 180)) 360 + 360) == d + 360).
  { rewrite (fl_eq _ (d + 360)) by (rewrite S2; reflexivity).
    destruct (Qlt_le_dec (d + 360) 512) as [S|S].
    - apply (fl_exact _ (D + 360 * 2 ^ 44) (-44)); [| |lia].
      + rewrite inject_Z_plus, inject_Z_mult.
        rewrite <- pow2_Z by lia. rewrite HD.
        assert (T : pow2 44 * pow2 (-44) == 1) by apply pow2_cancel.
        change (inject_Z 360) with 360. set (p := pow2 44) in *.
        set (q := pow2 (-44)) in *. nra.
      + change (pow2 (-44 + 53)) with 512. apply Qabs_Qlt_condition. lra.
    - destruct (G2 S) as [M HM].
      apply (fl_exact _ (M + 360 * 2 ^ 43) (-43)); [| |lia].
      + rewrite inject_Z_plus, inject_Z_mult.
        rewrite <- pow2_Z by lia. rewrite HM.
        assert (T : pow2 43 * pow2 (-43) == 1) by apply pow2_cancel.
        change (inject_Z 360) with 360. set (p := pow2 43) in *.
        set (q := pow2 (-43)) in *. nra.
      + change (pow2 (-43 + 53)) with 1024. apply Qabs_Qlt_condition. lra. }
  assert (S4 : js_rem (fl (js_rem (fl (normalizeLng w + 180)) 360 + 360)) 360 == d).
  { rewrite (js_rem_eq _ (d + 360)) by exact S3.
    rewrite js_rem_once by lra. ring. }
  rewrite (normalizeLng_unclamped (normalizeLng w)).
  rewrite (fl_eq _ (d - 180)) by (rewrite S4; reflexivity).
  symmetry. exact NU.
Qed.

(** A longitude in [[-180, 180)] that is a multiple of [pow2 (-43)], every
    whole, half or quarter degree among them, is kept: no operation rounds. *)
Lemma normalizeLng_inside_grid (x : Q) (N : Z) :
  x == inject_Z N * pow2 (-43) -> -180 <= x -> x < 180 -> normalizeLng x == x.
Proof.
  intros G L U. rewrite normalizeLng_unclamped.
  assert (T : pow2 43 * pow2 (-43) == 1) by apply pow2_cancel.
  assert (S1 : fl (x + 180) == x + 180).
  { apply (fl_exact _ (N + 180 * 2 ^ 43) (-43)); [| |lia].
    - rewrite inject_Z_plus, inject_Z_mult, <- pow2_Z by lia.
      change (inject_Z 180) with 180. rewrite G.
      set (p := pow2 43) in *. set (q := pow2 (-43)) in *. nra.
    - change (pow2 (-43 + 53)) with 1024. apply Qabs_Qlt_condition. lra. }
  assert (S2 : js_rem (fl (x + 180)) 360 == x + 180).
  { rewrite (js_rem_eq _ (x + 180)) by exact S1. apply js_rem_small; lra. }
  assert (S3 : fl (js_rem (fl (x + 180)) 360 + 360) == x + 540).
  { rewrite (fl_eq _ (x + 540)) by (rewrite S2; ring).
    apply (fl_exact _ (N + 540 * 2 ^ 43) (-43)); [| |lia].
    - rewrite inject_Z_plus, inject_Z_mult, <- pow2_Z by lia.
      change (inject_Z 540) with 540. rewrite G.
      set (p := pow2 43) in *. set (q := pow2 (-43)) in *. nra.
    - change (pow2 (-43 + 53)) with 1024. apply Qabs_Qlt_condition. lra. }
  assert (S4 : js_rem (fl (js_rem (fl (x + 180)) 360 + 360)) 360 == x + 180).
  { rewrite (js_rem_eq _ (x + 540)) by exact S3.
    rewrite js_rem_once by lra. ring. }
  rewrite (fl_eq _ x) by (rewrite S4; ring).
  apply (fl_exact _ N (-43)); [exact G| |lia].
  change (pow2 (-43 + 53)) with 1024. apply Qabs_Qlt_condition. lra.
Qed.

(** Normalising a normalised longitude again moves it by at most a whole
    turn and 2^-42. *)
Lemma normalizeLng_again (v : Q) :
  exists k : Z,
    Qabs (normalizeLng (normalizeLng v) - (normalizeLng v - 360 * inject_Z k))
    <= pow2 (-42).
Proof.
  pose proof (normalizeLng_range v) as [L U].
  destruct (normalizeLng_turns (normalizeLng v)) as [k Hk].
  exists k. eapply Qle_trans; [exact Hk|].
  assert (A : Qabs (normalizeLng v) <= 180) by (apply Qabs_Qle_condition; lra).
  assert (P : pow2 (-42) == 2 * pow2 (-43))
    by (change (-42)%Z with (1 + -43)%Z; rewrite pow2_add; reflexivity).
  assert (P' : pow2 (-43) == 1024 * pow2 (-53))
    by (change (-43)%Z with (10 + -53)%Z; rewrite pow2_add; reflexivity).
  pose proof (pow2_pos (-53)).
  set (a := Qabs (normalizeLng v)) in *. nra.
Qed.

(** Whole degrees are kept or moved by whole turns.  The double nearest to
    -181.3 goes to the double nearest to 178.7, and that one, normalised
    again, to the next but one double above it. *)
Example normalizeLng_samples :
  normalizeLng 170 = 170 /\ normalizeLng (-170) = -170 /\
  normalizeLng 190 = -170 /\ normalizeLng (-370) = -10 /\
  normalizeLng 180 = -180 /\
  normalizeLng (fl (-181.3)) = fl 178.7 /\
  normalizeLng (fl 178.7) == fl 178.7 + pow2 (-44).
Proof. vm_compute. repeat split. Qed.

(** The binary64 remainder on a few dividends, and the binary64
    normalisation on whole degrees, where no operation rounds. *)
Example Binary64_js_rem_samples :
  Binary64.js_rem 7.5 2 = 1.5%float /\
  Binary64.js_rem (-7.5) 2 = (-1.5)%float /\
  Binary64.js_rem 718.5 360 = 358.5%float /\
  Binary64.js_rem (-20) 360 = (-20)%float /\
  Binary64.js_rem 360 360 = 0%float.
Proof. vm_compute. repeat split. Qed.

Example Binary64_normalizeLng_whole_degrees :
  Binary64.normalizeLng 170 = 170%float /\
  Binary64.normalizeLng (-170) = (-170)%float /\
  Binary64.normalizeLng 190 = (-170)%float /\
  Binary64.normalizeLng (-540) = (-180)%float /\
  Binary64.normalizeLng 180 = (-180)%float.
Proof. vm_compute. repeat split. Qed.

(** The two readings of [normalizeLng] agree on longitudes of every size,
    on those that round and on those that do not. *)
#[warnings="-inexact-float"] Example normalizeLng_readings_agree :
  forallb normalizeLng_agrees
    [170; -170; 190; -540; 180; -181.3; 178.7; 116.4; 39.9; 359.999; 0.1;
     -0.1; 123456789.123; -720.3; 1e16; 1e308; -1e308; 5e-324]%float = true.
Proof. vm_compute. reflexivity. Qed.

(** So do the two readings of a difference: on differences that round,
    around the largest double, where the result turns infinite, and among
    the subnormal doubles. *)
#[warnings="-inexact-float"] Example js_minus_readings_agree :
  forallb js_minus_agrees
    [(1e308, -1e308); (370, 10); (359.999, 0); (0.1, 0.3);
     (0x1.fffffffffffffp+1023, -1e292); (0x1.fffffffffffffp+1023, -9e291);
     (-0x1.fffffffffffffp+1023, 9.98e291); (5e-324, 1e-323);
     (180, -179.99999999999997)]%float = true.
Proof. vm_compute. reflexivity. Qed.

(** C4, as stated, on binary64 numbers: idempotence fails for the longitude
    -181.3.  The first application gives the double nearest to 178.7; the
    second adds 360 to 358.7, which rounds to a multiple of 2^-43, and
    gives 178.70000000000005. *)
Lemma normalizeLng_binary64_not_idempotent :
  Binary64.normalizeLng Binary64.lng_minus_181_3 = 0x1.6566666666666p+7%float /\
  Binary64.normalizeLng (Binary64.normalizeLng Binary64.lng_minus_181_3)
    = 0x1.6566666666668p+7%float /\
  Binary64.normalizeLng (Binary64.normalizeLng Binary64.lng_minus_181_3)
    <> Binary64.normalizeLng Binary64.lng_minus_181_3.
Proof.
  split; [vm_compute; reflexivity|].
  split; [vm_compute; reflexivity|].
  intros H.
  apply (f_equal (fun x => PrimFloat.eqb x 0x1.6566666666666p+7%float)) in H.
  vm_compute in H. discriminate H.
Qed.

(** C4 (amended): on binary64 numbers [normalizeLng v] lies in
    [[-180, 180)] for every [v]; it is [v] moved by a whole number of turns,
    negative [v] included, up to the rounding of its three additions, which
    is below 2^-42 for a longitude within two turns of zero; normalising
    the result again gives it back up to a whole turn and 2^-42, and gives
    it back exactly from the second application on, and from the first one
    when [v] is in [[-180, 180)]; a longitude in [[-180, 180)] that is a
    multiple of 2^-43 is kept as it is. *)
Theorem normalizeLng_range_and_rounding (v : Q) :
  (-180 <= normalizeLng v /\ normalizeLng v < 180) /\
  (exists turns : Z,
     Qabs (normalizeLng v - (v - 360 * inject_Z turns))
     <= (Qabs v + 180) * pow2 (-53) + pow2 (-43)) /\
  (exists turns : Z,
     Qabs (normalizeLng (normalizeLng v)
           - (normalizeLng v - 360 * inject_Z turns)) <= pow2 (-42)) /\
  normalizeLng (normalizeLng (normalizeLng v)) == normalizeLng (normalizeLng v) /\
  (-180 <= v -> v < 180 -> normalizeLng (normalizeLng v) == normalizeLng v) /\
  (forall N : Z, v == inject_Z N * pow2 (-43) -> -180 <= v -> v < 180 ->
     normalizeLng v == v).
Proof.
  pose proof (normalizeLng_range v) as [L U].
  split; [split; assumption|].
  split; [apply normalizeLng_turns|].
  split; [apply normalizeLng_again|].
  split; [apply normalizeLng_settled; assumption|].
  split; [apply normalizeLng_settled|].
  intros N. apply normalizeLng_inside_grid.
Qed.

(** The amended C4 at 170 degrees, which is 170 * 2^43 steps of 2^-43. *)
Lemma normalizeLng_range_and_rounding_witness :
  normalizeLng 170 == 170 /\ normalizeLng (normalizeLng 170) == normalizeLng 170.
Proof.
  destruct (normalizeLng_range_and_rounding 170) as (_ & _ & _ & _ & S & G).
  split.
  - apply (G (170 * 2 ^ 43)%Z);
      [vm_compute; reflexivity|vm_compute; discriminate|vm_compute; reflexivity].
  - apply S; [vm_compute; discriminate|vm_compute; reflexivity].
Defined.

(** ** Camera *)

Lemma persistedViewport_invariant (v : LatLngZoom.t) :
  cameraInvariant (persistedViewport v).
Proof.
  unfold cameraInvariant, persistedViewport; simpl.
  split; [apply clampLat_range|].
  split; [apply normalizeLng_range|].
  apply clamp_range. lra.
Qed.

Lemma parseStoredViewport_invariant (raw : StoredItem) :
  match parseStoredViewport raw with
  | Some c => cameraInvariant c
  | None => True
  end.
Proof.
  destruct raw as [| |[la|] [lo|] z]; simpl; trivial.
  unfold cameraInvariant; simpl.
  split; [apply clampLat_range|].
  split; [apply normalizeLng_range|].
  destruct z as [z|]; [apply clamp_range|]; lra.
Qed.

(** C9, as stated, fails at an accepted move-end event: the renderer has no
    lower zoom limit, and a reported zoom of 2 becomes the zoom of the
    camera. *)
Lemma moveend_camera_zoom_below_3 :
  let s := handleWebMessage_moveend
             (Finite 0) (Finite 0) (Finite 2)
             (Finite (-85)) (Finite 85) (Finite (-180)) (Finite 180)
             (initialScreen true) in
  LatLngZoom.zoom (mapViewport s) = 2 /\ ~ cameraInvariant (mapViewport s).
Proof.
  split; [reflexivity|].
  intros [_ [_ [H _]]]. vm_compute in H. apply H. reflexivity.
Qed.

(** C9 (amended): the camera restored at startup and every camera written
    to storage satisfy the invariant; an accepted move-end event stores the
    reported latitude and zoom as they are and a longitude in
    [[-180, 180)]; an event that is not accepted leaves the camera. *)
Theorem camera_invariant_where_enforced
  (raw : StoredItem) (lat lng zoom : Q) (south north west east : number)
  (s : Screen) :
  match parseStoredViewport raw with
  | Some c => cameraInvariant c /\ mapViewport (restoreSession raw s) = c
  | None => mapViewport (restoreSession raw s) = mapViewport s
  end /\
  cameraInvariant (persistedViewport (mapViewport s)) /\
  (sessionRestored s = true ->
   effects (persistViewport s)
   = effects s ++ [AsyncStorage_setItem_mapViewport (persistedViewport (mapViewport s))]) /\
  (let c := mapViewport (handleWebMessage_moveend
                           (Finite lat) (Finite lng) (Finite zoom)
                           south north west east s) in
   LatLngZoom.latitude c = lat /\ LatLngZoom.zoom c = zoom /\
   LatLngZoom.longitude c = normalizeLng lng /\
   -180 <= LatLngZoom.longitude c /\ LatLngZoom.longitude c < 180) /\
  (forall la lo zo,
     Number_isFinite la && Number_isFinite lo && Number_isFinite zo = false ->
     mapViewport (handleWebMessage_moveend la lo zo south north west east s)
     = mapViewport s).
Proof.
  split.
  { pose proof (parseStoredViewport_invariant raw) as H.
    unfold restoreSession.
    destruct (parseStoredViewport raw); [split; [exact H|reflexivity]|reflexivity]. }
  split; [apply persistedViewport_invariant|].
  split.
  { intros H. unfold persistViewport. rewrite H. reflexivity. }
  split.
  { assert (E : mapViewport (handleWebMessage_moveend
                               (Finite lat) (Finite lng) (Finite zoom)
                               south north west east s)
                = {| LatLngZoom.latitude := lat;
                     LatLngZoom.longitude := normalizeLng lng;
                     LatLngZoom.zoom := zoom |}).
    { unfold handleWebMessage_moveend.
      destruct south, north, west, east; try reflexivity.
      match goal with |- context [if ?c then _ else _] => destruct c end;
      reflexivity. }
    cbv zeta. rewrite E. simpl.
    pose proof (normalizeLng_range lng) as [L U]. auto. }
  intros la lo zo H. unfold handleWebMessage_moveend.
  assert (E : match la, lo, zo with
              | Finite lat0, Finite lng0, Finite zoom0 =>
                  set_mapViewport {| LatLngZoom.latitude := lat0;
                                     LatLngZoom.longitude := normalizeLng lng0;
                                     LatLngZoom.zoom := zoom0 |} s
              | _, _, _ => s
              end = s)
    by (destruct la, lo, zo; simpl in H; try discriminate; reflexivity).
  rewrite E.
  destruct south, north, west, east; try reflexivity.
  match goal with |- context [if ?c then _ else _] => destruct c end;
      reflexivity.
Qed.

(** The amended C9 at a stored camera out of range and a state whose
    session is restored. *)
Lemma camera_invariant_where_enforced_witness :
  cameraInvariant
    {| LatLngZoom.latitude := 90; LatLngZoom.longitude := -170;
       LatLngZoom.zoom := 20 |} /\
  effects (persistViewport (restoreSession ItemAbsent (initialScreen true)))
  = [AsyncStorage_setItem_mapViewport (persistedViewport INITIAL_VIEW)].
Proof.
  pose proof (camera_invariant_where_enforced
                (ItemParsed (Finite 95) (Finite 190) (Finite 25))
                0 0 2 NotFinite NotFinite NotFinite NotFinite
                (restoreSession ItemAbsent (initialScreen true))) as [H1 [_ [H3 _]]].
  split.
  - exact (proj1 H1).
  - exact (H3 eq_refl).
Defined.

(** ** Bounds reported by a move-end event *)

(** The double nearest to 359.999 is above it; the doubles around it are
    2^-44 apart, and the number half a step below it rounds to it. *)
Lemma literal_359_999 :
  fl 359.999 == 359.999 + (13 # 549755813888000) /\
  fl (fl 359.999 - pow2 (-45)) == fl 359.999 /\
  359.999 - pow2 (-46) < fl 359.999 - pow2 (-45) /\
  fl 359.999 - pow2 (-45) < 359.999.
Proof. vm_compute. repeat split. Qed.

(** The largest double, and the least number that rounds beyond it. *)
Lemma fl_at_max_double :
  fl max_double = max_double /\
  fl (pow2 1024 - pow2 970) == pow2 1024 /\
  max_double < pow2 1024.
Proof. vm_compute. repeat split. Qed.

(** The rounded number is finite exactly when the exact one is below the
    middle of the largest double and the next power of two. *)
Lemma finite_when_rounded (x : Q) :
  Qabs (fl x) <= max_double <-> Qabs x < pow2 1024 - pow2 970.
Proof.
  destruct fl_at_max_double as (FM & FO & LT).
  rewrite fl_abs. set (a := Qabs x).
  assert (A0 : 0 <= a) by apply Qabs_nonneg.
  split.
  - intros H. apply Qnot_le_lt. intros C.
    pose proof (fl_mono _ _ C) as M. lra.
  - intros H. destruct (Qlt_le_dec max_double a) as [B|B].
    + assert (B' : pow2 1023 <= a).
      { assert (pow2 1023 <= max_double) by (vm_compute; discriminate). lra. }
      destruct (fl_grid a 1023 971 B' ltac:(lia)) as [N G].
      pose proof (fl_error a 1024) as E.
      rewrite (Qabs_pos a) in E by exact A0.
      assert (P : pow2 970 < pow2 1024) by (apply pow2_lt; lia).
      pose proof (pow2_pos 970) as P0.
      specialize (E ltac:(lra) ltac:(lia)). change (1024 - 54)%Z with 970%Z in E.
      apply Qabs_Qle_condition in E.
      assert (T : pow2 1024 == inject_Z (2 ^ 53) * pow2 971).
      { rewrite <- pow2_Z by lia. rewrite <- pow2_add. reflexivity. }
      assert (S : fl a < pow2 1024) by lra.
      rewrite G, T in S. apply grid_below in S. rewrite <- G, <- T in S.
      exact S.
    + rewrite <- FM. apply fl_mono. exact B.
Qed.

(** The test [Number.isFinite(lngSpan) && lngSpan >= 359.999] of the
    handler, in terms of the exact difference of the edges: it passes from
    half a step below the double nearest to 359.999 on, as long as the
    difference does not round to an infinity. *)
Lemma moveend_span_test (west east : Q) :
  let lngSpan := Math_abs_number (js_minus east west) in
  Number_isFinite lngSpan
  && match lngSpan with
     | Finite span => Qle_bool (fl 359.999) span
     | NotFinite => false
     end = true
  <-> fl 359.999 - pow2 (-45) <= Qabs (east - west)
      /\ Qabs (east - west) < pow2 1024 - pow2 970.
Proof.
  cbv zeta. unfold js_minus.
  destruct literal_359_999 as (_ & R & _ & _).
  pose proof (finite_when_rounded (east - west)) as F.
  pose proof (fl_abs (east - west)) as A.
  set (x := east - west) in *.
  destruct (Qle_bool (Qabs (fl x)) max_double) eqn:E;
    cbn [Math_abs_number Number_isFinite andb].
  - apply Qle_bool_iff in E. apply F in E. unfold Math_abs.
    rewrite Qle_bool_iff, A. split.
    + intros H. split; [|exact E]. apply Qnot_lt_le. intros C.
      assert (B : Qabs x < pow2 9).
      { change (pow2 9) with 512.
        assert (fl 359.999 - pow2 (-45) < 512) by (vm_compute; reflexivity). lra. }
      pose proof (fl_error (Qabs x) 9) as Er.
      rewrite (Qabs_pos (Qabs x)) in Er by apply Qabs_nonneg.
      specialize (Er B ltac:(lia)). change (9 - 54)%Z with (-45)%Z in Er.
      apply Qabs_Qle_condition in Er. lra.
    + intros [H _]. rewrite <- R. apply fl_mono. exact H.
  - split; [discriminate|]. intros [_ H]. apply F in H.
    apply Qle_bool_iff in H. congruence.
Qed.

Lemma moveend_bounds_whole_world
  (lat lng zoom : number) (south north west east : Q) (s : Screen) :
  fl 359.999 - pow2 (-45) <= Qabs (east - west) ->
  Qabs (east - west) < pow2 1024 - pow2 970 ->
  mapBounds (handleWebMessage_moveend lat lng zoom
               (Finite south) (Finite north) (Finite west) (Finite east) s)
  = Some {| ViewportBounds.minLat := clampLat (Math_min south north);
            ViewportBounds.maxLat := clampLat (Math_max south north);
            ViewportBounds.minLng := -180;
            ViewportBounds.maxLng := 180;
            ViewportBounds.wrapsAntimeridian := false;
            ViewportBounds.wholeWorld := true |}.
Proof.
  intros H1 H2. unfold handleWebMessage_moveend.
  pose proof (proj2 (moveend_span_test west east) (conj H1 H2)) as T.
  cbv zeta in T. cbv zeta. rewrite T. reflexivity.
Qed.

Lemma moveend_bounds_partial
  (lat lng zoom : number) (south north west east : Q) (s : Screen) :
  Qabs (east - west) < fl 359.999 - pow2 (-45)
  \/ pow2 1024 - pow2 970 <= Qabs (east - west) ->
  mapBounds (handleWebMessage_moveend lat lng zoom
               (Finite south) (Finite north) (Finite west) (Finite east) s)
  = Some {| ViewportBounds.minLat := clampLat (Math_min south north);
            ViewportBounds.maxLat := clampLat (Math_max south north);
            ViewportBounds.minLng := normalizeLng west;
            ViewportBounds.maxLng := normalizeLng east;
            ViewportBounds.wrapsAntimeridian :=
              Qgt_bool (normalizeLng west) (normalizeLng east);
            ViewportBounds.wholeWorld := false |}.
Proof.
  intros H. unfold handleWebMessage_moveend.
  pose proof (moveend_span_test west east) as T. cbv zeta in T. cbv zeta.
  match goal with
  | |- context [if ?c then _ else _] => destruct c eqn:E
  end; [|reflexivity].
  destruct (proj1 T eq_refl) as [E1 E2]. destruct H; lra.
Qed.

(** ** Requests of the marker query coordinator *)

Lemma effects_perform_all (qs : list ViewportQuery.t) (s : Screen) :
  effects (fold_left (fun st q => perform (GET_markers_viewport q) st) qs s)
  = effects s ++ map GET_markers_viewport qs.
Proof.
  revert s. induction qs as [|q qs IH]; intros s; simpl.
  - now rewrite app_nil_r.
  - rewrite IH. simpl. now rewrite <- app_assoc.
Qed.

Lemma perform_all_keeps (qs : list ViewportQuery.t) (s : Screen) :
  let s' := fold_left (fun st q => perform (GET_markers_viewport q) st) qs s in
  markerQuerySeqRef s' = markerQuerySeqRef s /\
  hasLoadedMarkersRef s' = hasLoadedMarkersRef s /\
  markers s' = markers s /\ error s' = error s /\ loading s' = loading s.
Proof.
  revert s. induction qs as [|q qs IH]; intros s; simpl; [auto|].
  destruct (IH (perform (GET_markers_viewport q) s)) as (A & B & C & D & E).
  simpl in *. auto.
Qed.

(** A call with at least one category takes the next sequence number and
    issues the requests of its plan, nothing else. *)
Lemma loadMarkersInViewport_dispatch
  (bounds : ViewportBounds.t) (c : MarkerCategory) (cs : list MarkerCategory)
  (s : Screen) :
  let r := loadMarkersInViewport bounds (c :: cs) s in
  snd r = Some {| seq := S (markerQuerySeqRef s);
                  plan := segments bounds (c :: cs) |} /\
  markerQuerySeqRef (fst r) = S (markerQuerySeqRef s) /\
  effects (fst r)
  = effects s ++ map GET_markers_viewport (requests (segments bounds (c :: cs))) /\
  markers (fst r) = markers s /\ error (fst r) = error s /\
  hasLoadedMarkersRef (fst r) = hasLoadedMarkersRef s.
Proof.
  unfold loadMarkersInViewport. cbv zeta.
  match goal with
  | |- context [fold_left ?f ?qs ?s2] =>
      pose proof (perform_all_keeps qs s2) as K;
      pose proof (effects_perform_all qs s2) as E
  end.
  cbv zeta in K. destruct K as (A & B & C & D & _).
  cbn [fst snd].
  split; [reflexivity|].
  rewrite A, B, C, D, E.
  destruct (hasLoadedMarkersRef s) eqn:Hl; simpl; rewrite Hl; simpl; auto.
Qed.

(** C3, as stated, fails when the difference of the edges overflows: for
    the doubles nearest to -1e308 and 1e308 the span is [Infinity], the test
    [Number.isFinite(lngSpan)] fails and each edge is normalised on its own:
    the bounds are not whole-world and run from -116 to 116. *)
Lemma whole_world_bounds_lost_on_overflow :
  let west := fl (- (10 ^ 308)) in
  let east := fl (10 ^ 308) in
  359.999 <= Qabs (east - west) /\
  mapBounds (handleWebMessage_moveend (Finite 0) (Finite 0) (Finite 3)
               (Finite (-85)) (Finite 85) (Finite west) (Finite east)
               (initialScreen true))
  = Some {| ViewportBounds.minLat := -85;
            ViewportBounds.maxLat := 85;
            ViewportBounds.minLng := -116;
            ViewportBounds.maxLng := 116;
            ViewportBounds.wrapsAntimeridian := false;
            ViewportBounds.wholeWorld := false |}.
Proof. vm_compute. split; [discriminate|reflexivity]. Qed.

(** C3 (amended): whatever the signs of the two edges, a reported longitude
    span of 359.999 degrees or more whose difference is finite in binary64,
    that is, below 2^1024 - 2^970 in size, gives whole-world bounds from
    -180 to 180 that do not wrap; when the difference rounds to an infinity
    the bounds are the two normalised edges and not whole-world; and a load
    on whole-world bounds with at least one category issues one request,
    for the longitudes -180 to 180. *)
Theorem whole_world_bounds_of_finite_span
  (lat lng zoom : number) (south north west east : Q)
  (c : MarkerCategory) (cs : list MarkerCategory) (s : Screen)
  (Hspan : 359.999 <= Qabs (east - west)) :
  let s1 := handleWebMessage_moveend lat lng zoom
              (Finite south) (Finite north) (Finite west) (Finite east) s in
  (Qabs (east - west) < pow2 1024 - pow2 970 ->
   exists bounds,
     mapBounds s1 = Some bounds /\
     ViewportBounds.wholeWorld bounds = true /\
     ViewportBounds.wrapsAntimeridian bounds = false /\
     ViewportBounds.minLng bounds = -180 /\
     ViewportBounds.maxLng bounds = 180) /\
  (pow2 1024 - pow2 970 <= Qabs (east - west) ->
   exists bounds,
     mapBounds s1 = Some bounds /\
     ViewportBounds.wholeWorld bounds = false /\
     ViewportBounds.minLng bounds = normalizeLng west /\
     ViewportBounds.maxLng bounds = normalizeLng east) /\
  forall (b : ViewportBounds.t) (s' : Screen),
    ViewportBounds.wholeWorld b = true ->
    effects (fst (loadMarkersInViewport b (c :: cs) s'))
    = effects s' ++
      [GET_markers_viewport
         {| ViewportQuery.minLat := ViewportBounds.minLat b;
            ViewportQuery.maxLat := ViewportBounds.maxLat b;
            ViewportQuery.minLng := -180;
            ViewportQuery.maxLng := 180;
            ViewportQuery.categories := c :: cs |}].
Proof.
  intros s1. split; [|split].
  - intros Hfinite. eexists. split.
    { unfold s1. apply moveend_bounds_whole_world; [|exact Hfinite].
      destruct literal_359_999 as (_ & _ & _ & B). lra. }
    do 3 (split; [reflexivity|]). reflexivity.
  - intros Hover. eexists. split.
    { unfold s1. apply moveend_bounds_partial. right. exact Hover. }
    do 2 (split; [reflexivity|]). reflexivity.
  - intros b s' Hb.
    destruct (loadMarkersInViewport_dispatch b c cs s') as (_ & _ & E & _).
    rewrite E. unfold segments. rewrite Hb. reflexivity.
Qed.

(** The amended C3 at edges of equal sign: west 10, east 370. *)
Lemma whole_world_bounds_of_finite_span_witness :
  exists bounds,
    mapBounds (handleWebMessage_moveend (Finite 0) (Finite 190) (Finite 1)
                 (Finite (-85)) (Finite 85) (Finite 10) (Finite 370)
                 (initialScreen true)) = Some bounds /\
    ViewportBounds.wholeWorld bounds = true /\
    effects (fst (loadMarkersInViewport bounds [friendly_clinic] (initialScreen true)))
    = [GET_markers_viewport
         {| ViewportQuery.minLat := -85; ViewportQuery.maxLat := 85;
            ViewportQuery.minLng := -180; ViewportQuery.maxLng := 180;
            ViewportQuery.categories := [friendly_clinic] |}].
Proof.
  assert (Hspan : 359.999 <= Qabs (370 - 10)) by (vm_compute; discriminate).
  assert (Hfinite : Qabs (370 - 10) < pow2 1024 - pow2 970)
    by (vm_compute; reflexivity).
  destruct (whole_world_bounds_of_finite_span
              (Finite 0) (Finite 190) (Finite 1) (-85) 85 10 370
              friendly_clinic [] (initialScreen true) Hspan)
    as (F & _ & L).
  destruct (F Hfinite) as (bounds & E & W & _).
  exists bounds. split; [exact E|]. split; [exact W|].
  rewrite (L bounds (initialScreen true) W).
  vm_compute in E. injection E as <-. reflexivity.
Defined.

(** ** Merging markers by id *)

Lemma Qeq_bool_left (a b k : Q) : a == b -> Qeq_bool a k = Qeq_bool b k.
Proof.
  intros H. destruct (Qeq_bool a k) eqn:E1, (Qeq_bool b k) eqn:E2; trivial.
  - apply Qeq_bool_iff in E1. apply Qeq_bool_neq in E2. exfalso. apply E2.
    rewrite <- H. exact E1.
  - apply Qeq_bool_iff in E2. apply Qeq_bool_neq in E1. exfalso. apply E1.
    rewrite H. exact E2.
Qed.

Lemma Map_get_set {V : Type} (k k' : Q) (v : V) (m : list (Q * V)) :
  Map_get k (Map_set k' v m) = if Qeq_bool k' k then Some v else Map_get k m.
Proof.
  induction m as [|[k0 v0] m IH]; simpl.
  - reflexivity.
  - destruct (Qeq_bool k0 k') eqn:E; simpl.
    + apply Qeq_bool_iff in E. rewrite (Qeq_bool_left k0 k' k E).
      destruct (Qeq_bool k' k); reflexivity.
    + rewrite IH. destruct (Qeq_bool k0 k) eqn:E0; [|reflexivity].
      destruct (Qeq_bool k' k) eqn:E1; [|reflexivity].
      apply Qeq_bool_iff in E0, E1. apply Qeq_bool_neq in E.
      exfalso. apply E. rewrite E0, E1. reflexivity.
Qed.

Lemma Map_set_keyedById (x : MapMarker.t) (m : list (Q * MapMarker.t)) :
  keyedById m -> keyedById (Map_set (MapMarker.id x) x m).
Proof.
  unfold keyedById. induction m as [|[k0 v0] m IH]; intros H; simpl.
  - constructor; [reflexivity|constructor].
  - inversion H as [|? ? H1 H2]; subst.
    destruct (Qeq_bool k0 (MapMarker.id x)) eqn:E.
    + constructor; [|exact H2]. simpl. now apply Qeq_bool_iff.
    + constructor; [exact H1|]. now apply IH.
Qed.

Lemma Map_set_keys {V : Type} (k k' : Q) (v : V) (m : list (Q * V)) :
  InA Qeq k (map fst (Map_set k' v m)) -> k == k' \/ InA Qeq k (map fst m).
Proof.
  induction m as [|[k0 v0] m IH]; simpl; intros H.
  - inversion H as [? ? H1|? ? H1]; subst; [now left|inversion H1].
  - destruct (Qeq_bool k0 k') eqn:E; simpl in H.
    + right. exact H.
    + inversion H as [? ? H1|? ? H1]; subst.
      * right. now constructor.
      * destruct (IH H1) as [?|?]; [now left|right; now constructor 2].
Qed.

Lemma Map_set_NoDupA {V : Type} (k' : Q) (v : V) (m : list (Q * V)) :
  NoDupA Qeq (map fst m) -> NoDupA Qeq (map fst (Map_set k' v m)).
Proof.
  induction m as [|[k0 v0] m IH]; simpl; intros H.
  - constructor; [intros A; inversion A|constructor].
  - inversion H as [|? ? H1 H2]; subst.
    destruct (Qeq_bool k0 k') eqn:E; simpl.
    + constructor; assumption.
    + constructor; [|now apply IH].
      intros A. apply Map_set_keys in A. destruct A as [A|A]; [|now apply H1].
      apply Qeq_bool_neq in E. now apply E.
Qed.

Lemma findById_values (k : Q) (m : list (Q * MapMarker.t)) :
  keyedById m -> findById k (Map_values m) = Map_get k m.
Proof.
  unfold keyedById, findById, Map_values.
  induction m as [|[k0 v0] m IH]; intros H; simpl; [reflexivity|].
  inversion H as [|? ? H1 H2]; subst. simpl in H1.
  rewrite <- (Qeq_bool_left k0 (MapMarker.id v0) k H1).
  destruct (Qeq_bool k0 k); [reflexivity|now apply IH].
Qed.

Lemma findById_app (k : Q) (l1 l2 : list MapMarker.t) :
  findById k (l1 ++ l2)
  = match findById k l1 with
    | Some v => Some v
    | None => findById k l2
    end.
Proof.
  unfold findById. induction l1 as [|x l1 IH]; simpl; [reflexivity|].
  destruct (Qeq_bool (MapMarker.id x) k); [reflexivity|exact IH].
Qed.

Lemma fold_set_get (k : Q) (items : list MapMarker.t) (m : list (Q * MapMarker.t)) :
  Map_get k (fold_left setMarker items m)
  = match findById k (rev items) with
    | Some v => Some v
    | None => Map_get k m
    end.
Proof.
  revert m. induction items as [|x items IH]; intros m; simpl; [reflexivity|].
  rewrite IH, findById_app. unfold setMarker. rewrite Map_get_set.
  destruct (findById k (rev items)); [reflexivity|].
  unfold findById; simpl. destruct (Qeq_bool (MapMarker.id x) k); reflexivity.
Qed.

Lemma fold_set_invariants (items : list MapMarker.t) (m : list (Q * MapMarker.t)) :
  keyedById m -> NoDupA Qeq (map fst m) ->
  keyedById (fold_left setMarker items m) /\
  NoDupA Qeq (map fst (fold_left setMarker items m)).
Proof.
  revert m. induction items as [|x items IH]; intros m K N; simpl; [auto|].
  apply IH; unfold setMarker; [now apply Map_set_keyedById|now apply Map_set_NoDupA].
Qed.

(** The later write wins: for every id, the merged list holds the last
    marker of the input that has it. *)
Lemma mergeMarkersById_last (k : Q) (items : list MapMarker.t) :
  findById k (mergeMarkersById items) = findById k (rev items).
Proof.
  unfold mergeMarkersById, mergedById.
  destruct (fold_set_invariants items [] (Forall_nil _) (NoDupA_nil _)) as [K _].
  rewrite (findById_values k _ K), fold_set_get. simpl.
  destruct (findById k (rev items)); reflexivity.
Qed.

(** No id occurs twice in the merged list. *)
Lemma mergeMarkersById_distinct (items : list MapMarker.t) :
  NoDupA Qeq (map MapMarker.id (mergeMarkersById items)).
Proof.
  unfold mergeMarkersById, mergedById.
  destruct (fold_set_invariants items [] (Forall_nil _) (NoDupA_nil _)) as [K N].
  revert K N. generalize (fold_left setMarker items []).
  intros m. unfold keyedById, Map_values.
  induction m as [|[k0 v0] m IH]; intros K N; simpl; [constructor|].
  inversion K as [|? ? K1 K2]; inversion N as [|? ? N1 N2]; subst.
  simpl in *. constructor; [|now apply IH].
  intros A. apply N1. rewrite K1.
  clear - A K2. induction m as [|[k1 v1] m IH]; simpl in *; [inversion A|].
  inversion K2 as [|? ? K3 K4]; subst. simpl in K3.
  inversion A as [? ? A1|? ? A1]; subst.
  - constructor. now rewrite K3.
  - constructor 2. now apply IH.
Qed.

(** Bounds that wrap are fetched in two segments, up to 180 and from -180. *)
Lemma segments_wrapping (b : ViewportBounds.t) (categories : list MarkerCategory) :
  ViewportBounds.wholeWorld b = false ->
  ViewportBounds.wrapsAntimeridian b = true ->
  segments b categories
  = Pair (fetchViewportSegment b categories (ViewportBounds.minLng b) 180)
         (fetchViewportSegment b categories (-180) (ViewportBounds.maxLng b)).
Proof.
  intros W A. unfold segments. rewrite W, A. reflexivity.
Qed.

(** C2: a move-end event with finite south and north edges, west 170 and
    east -170 gives bounds that wrap, are not whole-world and run from 170
    to -170; a load on them with at least one category issues two requests,
    for the longitudes 170 to 180 and -180 to -170, before it waits; and
    their answers are merged by id: no id twice, and for each id the last
    marker of the left list followed by the right list. *)
Theorem antimeridian_bounds_split_and_merge
  (payload : Type) (normalizeMarkers : payload -> list MapMarker.t)
  (lat lng zoom : number) (south north : Q)
  (c : MarkerCategory) (cs : list MarkerCategory) (s s' : Screen)
  (leftPayload rightPayload : payload) :
  let bounds :=
    {| ViewportBounds.minLat := clampLat (Math_min south north);
       ViewportBounds.maxLat := clampLat (Math_max south north);
       ViewportBounds.minLng := 170;
       ViewportBounds.maxLng := -170;
       ViewportBounds.wrapsAntimeridian := true;
       ViewportBounds.wholeWorld := false |} in
  let left :=
    {| ViewportQuery.minLat := clampLat (Math_min south north);
       ViewportQuery.maxLat := clampLat (Math_max south north);
       ViewportQuery.minLng := 170;
       ViewportQuery.maxLng := 180;
       ViewportQuery.categories := c :: cs |} in
  let right :=
    {| ViewportQuery.minLat := clampLat (Math_min south north);
       ViewportQuery.maxLat := clampLat (Math_max south north);
       ViewportQuery.minLng := -180;
       ViewportQuery.maxLng := -170;
       ViewportQuery.categories := c :: cs |} in
  let both := normalizeMarkers leftPayload ++ normalizeMarkers rightPayload in
  let merged :=
    mergedMarkers payload normalizeMarkers (Pair left right)
      (leftPayload, rightPayload) in
  mapBounds (handleWebMessage_moveend lat lng zoom
               (Finite south) (Finite north) (Finite 170) (Finite (-170)) s)
  = Some bounds /\
  snd (loadMarkersInViewport bounds (c :: cs) s')
  = Some {| seq := S (markerQuerySeqRef s'); plan := Pair left right |} /\
  effects (fst (loadMarkersInViewport bounds (c :: cs) s'))
  = effects s' ++ [GET_markers_viewport left; GET_markers_viewport right] /\
  merged = mergeMarkersById both /\
  NoDupA Qeq (map MapMarker.id merged) /\
  (forall k : Q, findById k merged = findById k (rev both)).
Proof.
  intros bounds left right both merged.
  split.
  { rewrite moveend_bounds_partial by (left; vm_compute; reflexivity). reflexivity. }
  destruct (loadMarkersInViewport_dispatch bounds c cs s') as (P & _ & E & _).
  split; [exact P|].
  split; [rewrite E; reflexivity|].
  split; [reflexivity|].
  split; [apply mergeMarkersById_distinct|].
  intros k. apply mergeMarkersById_last.
Qed.

(** C2 on answers that share the id 2: the marker of the right answer is
    kept, at the place where the id first appeared. *)
Example antimeridian_merge_collision :
  mergedMarkers listPayload listNormalize
    (Pair (fetchViewportSegment
             {| ViewportBounds.minLat := -10; ViewportBounds.maxLat := 10;
                ViewportBounds.minLng := 170; ViewportBounds.maxLng := -170;
                ViewportBounds.wrapsAntimeridian := true;
                ViewportBounds.wholeWorld := false |} [friendly_clinic] 170 180)
          (fetchViewportSegment
             {| ViewportBounds.minLat := -10; ViewportBounds.maxLat := 10;
                ViewportBounds.minLng := 170; ViewportBounds.maxLng := -170;
                ViewportBounds.wrapsAntimeridian := true;
                ViewportBounds.wholeWorld := false |} [friendly_clinic] (-180) (-170)))
    ([plainMarker 1 0 175 "a"; plainMarker 2 0 180 "b"],
     [plainMarker 2 0 (-180) "c"; plainMarker 3 0 (-175) "d"])
  = [plainMarker 1 0 175 "a"; plainMarker 2 0 (-180) "c"; plainMarker 3 0 (-175) "d"].
Proof. reflexivity. Qed.

(** ** Sequence numbers and completion *)

Section Completion.

Variable payload : Type.
Variable normalizeMarkers : payload -> list MapMarker.t.

Local Abbreviation settle := (loadMarkersInViewport_settled payload normalizeMarkers).

(** A completion whose sequence number is no longer the current one leaves
    the whole state as it is. *)
Lemma superseded_completion_ignored
  (pd : Pending) (r : settled (Payloads payload (plan pd))) (s : Screen) :
  seq pd <> markerQuerySeqRef s -> settle pd r s = s.
Proof.
  intros H. unfold settle, loadMarkersInViewport_settled.
  apply Nat.eqb_neq in H. destruct r; rewrite H; simpl; rewrite H; reflexivity.
Qed.

(** A completion that is still current and succeeds shows its markers and
    clears the error. *)
Lemma current_completion_applied
  (pd : Pending) (payloads : Payloads payload (plan pd)) (s : Screen) :
  seq pd = markerQuerySeqRef s ->
  let s' := settle pd (Fulfilled payloads) s in
  markers s' = mergedMarkers payload normalizeMarkers (plan pd) payloads /\
  error s' = ""%string /\
  markerQuerySeqRef s' = markerQuerySeqRef s /\
  hasLoadedMarkersRef s' = true /\
  effects s' = effects s.
Proof.
  intros H. unfold settle, loadMarkersInViewport_settled.
  apply Nat.eqb_eq in H. rewrite H. simpl. rewrite H. simpl.
  destruct (hasLoadedMarkersRef s) eqn:E; simpl; auto.
Qed.

(** A completion that is still current and fails sets the message and
    keeps the markers. *)
Lemma current_failure_reported (pd : Pending) (e : thrown) (s : Screen) :
  seq pd = markerQuerySeqRef s ->
  let s' := settle pd (Rejected e) s in
  markers s' = markers s /\
  error s' = messageOr "加载点位失败" e /\
  markerQuerySeqRef s' = markerQuerySeqRef s /\
  hasLoadedMarkersRef s' = true /\
  loading s' = (if hasLoadedMarkersRef s then loading s else false) /\
  effects s' = effects s.
Proof.
  intros H. unfold settle, loadMarkersInViewport_settled.
  apply Nat.eqb_eq in H. rewrite H. simpl. rewrite H. simpl.
  destruct (hasLoadedMarkersRef s) eqn:E; simpl; auto 10.
Qed.

(** C1: two calls with at least one category each, made before either
    completes, take consecutive sequence numbers, 5 and 6 when the counter
    stood at 4.  From then on a completion of the older call, whatever it
    carries and whenever it arrives, leaves the state unchanged, no
    error set; the completion of the newer call sets the markers to its own
    result.  In general a completion is applied only when its captured
    number is the current one. *)
Theorem overlapping_queries_newest_wins
  (b5 b6 : ViewportBounds.t) (c5 c6 : MarkerCategory)
  (cs5 cs6 : list MarkerCategory) (s : Screen)
  (Hseq : markerQuerySeqRef s = 4%nat) :
  let pd5 := {| seq := 5; plan := segments b5 (c5 :: cs5) |} in
  let pd6 := {| seq := 6; plan := segments b6 (c6 :: cs6) |} in
  let s1 := fst (loadMarkersInViewport b5 (c5 :: cs5) s) in
  let s2 := fst (loadMarkersInViewport b6 (c6 :: cs6) s1) in
  snd (loadMarkersInViewport b5 (c5 :: cs5) s) = Some pd5 /\
  snd (loadMarkersInViewport b6 (c6 :: cs6) s1) = Some pd6 /\
  (forall (r6 : Payloads payload (plan pd6)) (r5 : settled (Payloads payload (plan pd5))),
     let s3 := settle pd6 (Fulfilled r6) s2 in
     markers s3 = mergedMarkers payload normalizeMarkers (plan pd6) r6 /\
     error s3 = ""%string /\
     settle pd5 r5 s3 = s3) /\
  (forall (r6 : Payloads payload (plan pd6)) (r5 : settled (Payloads payload (plan pd5))),
     settle pd5 r5 s2 = s2 /\
     markers (settle pd6 (Fulfilled r6) (settle pd5 r5 s2))
     = mergedMarkers payload normalizeMarkers (plan pd6) r6) /\
  (forall (pd : Pending) (r : settled (Payloads payload (plan pd))) (s' : Screen),
     seq pd <> markerQuerySeqRef s' -> settle pd r s' = s').
Proof.
  intros pd5 pd6 s1 s2.
  destruct (loadMarkersInViewport_dispatch b5 c5 cs5 s) as (P5 & Q5 & _).
  destruct (loadMarkersInViewport_dispatch b6 c6 cs6 s1) as (P6 & Q6 & _).
  fold s1 in Q5. fold s2 in Q6. rewrite Hseq in *. rewrite Q5 in *.
  assert (Hcur : seq pd6 = markerQuerySeqRef s2) by (rewrite Q6; reflexivity).
  assert (Hold : seq pd5 <> markerQuerySeqRef s2) by (rewrite Q6; discriminate).
  split; [exact P5|]. split; [exact P6|].
  split.
  { intros r6 r5. cbv zeta.
    destruct (current_completion_applied pd6 r6 s2 Hcur) as (M & E & Q & _).
    split; [exact M|]. split; [exact E|].
    apply superseded_completion_ignored. rewrite Q, Q6. discriminate. }
  split.
  { intros r6 r5.
    rewrite (superseded_completion_ignored pd5 r5 s2 Hold).
    split; [reflexivity|].
    apply (current_completion_applied pd6 r6 s2 Hcur). }
  intros pd r s'. apply superseded_completion_ignored.
Qed.

(** C6: when the fetch of a request that is still the current one fails,
    the error is set to the message of the failure - that of the [Error], or
    [加载点位失败] for any other value - and is not empty unless that message
    is; the markers shown before are kept, on a first load as on a later
    one; nothing is thrown on and no request is issued. *)
Theorem failed_query_keeps_markers
  (pd : Pending) (e : thrown) (s : Screen)
  (Hcur : seq pd = markerQuerySeqRef s)
  (Hmsg : forall code, e <> ErrorObject "" code) :
  let s' := settle pd (Rejected e) s in
  error s' = messageOr "加载点位失败" e /\
  error s' <> ""%string /\
  markers s' = markers s /\
  effects s' = effects s /\
  hasLoadedMarkersRef s' = true /\
  loading s' = (if hasLoadedMarkersRef s then loading s else false).
Proof.
  destruct (current_failure_reported pd e s Hcur) as (M & E & _ & L & G & F).
  cbv zeta. rewrite E. split; [reflexivity|].
  split.
  { destruct e as [m code|code]; simpl; [|discriminate].
    intros ->. exact (Hmsg code eq_refl). }
  auto.
Qed.

End Completion.

(** C1 on the screen after four loads: the fifth and sixth call overlap,
    the answer to the sixth arrives first and the answer to the fifth is
    dropped. *)
Lemma overlapping_queries_newest_wins_witness :
  let s2 := loadAgain (loadAgain screenAfterFourLoads) in
  let pd5 := {| seq := 5; plan := segments sampleBounds [accessible_toilet] |} in
  let pd6 := {| seq := 6; plan := segments sampleBounds [accessible_toilet] |} in
  let s3 := loadMarkersInViewport_settled listPayload listNormalize pd6
              (Fulfilled [plainMarker 6 39.9 116.4 "six"]) s2 in
  markers s3 = [plainMarker 6 39.9 116.4 "six"] /\
  loadMarkersInViewport_settled listPayload listNormalize pd5
    (Fulfilled [plainMarker 5 39.9 116.4 "five"]) s3 = s3.
Proof.
  destruct (overlapping_queries_newest_wins listPayload listNormalize
              sampleBounds sampleBounds accessible_toilet accessible_toilet [] []
              screenAfterFourLoads eq_refl) as (_ & _ & H & _).
  destruct (H [plainMarker 6 39.9 116.4 "six"]
              (Fulfilled [plainMarker 5 39.9 116.4 "five"])) as (M & _ & D).
  split; [exact M|exact D].
Defined.

(** C6 on a screen that shows one marker: the request fails with a network
    error. *)
Lemma failed_query_keeps_markers_witness :
  let s := set_markers [plainMarker 1 39.9 116.4 "kept"] (loadAgain (initialScreen true)) in
  let pd := {| seq := 1; plan := segments sampleBounds [accessible_toilet] |} in
  let s' := loadMarkersInViewport_settled listPayload listNormalize pd
              (Rejected (ErrorObject "Network request failed" None)) s in
  error s' = "Network request failed"%string /\
  markers s' = [plainMarker 1 39.9 116.4 "kept"].
Proof.
  destruct (failed_query_keeps_markers listPayload listNormalize
              {| seq := 1; plan := segments sampleBounds [accessible_toilet] |}
              (ErrorObject "Network request failed" None)
              (set_markers [plainMarker 1 39.9 116.4 "kept"]
                 (loadAgain (initialScreen true)))
              eq_refl
              (fun code H => eq_ind (ErrorObject "Network request failed" None)
                               (fun t => match t with
                                         | ErrorObject (String _ _) _ => True
                                         | _ => False
                                         end) I _ H))
    as (E & _ & M & _).
  split; [exact E|exact M].
Defined.

(** C5: with no category, a load on any bounds returns without waiting,
    with no marker and no error; it issues no request and leaves the
    sequence number and every other field, except that a first call marks
    the loading as finished. *)
Theorem empty_categories_fast_path (bounds : ViewportBounds.t) (s : Screen) :
  let r := loadMarkersInViewport bounds [] s in
  snd r = None /\
  markers (fst r) = [] /\
  error (fst r) = ""%string /\
  effects (fst r) = effects s /\
  markerQuerySeqRef (fst r) = markerQuerySeqRef s /\
  hasLoadedMarkersRef (fst r) = true /\
  loading (fst r) = (if hasLoadedMarkersRef s then loading s else false) /\
  fst r = set_loading (if hasLoadedMarkersRef s then loading s else false)
            (set_hasLoadedMarkersRef true (set_error "" (set_markers [] s))).
Proof.
  unfold loadMarkersInViewport. cbv zeta. cbn [fst snd].
  destruct s as [? ? ? ? ? ? ? ? ? ? ? ? ? ? ? ? ? hl ?]. simpl.
  destruct hl; simpl; repeat split; reflexivity.
Qed.

(** ** Native location: single flight and cooldown *)

Lemma requestNativeCurrentLocation_busy
  (env : Platform) (opts : LocateOptions) (s : Screen) :
  nativeLocateInFlightRef s = true ->
  requestNativeCurrentLocation env opts s = (s, Some false).
Proof.
  intros H. unfold requestNativeCurrentLocation. rewrite H.
  destruct (supportsNativeLocation env), (locationPermissionGranted s),
    (nativeLocationModule env); reflexivity.
Qed.

(** Whatever the awaited OS request settles with, the flag is cleared. *)
Lemma requestNativeCurrentLocation_settled_clears
  (opts : LocateOptions) (r : settled NativeLocationPayload) (s : Screen) :
  nativeLocateInFlightRef (fst (requestNativeCurrentLocation_settled opts r s)) = false.
Proof.
  unfold requestNativeCurrentLocation_settled.
  destruct r as [p|e].
  - destruct (latitude p), (longitude p);
      try (destruct (requestNativeCurrentLocation_catch opts _ s); reflexivity).
    reflexivity.
  - destruct (requestNativeCurrentLocation_catch opts e s); reflexivity.
Qed.

(** A call that gets past the guards issues one OS request. *)
Lemma requestNativeCurrentLocation_starts
  (env : Platform) (opts : LocateOptions) (s : Screen) :
  supportsNativeLocation env = true -> nativeLocationModule env = true ->
  locationPermissionGranted s = true -> nativeLocateInFlightRef s = false ->
  let r := requestNativeCurrentLocation env opts s in
  snd r = None /\
  nativeLocateInFlightRef (fst r) = true /\
  effects (fst r) = effects s ++ [NativeLocation_getCurrentPosition 8000 60000].
Proof.
  intros H1 H2 H3 H4. unfold requestNativeCurrentLocation.
  rewrite H1, H2, H3, H4. simpl. auto.
Qed.

(** A call issues at most one OS request, and only when it does not return
    at once. *)
Lemma requestNativeCurrentLocation_os_requests
  (env : Platform) (opts : LocateOptions) (s : Screen) :
  let r := requestNativeCurrentLocation env opts s in
  osLocationRequests (fst r)
  = match snd r with
    | None => S (osLocationRequests s)
    | Some _ => osLocationRequests s
    end.
Proof.
  unfold requestNativeCurrentLocation.
  destruct (supportsNativeLocation env), (locationPermissionGranted s),
    (nativeLocationModule env), (nativeLocateInFlightRef s); simpl; try reflexivity.
  unfold osLocationRequests; simpl. rewrite filter_app, length_app. simpl. lia.
Qed.

(** C7: while the in-flight flag is set, a call of
    [requestNativeCurrentLocation] returns [false] at once, with no OS
    request and no change of state; when the request in flight settles - with
    a position, with a payload without finite coordinates, or with an
    error - the flag is cleared, and a call after that, on a device with the
    module and with the permission still granted, starts an OS request. *)
Theorem native_location_single_flight
  (env : Platform) (opts opts' later : LocateOptions) (s : Screen)
  (r : settled NativeLocationPayload)
  (Hbusy : nativeLocateInFlightRef s = true) :
  requestNativeCurrentLocation env opts' s = (s, Some false) /\
  osLocationRequests (fst (requestNativeCurrentLocation env opts' s))
  = osLocationRequests s /\
  let s' := fst (requestNativeCurrentLocation_settled opts r s) in
  nativeLocateInFlightRef s' = false /\
  (supportsNativeLocation env = true -> nativeLocationModule env = true ->
   locationPermissionGranted s' = true ->
   snd (requestNativeCurrentLocation env later s') = None /\
   effects (fst (requestNativeCurrentLocation env later s'))
   = effects s' ++ [NativeLocation_getCurrentPosition 8000 60000]).
Proof.
  pose proof (requestNativeCurrentLocation_busy env opts' s Hbusy) as B.
  split; [exact B|]. split; [rewrite B; reflexivity|].
  cbv zeta.
  pose proof (requestNativeCurrentLocation_settled_clears opts r s) as C.
  split; [exact C|].
  intros H1 H2 H3.
  destruct (requestNativeCurrentLocation_starts env later _ H1 H2 H3 C) as (A & _ & E).
  split; assumption.
Qed.

(** C7 on a phone: a first call is in flight, a second one is turned away,
    the first one fails with a time-out, and a third one starts. *)
Lemma native_location_single_flight_witness :
  let quiet := {| recenter := false; silent := true |} in
  let s1 := fst (requestNativeCurrentLocation phone quiet (initialScreen true)) in
  let timedOut := Rejected (ErrorObject "timeout" (Some "LOCATION_TIMEOUT"%string)) in
  let s2 := fst (requestNativeCurrentLocation_settled quiet timedOut s1) in
  requestNativeCurrentLocation phone quiet s1 = (s1, Some false) /\
  nativeLocateInFlightRef s2 = false /\
  snd (requestNativeCurrentLocation phone quiet s2) = None.
Proof.
  destruct (native_location_single_flight phone
              {| recenter := false; silent := true |}
              {| recenter := false; silent := true |}
              {| recenter := false; silent := true |}
              (fst (requestNativeCurrentLocation phone
                      {| recenter := false; silent := true |} (initialScreen true)))
              (Rejected (ErrorObject "timeout" (Some "LOCATION_TIMEOUT"%string)))
              eq_refl) as (B & _ & C & L).
  split; [exact B|]. split; [exact C|].
  exact (proj1 (L eq_refl eq_refl eq_refl)).
Defined.

Lemma requestNativeCurrentLocation_keeps_cooldown
  (env : Platform) (opts : LocateOptions) (s : Screen) :
  nativeFallbackCooldownRef (fst (requestNativeCurrentLocation env opts s))
  = nativeFallbackCooldownRef s.
Proof.
  unfold requestNativeCurrentLocation.
  destruct (supportsNativeLocation env), (locationPermissionGranted s),
    (nativeLocationModule env), (nativeLocateInFlightRef s); reflexivity.
Qed.

(** C8: with the location permission granted, a [geoError] event that
    comes less than 1800 ms after the last fallback attempt changes nothing
    and calls nothing; any other one stores the current time as the time of
    the last attempt and calls [requestNativeCurrentLocation] once, silent
    and without recentring.  That call issues one OS request when the
    device has the module and no request is in flight, and none otherwise. *)
Theorem geoError_cooldown_gate
  (env : Platform) (now : Z) (s : Screen)
  (Hperm : locationPermissionGranted s = true) :
  let r := handleWebMessage_geoError env now s in
  let quiet := {| recenter := false; silent := true |} in
  let armed := set_nativeFallbackCooldownRef now s in
  ((now - nativeFallbackCooldownRef s < 1800)%Z -> r = (s, NotInvoked)) /\
  ((1800 <= now - nativeFallbackCooldownRef s)%Z ->
   r = (fst (requestNativeCurrentLocation env quiet armed),
        Invoked quiet (snd (requestNativeCurrentLocation env quiet armed))) /\
   nativeFallbackCooldownRef (fst r) = now /\
   (osLocationRequests s <= osLocationRequests (fst r) <= S (osLocationRequests s))%nat /\
   (supportsNativeLocation env = true -> nativeLocationModule env = true ->
    nativeLocateInFlightRef s = false ->
    snd r = Invoked quiet None /\
    effects (fst r) = effects s ++ [NativeLocation_getCurrentPosition 8000 60000]) /\
   (nativeLocateInFlightRef s = true ->
    snd r = Invoked quiet (Some false) /\ effects (fst r) = effects s)).
Proof.
  intros r quiet armed. unfold r, handleWebMessage_geoError. rewrite Hperm.
  split.
  { intros H. apply Z.ltb_lt in H. rewrite H. reflexivity. }
  intros H. apply Z.ltb_ge in H. rewrite H.
  fold quiet. fold armed.
  destruct (requestNativeCurrentLocation env quiet armed) as [s2 im] eqn:E.
  cbn [fst snd].
  assert (E1 : s2 = fst (requestNativeCurrentLocation env quiet armed))
    by (rewrite E; reflexivity).
  assert (E2 : im = snd (requestNativeCurrentLocation env quiet armed))
    by (rewrite E; reflexivity).
  split; [reflexivity|].
  split.
  { rewrite E1, requestNativeCurrentLocation_keeps_cooldown. reflexivity. }
  split.
  { pose proof (requestNativeCurrentLocation_os_requests env quiet armed) as O.
    cbv zeta in O. rewrite <- E1, <- E2 in O.
    change (osLocationRequests armed) with (osLocationRequests s) in O.
    destruct im; lia. }
  split.
  { intros H1 H2 H3.
    destruct (requestNativeCurrentLocation_starts env quiet armed H1 H2 Hperm H3)
      as (A & _ & F).
    rewrite <- E2 in A. rewrite <- E1 in F. rewrite A. split; [reflexivity|exact F]. }
  intros H3.
  pose proof (requestNativeCurrentLocation_busy env quiet armed H3) as B.
  rewrite B in E. injection E as <- <-. split; reflexivity.
Qed.

(** C8 on a phone: the first error, at 1700000000000 ms, starts the
    fallback; the one 500 ms later is ignored. *)
Lemma geoError_cooldown_gate_witness :
  let first := handleWebMessage_geoError phone 1700000000000 (initialScreen true) in
  snd first = Invoked {| recenter := false; silent := true |} None /\
  nativeFallbackCooldownRef (fst first) = 1700000000000%Z /\
  handleWebMessage_geoError phone 1700000000500 (fst first) = (fst first, NotInvoked).
Proof.
  destruct (geoError_cooldown_gate phone 1700000000000 (initialScreen true) eq_refl)
    as (_ & H).
  destruct (H ltac:(simpl; lia)) as (_ & T & _ & S1 & _).
  destruct (S1 eq_refl eq_refl eq_refl) as (I1 & _).
  split; [exact I1|]. split; [exact T|].
  destruct (geoError_cooldown_gate phone 1700000000500
              (fst (handleWebMessage_geoError phone 1700000000000 (initialScreen true)))
              eq_refl) as (G & _).
  apply G. simpl. lia.
Defined.

(** ** Draft submit: the optimistic update of the marker list *)

Lemma filter_twice {A : Type} (f : A -> bool) (l : list A) :
  filter f (filter f l) = filter f l.
Proof.
  induction l as [|x l IH]; simpl; [reflexivity|].
  destruct (f x) eqn:E; simpl; [rewrite E, IH|]; auto.
Qed.

Lemma filter_complement {A : Type} (f : A -> bool) (l : list A) :
  filter f (filter (fun x => negb (f x)) l) = [].
Proof.
  induction l as [|x l IH]; simpl; [reflexivity|].
  destruct (f x) eqn:E; simpl; [|rewrite E]; auto.
Qed.

(** The list after a successful submit: the marker first, then the markers
    of other ids as they were. *)
Lemma saveDraft_succeeded_list (created : MapMarker.t) (s : Screen) :
  let sameId := fun marker => Qeq_bool (MapMarker.id marker) (MapMarker.id created) in
  let otherId := fun marker => negb (sameId marker) in
  let s' := saveDraft_succeeded created s in
  markers s' = created :: filter otherId (markers s) /\
  filter sameId (markers s') = [created] /\
  filter otherId (markers s') = filter otherId (markers s) /\
  effects s'
  = effects s ++ [injectJavaScript_rnSetView
                    (MapMarker.lat created) (MapMarker.lng created) 15] /\
  selectedMarkerId s' = Some (MapMarker.id created) /\
  draft s' = None /\ savingDraft s' = false.
Proof.
  intros sameId otherId s'.
  assert (R : sameId created = true) by (apply Qeq_bool_iff; reflexivity).
  assert (M : markers s' = created :: filter otherId (markers s)) by reflexivity.
  split; [exact M|]. rewrite M.
  split.
  { simpl. rewrite R. f_equal. apply (filter_complement sameId). }
  split.
  { simpl. unfold otherId at 1. rewrite R. simpl. apply filter_twice. }
  repeat split; reflexivity.
Qed.

Section Submit.

Variable payload : Type.
Variable normalizeMarkers : payload -> list MapMarker.t.
Variable arrayOf : payload -> payload.

Local Abbreviation single := (normalizeSingleMarker payload normalizeMarkers arrayOf).
Local Abbreviation whenCreated := (saveDraft_created payload normalizeMarkers arrayOf).
Local Abbreviation whenUploaded := (saveDraft_uploaded payload normalizeMarkers arrayOf).

(** C10 (amended): the submit issues one request, POST when no marker is
    being edited and PATCH when one with a non-zero id is.  When the request
    returns a marker, [created], and no image is attached, the list becomes
    [created] followed by the prior markers of other ids in their order, so
    [created] is the only marker of its id and stands first, and no
    viewport request is made for it; an answer that is not a marker is a
    failure.  With an image attached the upload is requested only then, for
    the id of [created], and the list waits for it: when the upload
    succeeds the same update is made with the marker the upload returned
    (or [created]); when it fails the error is shown, no request is issued
    to undo the creation, and the list stays as it was. *)
Theorem saveDraft_update_on_whole_success
  (body : DraftMarker.t) (raw : payload) (s : Screen) :
  (editingId s = None ->
   effects (saveDraft_submit body s) = effects s ++ [POST_marker body]) /\
  (forall id, editingId s = Some id -> ~ id == 0 ->
   effects (saveDraft_submit body s) = effects s ++ [PATCH_marker id body]) /\
  (forall s1,
     whenCreated None (Fulfilled raw) s1
     = match single raw with
       | Some created => (saveDraft_succeeded created s1, None)
       | None =>
           (saveDraft_failed (ErrorObject "保存成功，但返回数据格式异常。" None) s1,
            None)
       end) /\
  (forall file s1,
     whenCreated (Some file) (Fulfilled raw) s1
     = match single raw with
       | Some created =>
           (perform (POST_marker_image (MapMarker.id created) file) s1, Some created)
       | None =>
           (saveDraft_failed (ErrorObject "保存成功，但返回数据格式异常。" None) s1,
            None)
       end) /\
  (forall file s1,
     markers (fst (whenCreated (Some file) (Fulfilled raw) s1)) = markers s1) /\
  (forall created raw' s2,
     whenUploaded created (Fulfilled raw') s2
     = saveDraft_succeeded (match single raw' with
                            | Some withImage => withImage
                            | None => created
                            end) s2) /\
  (forall created e s2,
     let s3 := whenUploaded created (Rejected e) s2 in
     effects s3 = effects s2 /\ markers s3 = markers s2 /\
     notice s3 = messageOr "保存失败" e /\ savingDraft s3 = false) /\
  (forall e image s1,
     let s2 := fst (whenCreated image (Rejected e) s1) in
     snd (whenCreated image (Rejected e) s1) = None /\
     effects s2 = effects s1 /\ markers s2 = markers s1 /\
     notice s2 = messageOr "保存失败" e /\ savingDraft s2 = false) /\
  (forall submitted s1,
     let sameId := fun marker =>
       Qeq_bool (MapMarker.id marker) (MapMarker.id submitted) in
     let otherId := fun marker => negb (sameId marker) in
     let s2 := saveDraft_succeeded submitted s1 in
     markers s2 = submitted :: filter otherId (markers s1) /\
     filter sameId (markers s2) = [submitted] /\
     filter otherId (markers s2) = filter otherId (markers s1) /\
     viewportRequests s2 = viewportRequests s1).
Proof.
  split.
  { intros E. unfold saveDraft_submit. rewrite E. reflexivity. }
  split.
  { intros id E N. unfold saveDraft_submit. rewrite E.
    destruct (Qeq_bool id 0) eqn:Z; [|reflexivity].
    apply Qeq_bool_iff in Z. contradiction. }
  split.
  { intros s1. unfold saveDraft_created. destruct (single raw); reflexivity. }
  split.
  { intros file s1. unfold saveDraft_created. destruct (single raw); reflexivity. }
  split.
  { intros file s1. unfold saveDraft_created. destruct (single raw); reflexivity. }
  split.
  { intros created raw' s2. unfold saveDraft_uploaded.
    destruct (single raw'); reflexivity. }
  split.
  { intros created e s2. cbv zeta. repeat split; reflexivity. }
  split.
  { intros e image s1. cbv zeta. repeat split; reflexivity. }
  intros submitted s1 sameId otherId s2.
  destruct (saveDraft_succeeded_list submitted s1) as (A & B & C & E & _).
  split; [exact A|]. split; [exact B|]. split; [exact C|].
  unfold viewportRequests, s2. rewrite E, flat_map_app. simpl.
  now rewrite app_nil_r.
Qed.

End Submit.

(** C10, as stated, fails when the image step fails.  On a screen that
    shows the markers 7 and 8 a draft with a photo is submitted, the server
    creates it as marker 9 and the upload is rejected: the list is still
    the markers 7 and 8, without the marker that was created, where the
    claim has marker 9 at the head. *)
Lemma saveDraft_upload_failure_keeps_list :
  let created := plainMarker 9 39.9 116.4 "Exit A" in
  let s1 := saveDraft_submit sampleDraft screenWithTwoMarkers in
  let r := saveDraft_created listPayload listNormalize listArrayOf
             (Some samplePhoto) (@Fulfilled listPayload [created]) s1 in
  let s3 := saveDraft_uploaded listPayload listNormalize listArrayOf
              created (Rejected (ErrorObject "upload failed" None)) (fst r) in
  effects (fst r) = [POST_marker sampleDraft; POST_marker_image 9 samplePhoto] /\
  snd r = Some created /\
  markers s3 = [plainMarker 7 39.9 116.4 "old"; plainMarker 8 39.9 116.5 "other"] /\
  ~ In created (markers s3) /\
  effects s3 = effects (fst r).
Proof.
  cbv zeta. split; [reflexivity|]. split; [reflexivity|].
  split; [reflexivity|]. split; [|reflexivity].
  intros [H|[H|[]]]; discriminate H.
Qed.

(** The amended C10 on a screen that shows the markers 7 and 8: a marker
    with the id 7 is being edited, so the request is a PATCH; a draft with
    a photo is submitted and the server returns marker 7; the upload is
    the second request; when it succeeds the list is the new marker 7 and
    then 8. *)
Lemma saveDraft_update_on_whole_success_witness :
  let created := plainMarker 7 39.9 116.4 "Exit A" in
  let s0 := set_editingId (Some 7) screenWithTwoMarkers in
  let s1 := saveDraft_submit sampleDraft s0 in
  let s2 := fst (saveDraft_created listPayload listNormalize listArrayOf
                   (Some samplePhoto) (@Fulfilled listPayload [created]) s1) in
  effects s1 = [PATCH_marker 7 sampleDraft] /\
  effects s2 = [PATCH_marker 7 sampleDraft; POST_marker_image 7 samplePhoto] /\
  markers (saveDraft_uploaded listPayload listNormalize listArrayOf
             created (@Fulfilled listPayload [created]) s2)
  = [created; plainMarker 8 39.9 116.5 "other"].
Proof.
  cbv zeta.
  destruct (saveDraft_update_on_whole_success listPayload listNormalize listArrayOf
              sampleDraft [plainMarker 7 39.9 116.4 "Exit A"]
              (set_editingId (Some 7) screenWithTwoMarkers))
    as (_ & P & _ & I & _ & U & _ & _ & L).
  assert (N : ~ 7 == 0) by (intros H; vm_compute in H; discriminate H).
  pose proof (P 7 eq_refl N) as E1.
  split; [exact E1|].
  rewrite (I samplePhoto). cbn [fst].
  split; [reflexivity|].
  rewrite U. exact (proj1 (L _ _)).
Defined.

(** * Further properties *)

(** ** Bounds and requests *)

Lemma Math_min_le_max (a b : Q) : Math_min a b <= Math_max a b.
Proof.
  destruct (Math_min_spec a b) as [[? ->]|[? ->]],
           (Math_max_spec a b) as [[? ->]|[? ->]]; lra.
Qed.

Lemma clamp_monotone (lo hi a b : Q) :
  a <= b -> Math_max lo (Math_min hi a) <= Math_max lo (Math_min hi b).
Proof.
  intros H.
  destruct (Math_min_spec hi a) as [[? Ea]|[? Ea]],
           (Math_min_spec hi b) as [[? Eb]|[? Eb]]; rewrite Ea, Eb;
    match goal with
    | |- Math_max ?l ?x <= Math_max ?l ?y =>
        destruct (Math_max_spec l x) as [[? E1]|[? E1]],
                 (Math_max_spec l y) as [[? E2]|[? E2]];
        try rewrite E1; try rewrite E2; lra
    end.
Qed.

Lemma Qgt_bool_iff (a b : Q) : Qgt_bool a b = true <-> b < a.
Proof.
  unfold Qgt_bool. rewrite negb_true_iff. split; intros H.
  - apply Qnot_le_lt. intros L. apply Qle_bool_iff in L. congruence.
  - destruct (Qle_bool a b) eqn:E; [|reflexivity].
    apply Qle_bool_iff in E. lra.
Qed.

Lemma moveend_bounds_finite_edges
  (lat lng zoom : number) (south north west east : Q) (s : Screen) :
  exists b,
    mapBounds (handleWebMessage_moveend lat lng zoom
                 (Finite south) (Finite north) (Finite west) (Finite east) s)
    = Some b /\
    ViewportBounds.minLat b <= ViewportBounds.maxLat b /\
    -90 <= ViewportBounds.minLat b /\ ViewportBounds.maxLat b <= 90 /\
    (-180 <= ViewportBounds.minLng b /\ ViewportBounds.minLng b <= 180) /\
    (-180 <= ViewportBounds.maxLng b /\ ViewportBounds.maxLng b <= 180) /\
    (ViewportBounds.wholeWorld b = true <->
     fl 359.999 - pow2 (-45) <= Qabs (east - west)
     /\ Qabs (east - west) < pow2 1024 - pow2 970) /\
    (ViewportBounds.wrapsAntimeridian b = true <->
     ViewportBounds.wholeWorld b = false /\
     ViewportBounds.maxLng b < ViewportBounds.minLng b).
Proof.
  pose proof (Math_min_le_max south north) as Hmm.
  assert (Hlat : clampLat (Math_min south north) <= clampLat (Math_max south north))
    by (apply clamp_monotone; exact Hmm).
  pose proof (clampLat_range (Math_min south north)) as [L1 _].
  pose proof (clampLat_range (Math_max south north)) as [_ U2].
  assert (Hcase : (fl 359.999 - pow2 (-45) <= Qabs (east - west)
                   /\ Qabs (east - west) < pow2 1024 - pow2 970)
                  \/ (Qabs (east - west) < fl 359.999 - pow2 (-45)
                      \/ pow2 1024 - pow2 970 <= Qabs (east - west))).
  { destruct (Qlt_le_dec (Qabs (east - west)) (fl 359.999 - pow2 (-45)));
      [right; left; assumption|].
    destruct (Qlt_le_dec (Qabs (east - west)) (pow2 1024 - pow2 970));
      [left; split; assumption|right; right; assumption]. }
  destruct Hcase as [[Hs Hf]|Hs].
  - eexists. split; [apply moveend_bounds_whole_world; assumption|].
    cbn [ViewportBounds.minLat ViewportBounds.maxLat ViewportBounds.minLng
         ViewportBounds.maxLng ViewportBounds.wholeWorld
         ViewportBounds.wrapsAntimeridian].
    split; [exact Hlat|]. split; [exact L1|]. split; [exact U2|].
    split; [split; lra|]. split; [split; lra|].
    split; [split; [intros _; split; assumption|reflexivity]|].
    split; [discriminate|]. intros [H' _]. discriminate H'.
  - eexists. split; [apply moveend_bounds_partial; exact Hs|].
    cbn [ViewportBounds.minLat ViewportBounds.maxLat ViewportBounds.minLng
         ViewportBounds.maxLng ViewportBounds.wholeWorld
         ViewportBounds.wrapsAntimeridian].
    pose proof (normalizeLng_range west) as [? ?].
    pose proof (normalizeLng_range east) as [? ?].
    split; [exact Hlat|]. split; [exact L1|]. split; [exact U2|].
    split; [split; lra|]. split; [split; lra|].
    split; [split; [discriminate|intros [G1 G2]; destruct Hs; lra]|].
    rewrite Qgt_bool_iff. split; [intros H'; split; [reflexivity|exact H']|].
    intros [_ H']. exact H'.
Qed.

(** The bounds stored by a move-end event with four finite edges: the
    latitudes are ordered and within [[-90, 90]], the longitudes within
    [[-180, 180]]; the bounds are whole-world exactly when the exact
    difference of the edges is at least half a step of the doubles below
    the double nearest to 359.999, a number between 359.999 - 2^-46 and
    359.999, and below 2^1024 - 2^970, from where on the rounded difference
    is an infinity; they wrap exactly when they are not whole-world and the
    west edge normalises east of the east edge.  An event with an edge that
    is not finite leaves the bounds as they were. *)
Theorem moveend_bounds_well_formed
  (lat lng zoom : number) (south north west east : Q) (s : Screen) :
  (exists b,
     mapBounds (handleWebMessage_moveend lat lng zoom
                  (Finite south) (Finite north) (Finite west) (Finite east) s)
     = Some b /\
     ViewportBounds.minLat b <= ViewportBounds.maxLat b /\
     -90 <= ViewportBounds.minLat b /\ ViewportBounds.maxLat b <= 90 /\
     (-180 <= ViewportBounds.minLng b /\ ViewportBounds.minLng b <= 180) /\
     (-180 <= ViewportBounds.maxLng b /\ ViewportBounds.maxLng b <= 180) /\
     (ViewportBounds.wholeWorld b = true <->
      fl 359.999 - pow2 (-45) <= Qabs (east - west)
      /\ Qabs (east - west) < pow2 1024 - pow2 970) /\
     (ViewportBounds.wrapsAntimeridian b = true <->
      ViewportBounds.wholeWorld b = false /\
      ViewportBounds.maxLng b < ViewportBounds.minLng b)) /\
  (359.999 - pow2 (-46) < fl 359.999 - pow2 (-45)
   /\ fl 359.999 - pow2 (-45) < 359.999) /\
  (forall so no we ea,
     Number_isFinite so && Number_isFinite no
     && Number_isFinite we && Number_isFinite ea = false ->
     mapBounds (handleWebMessage_moveend lat lng zoom so no we ea s) = mapBounds s).
Proof.
  split; [apply moveend_bounds_finite_edges|].
  split; [destruct literal_359_999 as (_ & _ & A & B); split; assumption|].
  intros so no we ea H. unfold handleWebMessage_moveend.
  destruct lat, lng, zoom, so, no, we, ea; simpl in H; try discriminate;
    reflexivity.
Qed.

(** At the edges 170 and 190 the bounds wrap and are not whole-world; with
    a south edge that is not a number the bounds stay unset. *)
Lemma moveend_bounds_well_formed_witness :
  (exists b,
     mapBounds (handleWebMessage_moveend (Finite 0) (Finite 0) (Finite 5)
                  (Finite (-10)) (Finite 10) (Finite 170) (Finite 190)
                  (initialScreen true)) = Some b /\
     ViewportBounds.wholeWorld b = false /\
     ViewportBounds.wrapsAntimeridian b = true) /\
  mapBounds (handleWebMessage_moveend (Finite 0) (Finite 0) (Finite 5)
               NotFinite (Finite 10) (Finite 0) (Finite 20) (initialScreen true))
  = None.
Proof.
  destruct (moveend_bounds_well_formed (Finite 0) (Finite 0) (Finite 5)
              (-10) 10 170 190 (initialScreen true))
    as [(b & E & _ & _ & _ & _ & _ & W & A) [_ H]].
  split.
  - exists b. split; [exact E|].
    assert (F : ViewportBounds.wholeWorld b = false).
    { destruct (ViewportBounds.wholeWorld b); [|reflexivity].
      destruct (proj1 W eq_refl) as [C _]. vm_compute in C.
      exfalso. apply C. reflexivity. }
    split; [exact F|].
    apply (proj2 A). split; [exact F|].
    vm_compute in E. injection E as <-. vm_compute. reflexivity.
  - exact (H NotFinite (Finite 10) (Finite 0) (Finite 20) eq_refl).
Defined.

(** Every request that a load issues for bounds stored by a move-end event
    is well formed: latitudes in order and a longitude range that does not
    wrap, within [[-180, 180]]; there are one or two of them, all for the
    categories of the call. *)
Theorem viewport_requests_well_formed
  (lat lng zoom : number) (south north west east : Q)
  (c : MarkerCategory) (cs : list MarkerCategory) (s s' : Screen)
  (b : ViewportBounds.t)
  (Hb : mapBounds (handleWebMessage_moveend lat lng zoom
                     (Finite south) (Finite north) (Finite west) (Finite east) s)
        = Some b) :
  let issued := requests (segments b (c :: cs)) in
  effects (fst (loadMarkersInViewport b (c :: cs) s'))
  = effects s' ++ map GET_markers_viewport issued /\
  (List.length issued = 1%nat \/ List.length issued = 2%nat) /\
  Forall (fun q => wellFormedQuery q /\ ViewportQuery.categories q = c :: cs) issued.
Proof.
  intros issued.
  destruct (loadMarkersInViewport_dispatch b c cs s') as (_ & _ & E & _).
  split; [exact E|].
  destruct (moveend_bounds_finite_edges lat lng zoom south north west east s)
    as (b' & Hb' & Hlat & _ & _ & (L1 & U1) & (L2 & U2) & _ & Hw).
  rewrite Hb in Hb'. injection Hb' as <-.
  unfold issued, segments.
  destruct (ViewportBounds.wholeWorld b) eqn:W.
  - split; [left; reflexivity|].
    repeat constructor; simpl; try assumption; lra.
  - destruct (ViewportBounds.wrapsAntimeridian b) eqn:A; simpl.
    + split; [right; reflexivity|].
      repeat constructor; simpl; try assumption; lra.
    + destruct (Qle_bool (ViewportBounds.minLng b) (ViewportBounds.maxLng b)) eqn:O.
      * apply Qle_bool_iff in O. split; [left; reflexivity|].
        repeat constructor; simpl; try assumption; lra.
      * split; [right; reflexivity|].
        repeat constructor; simpl; try assumption; lra.
Qed.

Lemma viewport_requests_well_formed_witness :
  Forall wellFormedQuery
    (requests (segments
       {| ViewportBounds.minLat := clampLat (Math_min (-10) 10);
          ViewportBounds.maxLat := clampLat (Math_max (-10) 10);
          ViewportBounds.minLng := normalizeLng 170;
          ViewportBounds.maxLng := normalizeLng 190;
          ViewportBounds.wrapsAntimeridian :=
            Qgt_bool (normalizeLng 170) (normalizeLng 190);
          ViewportBounds.wholeWorld := false |} [friendly_clinic])).
Proof.
  assert (Hspan : Qabs (190 - 170) < fl 359.999 - pow2 (-45)
                  \/ pow2 1024 - pow2 970 <= Qabs (190 - 170))
    by (left; vm_compute; reflexivity).
  destruct (viewport_requests_well_formed (Finite 0) (Finite 180) (Finite 5)
              (-10) 10 170 190 friendly_clinic [] (initialScreen true)
              (initialScreen true) _
              (moveend_bounds_partial _ _ _ _ _ _ _ _ Hspan)) as (_ & _ & F).
  eapply Forall_impl; [|exact F]. intros q [H _]. exact H.
Defined.

(** ** The renderer's longitude wrap *)

Lemma rnSetView_safeLng_normalizeLng (lng : Q) :
  rnSetView_safeLng lng == normalizeLng lng.
Proof. symmetry. apply normalizeLng_unclamped. Qed.

(** [__rnSetView] wraps a longitude by the operations of [normalizeLng],
    roundings included: the longitude it passes to the map is the value
    [normalizeLng] gives, so the clamp that ends [normalizeLng] never acts,
    and it is in [[-180, 180)].  The renderer rounds again what the app has
    normalised: such a longitude reaches the map as it is when it was in
    [[-180, 180)] before the app normalised it, or when the app normalised
    it twice; in general it reaches the map moved by at most a whole turn
    and 2^-42. *)
Theorem rnSetView_agrees_with_normalizeLng (lat lng : Q) (zoom : number) (z0 : Q) :
  exists view,
    rnSetView (Finite lat) (Finite lng) zoom z0 = Some view /\
    LatLngZoom.latitude view = lat /\
    LatLngZoom.longitude view == normalizeLng lng /\
    (-180 <= LatLngZoom.longitude view /\ LatLngZoom.longitude view < 180) /\
    (-180 <= lng -> lng < 180 ->
     rnSetView_safeLng (normalizeLng lng) == normalizeLng lng) /\
    rnSetView_safeLng (normalizeLng (normalizeLng lng))
    == normalizeLng (normalizeLng lng) /\
    (exists turns : Z,
       Qabs (rnSetView_safeLng (normalizeLng lng)
             - (normalizeLng lng - 360 * inject_Z turns)) <= pow2 (-42)).
Proof.
  eexists. split; [reflexivity|].
  cbn [LatLngZoom.latitude LatLngZoom.longitude].
  pose proof (normalizeLng_range lng) as [L U].
  split; [reflexivity|].
  split; [apply rnSetView_safeLng_normalizeLng|].
  split; [rewrite rnSetView_safeLng_normalizeLng; split; assumption|].
  split.
  { intros A B. rewrite rnSetView_safeLng_normalizeLng.
    apply normalizeLng_settled; assumption. }
  split.
  { rewrite rnSetView_safeLng_normalizeLng.
    apply normalizeLng_settled; assumption. }
  destruct (normalizeLng_again lng) as [k Hk]. exists k.
  rewrite rnSetView_safeLng_normalizeLng. exact Hk.
Qed.

(** The renderer at the longitude 116.4074 of the initial view. *)
Lemma rnSetView_agrees_with_normalizeLng_witness :
  rnSetView_safeLng (normalizeLng 116.4074) == normalizeLng 116.4074.
Proof.
  destruct (rnSetView_agrees_with_normalizeLng 39.9042 116.4074 (Finite 11) 11)
    as (view & _ & _ & _ & _ & H & _).
  apply H; [vm_compute; discriminate|vm_compute; reflexivity].
Defined.

(** ** Stored camera *)

Lemma parseStoredViewport_persisted (v : LatLngZoom.t) :
  parseStoredViewport (storedItemOf (persistedViewport v))
  = Some (persistedViewport (persistedViewport v)).
Proof. reflexivity. Qed.

Lemma clamp_twice (lo hi x : Q) :
  lo <= hi ->
  Math_max lo (Math_min hi (Math_max lo (Math_min hi x)))
  == Math_max lo (Math_min hi x).
Proof.
  intros H. destruct (clamp_range lo hi x H) as [A B].
  apply clamp_inside; assumption.
Qed.

(** Written again, a camera whose longitude is in [[-180, 180)] keeps the
    numbers of its first writing. *)
Lemma persistedViewport_again (u : LatLngZoom.t) :
  -180 <= LatLngZoom.longitude u -> LatLngZoom.longitude u < 180 ->
  sameCamera (persistedViewport (persistedViewport u)) (persistedViewport u).
Proof.
  intros L U. split; [apply clamp_twice; lra|]. split; [|apply clamp_twice; lra].
  apply normalizeLng_settled; assumption.
Qed.

Lemma sameCamera_trans (a b c : LatLngZoom.t) :
  sameCamera a b -> sameCamera b c -> sameCamera a c.
Proof.
  intros (A1 & A2 & A3) (B1 & B2 & B3).
  split; [rewrite A1; exact B1|]. split; [rewrite A2; exact B2|].
  rewrite A3. exact B3.
Qed.

(** The camera that the persistence timer writes is read back with the
    latitude and the zoom that were written and within the invariant.  Its
    longitude is the one written when the camera in memory had its
    longitude in [[-180, 180)], as every camera of the screen has; for any
    camera it is the one written up to a whole turn and 2^-42, and a camera
    that was read back is written and read back unchanged. *)
Theorem stored_camera_round_trip (v : LatLngZoom.t) :
  exists c,
    parseStoredViewport (storedItemOf (persistedViewport v)) = Some c /\
    cameraInvariant c /\
    LatLngZoom.latitude c == LatLngZoom.latitude (persistedViewport v) /\
    LatLngZoom.zoom c == LatLngZoom.zoom (persistedViewport v) /\
    (-180 <= LatLngZoom.longitude v -> LatLngZoom.longitude v < 180 ->
     sameCamera c (persistedViewport v)) /\
    (exists turns : Z,
       Qabs (LatLngZoom.longitude c
             - (LatLngZoom.longitude (persistedViewport v) - 360 * inject_Z turns))
       <= pow2 (-42)) /\
    (exists c',
       parseStoredViewport (storedItemOf (persistedViewport c)) = Some c' /\
       sameCamera c' c).
Proof.
  exists (persistedViewport (persistedViewport v)).
  split; [apply parseStoredViewport_persisted|].
  split; [apply persistedViewport_invariant|].
  assert (A : LatLngZoom.latitude (persistedViewport (persistedViewport v))
              == LatLngZoom.latitude (persistedViewport v))
    by (apply clamp_twice; lra).
  assert (B : LatLngZoom.zoom (persistedViewport (persistedViewport v))
              == LatLngZoom.zoom (persistedViewport v))
    by (apply clamp_twice; lra).
  split; [exact A|]. split; [exact B|].
  split; [apply persistedViewport_again|].
  split; [apply normalizeLng_again|].
  pose proof (persistedViewport_invariant v) as (_ & (L1 & U1) & _).
  pose proof (persistedViewport_invariant (persistedViewport v)) as (_ & (L2 & U2) & _).
  eexists. split; [apply parseStoredViewport_persisted|].
  eapply sameCamera_trans;
    [apply persistedViewport_again; assumption
    |apply persistedViewport_again; assumption].
Qed.

(** The initial view, stored and read back. *)
Lemma stored_camera_round_trip_witness :
  exists c,
    parseStoredViewport (storedItemOf (persistedViewport INITIAL_VIEW)) = Some c /\
    sameCamera c (persistedViewport INITIAL_VIEW).
Proof.
  destruct (stored_camera_round_trip INITIAL_VIEW) as (c & E & _ & _ & _ & S & _).
  exists c. split; [exact E|].
  apply S; [vm_compute; discriminate|vm_compute; reflexivity].
Defined.

(** ** Startup camera *)

Lemma setViewRequests_perform (e : Effect) (s : Screen) :
  setViewRequests (perform e s)
  = setViewRequests s ++
    match e with
    | injectJavaScript_rnSetView la lo zo =>
        [{| LatLngZoom.latitude := la; LatLngZoom.longitude := lo;
            LatLngZoom.zoom := zo |}]
    | _ => []
    end.
Proof.
  unfold setViewRequests, perform. simpl. rewrite flat_map_app. simpl.
  now rewrite app_nil_r.
Qed.

Lemma INITIAL_VIEW_invariant : cameraInvariant INITIAL_VIEW.
Proof. unfold cameraInvariant, INITIAL_VIEW; simpl. lra. Qed.

Lemma startupStep_invariant (st : Startup) (e : StartupEvent) :
  startupInvariant st -> startupInvariant (startupStep st e).
Proof.
  intros [H1 H2]. unfold startupInvariant.
  destruct e as [raw| |la lo|act|act]; simpl.
  - split.
    + unfold restoreSession.
      destruct (parseStoredViewport raw); exact H1.
    + pose proof (parseStoredViewport_invariant raw) as P.
      destruct (parseStoredViewport raw); assumption.
  - split; assumption.
  - split; assumption.
  - destruct (negb act || negb (mapReady st) || negb (sessionRestored (screen st)));
      [split; assumption|].
    destruct (startupCameraAppliedRef st) eqn:A; [rewrite A; split; assumption|].
    destruct (userLocation (screen st)) as [[la lo]|]; [|rewrite A; split; assumption].
    unfold applyStartupCamera. rewrite A. simpl.
    split; [|assumption]. rewrite setViewRequests_perform, H1. reflexivity.
  - destruct (negb act || negb (mapReady st) || negb (sessionRestored (screen st)));
      [split; assumption|].
    destruct (startupCameraAppliedRef st) eqn:A; [rewrite A; split; assumption|].
    destruct (userLocation (screen st)) as [[la lo]|]; [rewrite A; split; assumption|].
    unfold applyStartupCamera. rewrite A. simpl.
    split; [|assumption]. rewrite setViewRequests_perform, H1. reflexivity.
Qed.

(** The cameras requested so far, when no fix arrived, satisfy the
    invariant. *)
Lemma startupStep_fallback_cameras (st : Startup) (e : StartupEvent) :
  startupInvariant st ->
  userLocation (screen st) = None ->
  (forall la lo, e <> UserLocationFix la lo) ->
  Forall cameraInvariant (setViewRequests (screen st)) ->
  userLocation (screen (startupStep st e)) = None /\
  Forall cameraInvariant (setViewRequests (screen (startupStep st e))).
Proof.
  intros [H1 H2] Hu Hne F.
  destruct e as [raw| |la lo|act|act]; simpl.
  - unfold restoreSession. destruct (parseStoredViewport raw); simpl; auto.
  - auto.
  - exfalso. exact (Hne la lo eq_refl).
  - destruct (negb act || negb (mapReady st) || negb (sessionRestored (screen st)));
      [auto|].
    destruct (startupCameraAppliedRef st); [auto|]. rewrite Hu. auto.
  - destruct (negb act || negb (mapReady st) || negb (sessionRestored (screen st)));
      [auto|].
    destruct (startupCameraAppliedRef st) eqn:A; [auto|]. rewrite Hu.
    unfold applyStartupCamera. rewrite A. simpl. split; [exact Hu|].
    rewrite setViewRequests_perform. apply Forall_app. split; [exact F|].
    constructor; [|constructor].
    destruct (restoredViewportRef st) as [r|].
    + destruct r; exact H2.
    + exact INITIAL_VIEW_invariant.
Qed.

(** What one step adds to the cameras asked for: nothing, or the fallback
    camera at a timer that fires without a fix, or the fix at zoom 15 at
    the effect on the user location. *)
Lemma startupStep_requests (st : Startup) (e : StartupEvent) :
  setViewRequests (screen (startupStep st e)) = setViewRequests (screen st)
  \/ exists c,
       setViewRequests (screen (startupStep st e))
       = setViewRequests (screen st) ++ [c] /\
       ((e = FallbackTimer true /\ userLocation (screen st) = None /\
         c = match restoredViewportRef st with
             | Some restored => restored
             | None => INITIAL_VIEW
             end)
        \/ (e = LocationEffect true /\
            exists la lo, userLocation (screen st) = Some (la, lo) /\
              c = {| LatLngZoom.latitude := la; LatLngZoom.longitude := lo;
                     LatLngZoom.zoom := 15 |})).
Proof.
  destruct e as [raw| |la lo|act|act]; simpl.
  - left. unfold restoreSession. destruct (parseStoredViewport raw); reflexivity.
  - left. reflexivity.
  - left. reflexivity.
  - destruct act; simpl; [|left; reflexivity].
    destruct (negb (mapReady st) || negb (sessionRestored (screen st)));
      [left; reflexivity|].
    destruct (startupCameraAppliedRef st) eqn:A; [left; reflexivity|].
    destruct (userLocation (screen st)) as [[la lo]|] eqn:U; [|left; reflexivity].
    right. unfold applyStartupCamera. rewrite A. simpl.
    rewrite setViewRequests_perform. eexists. split; [reflexivity|].
    right. split; [reflexivity|]. exists la, lo. split; reflexivity.
  - destruct act; simpl; [|left; reflexivity].
    destruct (negb (mapReady st) || negb (sessionRestored (screen st)));
      [left; reflexivity|].
    destruct (startupCameraAppliedRef st) eqn:A; [left; reflexivity|].
    destruct (userLocation (screen st)) as [[la lo]|] eqn:U; [left; reflexivity|].
    right. unfold applyStartupCamera. rewrite A. simpl.
    rewrite setViewRequests_perform. eexists. split; [reflexivity|].
    left. split; [reflexivity|]. split; [reflexivity|].
    destruct (restoredViewportRef st) as [[? ? ?]|]; reflexivity.
Qed.

(** Only a restore with a stored camera that parses changes the restored
    camera. *)
Lemma startupStep_restoredViewportRef (st : Startup) (e : StartupEvent) :
  restoredViewportRef (startupStep st e)
  = match e with
    | SessionRestored raw =>
        match parseStoredViewport raw with
        | Some savedViewport => Some savedViewport
        | None => restoredViewportRef st
        end
    | _ => restoredViewportRef st
    end.
Proof.
  destruct e as [raw| |la lo|act|act]; simpl; try reflexivity.
  - destruct (negb act || negb (mapReady st) || negb (sessionRestored (screen st)));
      [reflexivity|].
    destruct (startupCameraAppliedRef st) eqn:A; [reflexivity|].
    destruct (userLocation (screen st)) as [[la lo]|]; [|reflexivity].
    unfold applyStartupCamera. rewrite A. reflexivity.
  - destruct (negb act || negb (mapReady st) || negb (sessionRestored (screen st)));
      [reflexivity|].
    destruct (startupCameraAppliedRef st) eqn:A; [reflexivity|].
    destruct (userLocation (screen st)) as [[la lo]|]; [reflexivity|].
    unfold applyStartupCamera. rewrite A. reflexivity.
Qed.

(** From the mounted screen, whatever the order of the startup events, the
    renderer is asked at most once for a startup camera, and later events
    change nothing about it.  A camera asked for is the fallback of a timer
    that fired while there was no fix, which is the camera restored by then
    or, when none was, the initial view; or it is the fix, at zoom 15, of
    the effect on the user location.  The camera restored by then is the
    one parsed from the last stored item that parses.  As long as no fix
    has arrived, the camera asked for satisfies the camera invariant. *)
Theorem startup_camera_applied_once (permission : bool) (events : list StartupEvent) :
  let st := fold_left startupStep events (initialStartup permission) in
  (List.length (setViewRequests (screen st)) <= 1)%nat /\
  (startupCameraAppliedRef st = true ->
   forall e, setViewRequests (screen (startupStep st e)) = setViewRequests (screen st)) /\
  ((forall la lo, ~ In (UserLocationFix la lo) events) ->
   Forall cameraInvariant (setViewRequests (screen st))) /\
  (forall c, In c (setViewRequests (screen st)) ->
   exists before after,
     let st0 := fold_left startupStep before (initialStartup permission) in
     (events = before ++ FallbackTimer true :: after /\
      userLocation (screen st0) = None /\
      c = match restoredViewportRef st0 with
          | Some restored => restored
          | None => INITIAL_VIEW
          end)
     \/ (events = before ++ LocationEffect true :: after /\
         exists la lo,
           userLocation (screen st0) = Some (la, lo) /\
           c = {| LatLngZoom.latitude := la; LatLngZoom.longitude := lo;
                  LatLngZoom.zoom := 15 |})) /\
  match restoredViewportRef st with
  | None =>
      forall raw, In (SessionRestored raw) events -> parseStoredViewport raw = None
  | Some c =>
      exists pre raw post,
        events = pre ++ SessionRestored raw :: post /\
        parseStoredViewport raw = Some c /\
        forall raw', In (SessionRestored raw') post -> parseStoredViewport raw' = None
  end.
Proof.
  assert (I0 : startupInvariant (initialStartup permission))
    by (split; reflexivity).
  assert (Hall : forall evs st0, startupInvariant st0 ->
                 startupInvariant (fold_left startupStep evs st0)).
  { induction evs as [|e evs IH]; intros st0 H0; simpl; [exact H0|].
    apply IH. now apply startupStep_invariant. }
  intros st. pose proof (Hall events _ I0) as [H1 H2]. fold st in H1, H2.
  split.
  { destruct (startupCameraAppliedRef st); [rewrite H1; lia|rewrite H1; simpl; lia]. }
  split.
  { intros A e.
    destruct e as [raw| |la lo|act|act]; simpl; try reflexivity.
    - unfold restoreSession. destruct (parseStoredViewport raw); reflexivity.
    - destruct (negb act || negb (mapReady st) || negb (sessionRestored (screen st)));
        [reflexivity|]. rewrite A. reflexivity.
    - destruct (negb act || negb (mapReady st) || negb (sessionRestored (screen st)));
        [reflexivity|]. rewrite A. reflexivity. }
  split.
  { intros Hno.
    assert (G : forall evs st0,
              startupInvariant st0 -> userLocation (screen st0) = None ->
              Forall cameraInvariant (setViewRequests (screen st0)) ->
              (forall la lo, ~ In (UserLocationFix la lo) evs) ->
              Forall cameraInvariant
                (setViewRequests (screen (fold_left startupStep evs st0)))).
    { induction evs as [|e evs IH]; intros st0 J U F N; simpl; [exact F|].
      assert (Ne : forall la lo, e <> UserLocationFix la lo)
        by (intros la lo ->; apply (N la lo); now left).
      destruct (startupStep_fallback_cameras st0 e J U Ne F) as [U' F'].
      apply IH; [now apply startupStep_invariant|exact U'|exact F'|].
      intros la lo Hin. apply (N la lo). now right. }
    apply G; [exact I0|reflexivity|constructor|exact Hno]. }
  clear H1 H2. unfold st. clear st. split.
  - induction events as [|e events IH] using rev_ind; [intros c []|].
    intros c Hc. rewrite fold_left_app in Hc. simpl in Hc.
    assert (Old : In c (setViewRequests
                          (screen (fold_left startupStep events
                                     (initialStartup permission)))) ->
                  exists before after,
                    let st0 := fold_left startupStep before (initialStartup permission) in
                    (events ++ [e] = before ++ FallbackTimer true :: after /\
                     userLocation (screen st0) = None /\
                     c = match restoredViewportRef st0 with
                         | Some restored => restored
                         | None => INITIAL_VIEW
                         end)
                    \/ (events ++ [e] = before ++ LocationEffect true :: after /\
                        exists la lo,
                          userLocation (screen st0) = Some (la, lo) /\
                          c = {| LatLngZoom.latitude := la;
                                 LatLngZoom.longitude := lo;
                                 LatLngZoom.zoom := 15 |})).
    { intros Hin. destruct (IH c Hin) as (before & after & D).
      exists before, (after ++ [e]). cbv zeta in D. cbv zeta.
      destruct D as [(E & U & C)|(E & la & lo & U & C)].
      - left. split; [|split; assumption].
        rewrite E, <- app_assoc. reflexivity.
      - right. split; [|exists la, lo; split; assumption].
        rewrite E, <- app_assoc. reflexivity. }
    destruct (startupStep_requests
                (fold_left startupStep events (initialStartup permission)) e)
      as [Same|(c' & Add & D)].
    + rewrite Same in Hc. apply Old. exact Hc.
    + rewrite Add in Hc. apply in_app_or in Hc. destruct Hc as [Hc|[<-|[]]].
      * apply Old. exact Hc.
      * exists events, []. cbv zeta.
        destruct D as [(-> & U & C)|(-> & la & lo & U & C)].
        -- left. split; [reflexivity|split; assumption].
        -- right. split; [reflexivity|exists la, lo; split; assumption].
  - induction events as [|e events IH] using rev_ind; [intros raw []|].
    rewrite fold_left_app. simpl. rewrite startupStep_restoredViewportRef.
    set (st := fold_left startupStep events (initialStartup permission)) in *.
    assert (Keep : match restoredViewportRef st with
                   | None =>
                       forall raw, In (SessionRestored raw) events ->
                                   parseStoredViewport raw = None
                   | Some c =>
                       exists pre raw post,
                         events = pre ++ SessionRestored raw :: post /\
                         parseStoredViewport raw = Some c /\
                         forall raw', In (SessionRestored raw') post ->
                                      parseStoredViewport raw' = None
                   end ->
                   (forall raw, e = SessionRestored raw ->
                                parseStoredViewport raw = None) ->
                   match restoredViewportRef st with
                   | None =>
                       forall raw, In (SessionRestored raw) (events ++ [e]) ->
                                   parseStoredViewport raw = None
                   | Some c =>
                       exists pre raw post,
                         events ++ [e] = pre ++ SessionRestored raw :: post /\
                         parseStoredViewport raw = Some c /\
                         forall raw', In (SessionRestored raw') post ->
                                      parseStoredViewport raw' = None
                   end).
    { intros K Ne. destruct (restoredViewportRef st) as [c|].
      - destruct K as (pre & raw & post & E & P & N).
        exists pre, raw, (post ++ [e]). split; [rewrite E, <- app_assoc; reflexivity|].
        split; [exact P|]. intros raw' Hin. apply in_app_or in Hin.
        destruct Hin as [Hin|[Hin|[]]]; [apply N; exact Hin|apply Ne; exact Hin].
      - intros raw Hin. apply in_app_or in Hin.
        destruct Hin as [Hin|[Hin|[]]]; [apply K; exact Hin|apply Ne; exact Hin]. }
    destruct e as [raw| |la lo|act|act];
      try (apply Keep; [exact IH|intros raw0 Hraw; discriminate Hraw]).
    destruct (parseStoredViewport raw) as [c|] eqn:P.
    + exists events, raw, []. split; [reflexivity|]. split; [exact P|].
      intros raw' [].
    + apply Keep; [exact IH|]. intros raw0 Hraw. injection Hraw as <-. exact P.
Qed.

(** Two runs: a stored camera out of range is restored within the invariant
    and asked for once, and a later fix asks for nothing more; with nothing
    stored the camera asked for is the initial view. *)
Lemma startup_camera_applied_once_witness :
  setViewRequests
    (screen (fold_left startupStep
               [MapReady; SessionRestored (ItemParsed (Finite 95) (Finite 190) (Finite 2));
                FallbackTimer true; UserLocationFix 10 20; LocationEffect true]
               (initialStartup true)))
  = [{| LatLngZoom.latitude := 90; LatLngZoom.longitude := -170;
        LatLngZoom.zoom := 3 |}] /\
  (setViewRequests
     (screen (fold_left startupStep
                [MapReady; SessionRestored ItemAbsent; FallbackTimer true]
                (initialStartup true)))
   = [INITIAL_VIEW] /\
   cameraInvariant INITIAL_VIEW).
Proof.
  split.
  - pose proof (startup_camera_applied_once true
                  [MapReady;
                   SessionRestored (ItemParsed (Finite 95) (Finite 190) (Finite 2));
                   FallbackTimer true; UserLocationFix 10 20]) as T.
    cbv zeta in T. destruct T as (_ & H & _).
    etransitivity; [exact (H eq_refl (LocationEffect true))|].
    vm_compute. reflexivity.
  - pose proof (startup_camera_applied_once true
                  [MapReady; SessionRestored ItemAbsent; FallbackTimer true]) as T.
    cbv zeta in T. destruct T as (_ & _ & H & _).
    assert (N : forall la lo : Q,
              ~ In (UserLocationFix la lo)
                  [MapReady; SessionRestored ItemAbsent; FallbackTimer true]).
    { intros la lo [F|[F|[F|[]]]]; discriminate F. }
    specialize (H N).
    assert (E : setViewRequests
                  (screen (fold_left startupStep
                             [MapReady; SessionRestored ItemAbsent; FallbackTimer true]
                             (initialStartup true)))
                = [INITIAL_VIEW]) by (vm_compute; reflexivity).
    split; [exact E|]. rewrite E in H. inversion H. assumption.
Defined.

(** ** Runs of the marker query coordinator *)

Section QueryRunFacts.

Variable payload : Type.
Variable normalizeMarkers : payload -> list MapMarker.t.

Local Abbreviation step := (queryStep payload normalizeMarkers).
Local Abbreviation settle := (loadMarkersInViewport_settled payload normalizeMarkers).

Lemma settled_keeps_counter
  (pd : Pending) (r : settled (Payloads payload (plan pd))) (s : Screen) :
  markerQuerySeqRef (settle pd r s) = markerQuerySeqRef s /\
  effects (settle pd r s) = effects s /\
  (hasLoadedMarkersRef s = true ->
   hasLoadedMarkersRef (settle pd r s) = true /\ loading (settle pd r s) = loading s).
Proof.
  unfold loadMarkersInViewport_settled.
  destruct r as [p|e];
    destruct (Nat.eqb (seq pd) (markerQuerySeqRef s)) eqn:E; simpl; rewrite ?E; simpl;
    destruct (hasLoadedMarkersRef s) eqn:L; simpl; rewrite ?L;
    repeat split; try reflexivity; try discriminate.
Qed.

Lemma load_without_category (bounds : ViewportBounds.t) (s : Screen) :
  markers (fst (loadMarkersInViewport bounds [] s)) = [] /\
  markerQuerySeqRef (fst (loadMarkersInViewport bounds [] s)) = markerQuerySeqRef s /\
  hasLoadedMarkersRef (fst (loadMarkersInViewport bounds [] s)) = true /\
  (hasLoadedMarkersRef s = true ->
   loading (fst (loadMarkersInViewport bounds [] s)) = loading s).
Proof.
  unfold loadMarkersInViewport. cbv zeta. cbn [fst].
  destruct s as [? ? ? ? ? ? ? ? ? ? ? ? ? ? ? ? ? hl ?]. simpl.
  destruct hl; simpl; repeat split; try reflexivity; intros H; discriminate H.
Qed.

Lemma load_keeps_loaded
  (bounds : ViewportBounds.t) (categories : list MarkerCategory) (s : Screen) :
  markerQuerySeqRef (fst (loadMarkersInViewport bounds categories s))
  = (markerQuerySeqRef s + match categories with [] => 0 | _ :: _ => 1 end)%nat /\
  (hasLoadedMarkersRef s = true ->
   hasLoadedMarkersRef (fst (loadMarkersInViewport bounds categories s)) = true /\
   loading (fst (loadMarkersInViewport bounds categories s)) = loading s).
Proof.
  destruct categories as [|c cs].
  - destruct (load_without_category bounds s) as (_ & Q & H & L).
    split; [rewrite Q; lia|]. intros E. split; [exact H|exact (L E)].
  - destruct (loadMarkersInViewport_dispatch bounds c cs s) as (_ & Q & _ & _ & _ & H).
    split; [rewrite Q; lia|]. intros E. split; [rewrite H; exact E|].
    unfold loadMarkersInViewport. cbv zeta. cbn [fst].
    match goal with
    | |- context [fold_left ?f ?qs ?s2] =>
        destruct (perform_all_keeps qs s2) as (_ & _ & _ & _ & K)
    end.
    rewrite K. simpl. rewrite E. reflexivity.
Qed.

(** Over any run of calls and completions the sequence number grows by
    one for each call that has a category and never otherwise, so it counts
    the requests dispatched; and once a first load has completed, the flag
    stays set and no later call or completion touches the loading
    indicator. *)
Theorem query_run_counter_and_loading (events : list (QueryEvent payload)) (s : Screen) :
  let s' := fold_left step events s in
  markerQuerySeqRef s'
  = (markerQuerySeqRef s + List.length (filter (dispatches payload) events))%nat /\
  (hasLoadedMarkersRef s = true ->
   hasLoadedMarkersRef s' = true /\ loading s' = loading s).
Proof.
  revert s. induction events as [|e events IH]; intros s; simpl.
  - split; [lia|auto].
  - destruct (IH (step s e)) as [Q L].
    assert (K : markerQuerySeqRef (step s e)
                = (markerQuerySeqRef s + if dispatches payload e then 1 else 0)%nat /\
                (hasLoadedMarkersRef s = true ->
                 hasLoadedMarkersRef (step s e) = true /\ loading (step s e) = loading s)).
    { destruct e as [b cats|pd r]; simpl.
      - destruct (load_keeps_loaded b cats s) as [A B]. split; [|exact B].
        rewrite A. destruct cats; reflexivity.
      - destruct (settled_keeps_counter pd r s) as (A & _ & B).
        split; [rewrite A; lia|exact B]. }
    destruct K as [K1 K2]. split.
    + rewrite Q, K1. destruct (dispatches payload e); simpl; lia.
    + intros H. destruct (K2 H) as [H1 H2]. destruct (L H1) as [H3 H4].
      split; [exact H3|]. rewrite H4. exact H2.
Qed.

(** The fast path for an empty category list does not supersede a request
    in flight: it takes no sequence number, so the answer to the earlier
    call is still current when it arrives and replaces the emptied list. *)
Theorem empty_categories_do_not_cancel
  (b b' : ViewportBounds.t) (c : MarkerCategory) (cs : list MarkerCategory)
  (s : Screen) (answer : Payloads payload (plan {| seq := S (markerQuerySeqRef s);
                                                   plan := segments b (c :: cs) |})) :
  let pd := {| seq := S (markerQuerySeqRef s); plan := segments b (c :: cs) |} in
  let s1 := fst (loadMarkersInViewport b (c :: cs) s) in
  let s2 := fst (loadMarkersInViewport b' [] s1) in
  snd (loadMarkersInViewport b (c :: cs) s) = Some pd /\
  markers s2 = [] /\
  markers (settle pd (Fulfilled answer) s2)
  = mergedMarkers payload normalizeMarkers (plan pd) answer.
Proof.
  intros pd s1 s2.
  destruct (loadMarkersInViewport_dispatch b c cs s) as (P & Q & _).
  destruct (load_without_category b' s1) as (M & Q2 & _).
  split; [exact P|]. split; [exact M|].
  apply (current_completion_applied payload normalizeMarkers pd answer s2).
  fold s1 in Q. fold s2 in Q2. rewrite Q2, Q. reflexivity.
Qed.

End QueryRunFacts.

Lemma query_run_counter_and_loading_witness :
  let s0 := fold_left (queryStep listPayload listNormalize)
              [Load sampleBounds [accessible_toilet];
               Settle {| seq := 1; plan := segments sampleBounds [accessible_toilet] |}
                      (@Fulfilled listPayload [])]
              (initialScreen true) in
  let s := fold_left (queryStep listPayload listNormalize)
             [Load sampleBounds []; Load sampleBounds [friendly_clinic]] s0 in
  markerQuerySeqRef s = 2%nat /\ loading s = false.
Proof.
  intros s0 s.
  assert (H : hasLoadedMarkersRef s0 = true) by (vm_compute; reflexivity).
  destruct (query_run_counter_and_loading listPayload listNormalize
              [Load sampleBounds []; Load sampleBounds [friendly_clinic]] s0)
    as [N L].
  destruct (L H) as [_ E]. split.
  - fold s in N. rewrite N. vm_compute. reflexivity.
  - fold s in E. rewrite E. vm_compute. reflexivity.
Defined.

(** ** Native location: permission, notices, re-centring *)

(** A native failure with the code [LOCATION_PERMISSION_DENIED] withdraws
    the permission flag, and from then on neither a [geoError] event nor a
    direct call starts anything: the state stays as it is and no OS request
    is made.  A failure with any other code leaves the flag. *)
Theorem permission_denied_stops_native_requests
  (opts : LocateOptions) (e : thrown) (s : Screen) :
  let s' := fst (requestNativeCurrentLocation_settled opts (Rejected e) s) in
  (nativeCode e = "LOCATION_PERMISSION_DENIED"%string ->
   locationPermissionGranted s' = false /\
   (forall env now, handleWebMessage_geoError env now s' = (s', NotInvoked)) /\
   (forall env o, requestNativeCurrentLocation env o s' = (s', Some false))) /\
  (nativeCode e <> "LOCATION_PERMISSION_DENIED"%string ->
   locationPermissionGranted s' = locationPermissionGranted s).
Proof.
  cbv zeta. unfold requestNativeCurrentLocation_settled, requestNativeCurrentLocation_catch.
  split.
  - intros H. rewrite H. rewrite String.eqb_refl.
    assert (P : locationPermissionGranted
                  (fst (let (s1, ok) :=
                          (if silent opts then set_locationPermissionGranted false s
                           else showNotice
                                  ("原生定位失败：" ++
                                   match e with
                                   | ErrorObject message _ =>
                                       if (message =? "")%string
                                       then "定位失败，请稍后重试。"%string else message
                                   | OtherThrown _ => "定位失败，请稍后重试。"%string
                                   end) (set_locationPermissionGranted false s), false)
                        in (set_nativeLocateInFlightRef false s1, ok))) = false)
      by (destruct (silent opts); reflexivity).
    split; [exact P|]. split.
    + intros env now. unfold handleWebMessage_geoError. rewrite P. reflexivity.
    + intros env o. unfold requestNativeCurrentLocation. rewrite P.
      destruct (supportsNativeLocation env); reflexivity.
  - intros H. apply String.eqb_neq in H. rewrite H.
    destruct (silent opts); reflexivity.
Qed.

Lemma permission_denied_stops_native_requests_witness :
  let denied := ErrorObject "denied" (Some "LOCATION_PERMISSION_DENIED"%string) in
  let s' := fst (requestNativeCurrentLocation_settled
                   {| recenter := false; silent := true |} (Rejected denied)
                   (fst (requestNativeCurrentLocation phone
                           {| recenter := false; silent := true |} (initialScreen true)))) in
  handleWebMessage_geoError phone 1700000000000 s' = (s', NotInvoked).
Proof.
  destruct (permission_denied_stops_native_requests
              {| recenter := false; silent := true |}
              (ErrorObject "denied" (Some "LOCATION_PERMISSION_DENIED"%string))
              (fst (requestNativeCurrentLocation phone
                      {| recenter := false; silent := true |} (initialScreen true))))
    as [H _].
  destruct (H eq_refl) as (_ & G & _).
  exact (G phone 1700000000000%Z).
Defined.

(** A silent request never shows a notice, whether it is turned away,
    succeeds or fails; a request that is not silent shows one whenever it
    settles. *)
Theorem silent_request_shows_no_notice
  (env : Platform) (opts : LocateOptions) (r : settled NativeLocationPayload)
  (s : Screen) :
  notice (fst (requestNativeCurrentLocation env opts s)) = notice s /\
  (silent opts = true ->
   notice (fst (requestNativeCurrentLocation_settled opts r s)) = notice s) /\
  (silent opts = false ->
   exists text,
     notice (fst (requestNativeCurrentLocation_settled opts r s)) = text /\
     text <> ""%string).
Proof.
  split.
  { unfold requestNativeCurrentLocation.
    destruct (supportsNativeLocation env), (locationPermissionGranted s),
      (nativeLocationModule env), (nativeLocateInFlightRef s); reflexivity. }
  unfold requestNativeCurrentLocation_settled, requestNativeCurrentLocation_catch.
  split; intros H; rewrite H.
  - destruct r as [p|e].
    + destruct (latitude p), (longitude p); simpl;
        destruct (recenter opts); reflexivity.
    + destruct (String.eqb (nativeCode e) "LOCATION_PERMISSION_DENIED"); reflexivity.
  - eexists. split; [reflexivity|].
    destruct r as [p|e].
    + destruct (latitude p), (longitude p); simpl;
        try (destruct (recenter opts)); simpl; discriminate.
    + destruct (String.eqb (nativeCode e) "LOCATION_PERMISSION_DENIED"); simpl;
        discriminate.
Qed.

Lemma silent_request_shows_no_notice_witness :
  notice (fst (requestNativeCurrentLocation_settled
                 {| recenter := true; silent := true |}
                 (Rejected (OtherThrown None))
                 (showNotice "kept" (initialScreen true)))) = "kept"%string.
Proof.
  destruct (silent_request_shows_no_notice phone
              {| recenter := true; silent := true |}
              (Rejected (OtherThrown None))
              (showNotice "kept" (initialScreen true))) as (_ & H & _).
  exact (H eq_refl).
Defined.

(** Re-centring with a known position asks the renderer for it at zoom
    15 and starts nothing.  With none known and a request already in
    flight, it starts no second OS request and tells the user at once that
    the position is unavailable; with none in flight it starts one OS
    request, and when that brings a finite fix the fix becomes the user
    location and the renderer is asked for it at zoom 15, without a
    notice. *)
Theorem recenter_uses_fix_or_single_request
  (env : Platform) (s : Screen) (la lo : Q) (provider : option string)
  (Hperm : locationPermissionGranted s = true)
  (Hdev : supportsNativeLocation env = true /\ nativeLocationModule env = true) :
  (userLocation s = Some (la, lo) ->
   recenterToUserLocation env s
   = (perform (injectJavaScript_rnSetView la lo 15) s, NotInvoked)) /\
  (userLocation s = None -> nativeLocateInFlightRef s = true ->
   let r := recenterToUserLocation env s in
   effects (fst r) = effects s /\
   notice (fst r) = "暂时无法获取定位，请稍后重试。"%string /\
   snd r = Invoked {| recenter := true; silent := true |} (Some false)) /\
  (userLocation s = None -> nativeLocateInFlightRef s = false ->
   let r := recenterToUserLocation env s in
   let answer := Fulfilled {| latitude := Finite la; longitude := Finite lo;
                           provider := provider |} in
   let s' := recenterToUserLocation_settled answer (fst r) in
   snd r = Invoked {| recenter := true; silent := true |} None /\
   effects s'
   = effects s ++ [NativeLocation_getCurrentPosition 8000 60000;
                   injectJavaScript_rnSetView la lo 15] /\
   userLocation s' = Some (la, lo) /\
   nativeLocateInFlightRef s' = false /\
   notice s' = notice s).
Proof.
  destruct Hdev as [H1 H2].
  split; [|split].
  - intros U. unfold recenterToUserLocation. rewrite Hperm, U. reflexivity.
  - intros U F. unfold recenterToUserLocation. rewrite Hperm, U. simpl.
    rewrite (requestNativeCurrentLocation_busy env _ s F). simpl. auto.
  - intros U F. unfold recenterToUserLocation. rewrite Hperm, U. simpl.
    unfold requestNativeCurrentLocation. rewrite H1, H2, Hperm, F. simpl.
    split; [reflexivity|].
    split; [now rewrite <- app_assoc|]. auto.
Qed.

Lemma recenter_uses_fix_or_single_request_witness :
  let pressed := recenterToUserLocation phone (initialScreen true) in
  let s' := recenterToUserLocation_settled
              (Fulfilled {| latitude := Finite 31.2; longitude := Finite 121.5;
                            provider := Some "gps"%string |}) (fst pressed) in
  effects s' = [NativeLocation_getCurrentPosition 8000 60000;
                injectJavaScript_rnSetView 31.2 121.5 15] /\
  userLocation s' = Some (31.2, 121.5).
Proof.
  destruct (recenter_uses_fix_or_single_request phone (initialScreen true)
              31.2 121.5 (Some "gps"%string) eq_refl (conj eq_refl eq_refl))
    as (_ & _ & H).
  destruct (H eq_refl eq_refl) as (_ & E & U & _).
  split; [exact E|exact U].
Defined.

(** ** Marker list *)

Lemma findById_none_iff (k : Q) (items : list MapMarker.t) :
  findById k items = None <->
  forall marker, In marker items -> Qeq_bool (MapMarker.id marker) k = false.
Proof.
  unfold findById. induction items as [|x items IH]; simpl.
  - split; [intros _ m []|reflexivity].
  - destruct (Qeq_bool (MapMarker.id x) k) eqn:E.
    + split; [discriminate|]. intros H. rewrite (H x (or_introl eq_refl)) in E.
      discriminate.
    + rewrite IH. split.
      * intros H m [<-|Hm]; [exact E|now apply H].
      * intros H m Hm. apply H. now right.
Qed.

Lemma findById_rev_none (k : Q) (items : list MapMarker.t) :
  findById k (rev items) = None <-> findById k items = None.
Proof.
  rewrite !findById_none_iff. split; intros H m Hm; apply H.
  - now apply -> in_rev.
  - now apply <- in_rev.
Qed.

(** After a nearby search the list holds, for each id, the marker of the
    results when there is one and else the marker shown before; no id is
    lost and none occurs twice. *)
Theorem nearby_merge_keeps_ids (prev results : list MapMarker.t) (k : Q) :
  let merged := searchNearby_merge prev results in
  findById k merged
  = match findById k (rev results) with
    | Some fresh => Some fresh
    | None => findById k (rev prev)
    end /\
  (findById k merged = None <-> findById k prev = None /\ findById k results = None) /\
  NoDupA Qeq (map MapMarker.id merged).
Proof.
  intros merged. unfold merged, searchNearby_merge.
  assert (E : findById k (mergeMarkersById (prev ++ results))
              = match findById k (rev results) with
                | Some fresh => Some fresh
                | None => findById k (rev prev)
                end)
    by (rewrite mergeMarkersById_last, rev_app_distr; apply findById_app).
  split; [exact E|]. split; [|apply mergeMarkersById_distinct].
  rewrite E. split.
  - intros H. destruct (findById k (rev results)) eqn:R; [discriminate|].
    split; [now apply findById_rev_none|now apply findById_rev_none].
  - intros [P R]. apply findById_rev_none in P. apply findById_rev_none in R.
    rewrite R. exact P.
Qed.

Lemma InA_ids_filter (f : MapMarker.t -> bool) (k : Q) (items : list MapMarker.t) :
  InA Qeq k (map MapMarker.id (filter f items)) ->
  exists marker, In marker items /\ f marker = true /\ k == MapMarker.id marker.
Proof.
  induction items as [|x items IH]; simpl; intros H; [inversion H|].
  destruct (f x) eqn:E.
  - simpl in H. inversion H as [? ? H1|? ? H1]; subst.
    + exists x. auto.
    + destruct (IH H1) as (m & ? & ? & ?). exists m. auto.
  - destruct (IH H) as (m & ? & ? & ?). exists m. auto.
Qed.

Lemma NoDupA_ids_filter (f : MapMarker.t -> bool) (items : list MapMarker.t) :
  NoDupA Qeq (map MapMarker.id items) ->
  NoDupA Qeq (map MapMarker.id (filter f items)).
Proof.
  induction items as [|x items IH]; simpl; intros H; [constructor|].
  inversion H as [|? ? H1 H2]; subst.
  destruct (f x); simpl; [|now apply IH].
  constructor; [|now apply IH].
  intros A. apply H1. apply InA_ids_filter in A. destruct A as (m & Hm & _ & E).
  rewrite E. apply InA_alt. exists (MapMarker.id m). split; [reflexivity|].
  now apply in_map.
Qed.

(** A successful submit keeps the ids of the list distinct when they were:
    the stale copy of the submitted marker is the only thing removed. *)
Theorem submit_keeps_ids_distinct (created : MapMarker.t) (s : Screen) :
  NoDupA Qeq (map MapMarker.id (markers s)) ->
  NoDupA Qeq (map MapMarker.id (markers (saveDraft_succeeded created s))) /\
  (forall marker, In marker (markers s) ->
     ~ MapMarker.id marker == MapMarker.id created ->
     In marker (markers (saveDraft_succeeded created s))).
Proof.
  intros H.
  assert (M : markers (saveDraft_succeeded created s)
              = created :: filter (fun marker =>
                                     negb (Qeq_bool (MapMarker.id marker)
                                                    (MapMarker.id created)))
                                  (markers s)) by reflexivity.
  rewrite M. split.
  - simpl. constructor; [|now apply NoDupA_ids_filter].
    intros A. apply InA_ids_filter in A. destruct A as (m & _ & F & E).
    apply negb_true_iff in F. apply Qeq_bool_neq in F. apply F. now symmetry.
  - intros m Hm Hne. right. apply filter_In. split; [exact Hm|].
    apply negb_true_iff. destruct (Qeq_bool (MapMarker.id m) (MapMarker.id created)) eqn:E;
      [|reflexivity].
    apply Qeq_bool_iff in E. contradiction.
Qed.

Lemma submit_keeps_ids_distinct_witness :
  NoDupA Qeq (map MapMarker.id
                (markers (saveDraft_succeeded (plainMarker 7 39.9 116.4 "Exit A")
                            screenWithTwoMarkers))).
Proof.
  apply (submit_keeps_ids_distinct (plainMarker 7 39.9 116.4 "Exit A")
           screenWithTwoMarkers).
  simpl. constructor.
  - intros A. inversion A as [? ? E|? ? E]; subst; [discriminate E|inversion E].
  - constructor; [intros A; inversion A|constructor].
Defined.

(** ** Filters *)

Lemma filter_all {A : Type} (f : A -> bool) (l : list A) :
  (forall x, f x = true) -> filter f l = l.
Proof.
  intros H. induction l as [|x l IH]; simpl; [reflexivity|].
  now rewrite H, IH.
Qed.

Lemma filter_none {A : Type} (f : A -> bool) (l : list A) :
  (forall x, f x = false) -> filter f l = [].
Proof.
  intros H. induction l as [|x l IH]; simpl; [reflexivity|].
  now rewrite H.
Qed.

(** The filters of a fresh screen hide nothing; with every category
    switched off nothing is shown whatever the other filters; the owner
    filter "mine" shows nothing while no user with a public id is signed
    in, and "fav" nothing while there is no favourite. *)
Theorem filter_edge_cases (f : Filters) (markers : list MapMarker.t)
  (publicId : option string) (favorites : list Q) :
  filteredMarkers (initialFilters publicId favorites) markers = markers /\
  filteredMarkers (setAllCategoriesVisible false f) markers = [] /\
  (ownerFilter f = owner_mine ->
   userPublicId f = None \/ userPublicId f = Some ""%string ->
   filteredMarkers f markers = []) /\
  (ownerFilter f = owner_fav -> favoriteIds f = [] -> filteredMarkers f markers = []).
Proof.
  unfold filteredMarkers. split; [apply filter_all; reflexivity|].
  split; [apply filter_none; reflexivity|].
  split.
  - intros O U. apply filter_none. intros m. unfold passesFilters. rewrite O.
    destruct (negb (visibleCats f (MapMarker.category m))); [reflexivity|].
    destruct (nearbyOnly f && negb (Set_has (nearbyIds f) (MapMarker.id m)));
      [reflexivity|].
    destruct U as [-> | ->]; reflexivity.
  - intros O F. apply filter_none. intros m. unfold passesFilters. rewrite O, F.
    destruct (negb (visibleCats f (MapMarker.category m))); [reflexivity|].
    destruct (nearbyOnly f && negb (Set_has (nearbyIds f) (MapMarker.id m)));
      reflexivity.
Qed.

Lemma filter_edge_cases_witness :
  filteredMarkers
    {| visibleCats := fun _ => true; nearbyOnly := false; nearbyIds := [];
       ownerFilter := owner_mine; userPublicId := None; favoriteIds := [] |}
    [plainMarker 1 0 0 "a"] = [].
Proof.
  destruct (filter_edge_cases
              {| visibleCats := fun _ => true; nearbyOnly := false; nearbyIds := [];
                 ownerFilter := owner_mine; userPublicId := None; favoriteIds := [] |}
              [plainMarker 1 0 0 "a"] None []) as (_ & _ & H & _).
  exact (H eq_refl (or_introl eq_refl)).
Defined.

Lemma MarkerCategory_eqb_eq (a b : MarkerCategory) :
  MarkerCategory_eqb a b = true <-> a = b.
Proof. destruct a, b; simpl; split; intros H; try reflexivity; discriminate H. Qed.

Lemma filter_ext_in_list {A : Type} (f g : A -> bool) (l : list A) :
  (forall x, In x l -> f x = g x) -> filter f l = filter g l.
Proof.
  induction l as [|x l IH]; intros H; simpl; [reflexivity|].
  rewrite (H x (or_introl eq_refl)), IH; [reflexivity|].
  intros y Hy. apply H. now right.
Qed.

Lemma filter_and {A : Type} (f g : A -> bool) (l : list A) :
  filter (fun x => f x && g x) l = filter f (filter g l).
Proof.
  induction l as [|x l IH]; simpl; [reflexivity|].
  destruct (g x); simpl.
  - destruct (f x); simpl; now rewrite IH.
  - rewrite andb_false_r. exact IH.
Qed.

(** Switching off a category that was visible removes the markers of that
    category from the view and nothing else; switching it twice gives the
    view back. *)
Theorem toggle_category_view (key : MarkerCategory) (f : Filters)
  (markers : list MapMarker.t) :
  filteredMarkers (toggleCategory key (toggleCategory key f)) markers
  = filteredMarkers f markers /\
  (visibleCats f key = true ->
   filteredMarkers (toggleCategory key f) markers
   = filter (fun marker => negb (MarkerCategory_eqb (MapMarker.category marker) key))
            (filteredMarkers f markers)).
Proof.
  unfold filteredMarkers. split.
  - apply filter_ext_in_list. intros m _. unfold passesFilters, toggleCategory. simpl.
    destruct (MarkerCategory_eqb (MapMarker.category m) key);
      [rewrite negb_involutive|]; reflexivity.
  - intros V. rewrite <- filter_and. apply filter_ext_in_list. intros m _.
    unfold passesFilters, toggleCategory. simpl.
    destruct (MarkerCategory_eqb (MapMarker.category m) key) eqn:E; simpl.
    + apply MarkerCategory_eqb_eq in E. rewrite E, V. reflexivity.
    + reflexivity.
Qed.

Lemma toggle_category_view_witness :
  filteredMarkers (toggleCategory self_definition (initialFilters None []))
    [plainMarker 1 0 0 "a"] = [].
Proof.
  destruct (toggle_category_view self_definition (initialFilters None [])
              [plainMarker 1 0 0 "a"]) as [_ H].
  rewrite (H eq_refl). reflexivity.
Defined.

(** ** Selection and pins *)

(** After the selection effect has run, a marker is selected exactly when
    its card can be shown: the selected id is that of a marker in view, and
    [selectedMarker] is that marker.  An id that the filters hide is
    dropped. *)
Theorem selection_follows_view (filtered : list MapMarker.t) (selected : option Q) :
  let kept := syncSelection filtered selected in
  (kept = None <-> selectedMarker filtered kept = None) /\
  (forall id, kept = Some id ->
     selected = Some id /\
     exists marker, selectedMarker filtered kept = Some marker /\
                    In marker filtered /\ MapMarker.id marker == id) /\
  (forall id, selected = Some id -> findById id filtered = None -> kept = None).
Proof.
  assert (X : forall id,
            existsb (fun marker => Qeq_bool (MapMarker.id marker) id) filtered = true ->
            exists marker, findById id filtered = Some marker /\
                           In marker filtered /\ MapMarker.id marker == id).
  { intros id. unfold findById. induction filtered as [|x l IH]; simpl; [discriminate|].
    destruct (Qeq_bool (MapMarker.id x) id) eqn:E.
    - intros _. exists x. split; [reflexivity|]. split; [now left|now apply Qeq_bool_iff].
    - simpl. intros H. destruct (IH H) as (m & A & B & C). exists m. auto. }
  cbv zeta. unfold syncSelection. destruct selected as [id|]; simpl.
  - destruct (existsb (fun marker => Qeq_bool (MapMarker.id marker) id) filtered) eqn:E.
    + destruct (X id E) as (m & A & B & C). simpl. rewrite A.
      split; [split; discriminate|]. split.
      * intros id' H. injection H as <-. split; [reflexivity|]. exists m. auto.
      * intros id' H N. injection H as <-. rewrite A in N. discriminate.
    + simpl. split; [split; reflexivity|]. split; [discriminate|]. reflexivity.
  - split; [split; reflexivity|]. split; discriminate.
Qed.

Lemma selection_follows_view_witness :
  syncSelection [plainMarker 8 0 0 "b"] (Some 7) = None.
Proof.
  destruct (selection_follows_view [plainMarker 8 0 0 "b"] (Some 7)) as (_ & _ & H).
  exact (H 7 eq_refl eq_refl).
Defined.

(** A pin is grey exactly when its marker is inactive; the pins of two
    active markers have the same colour exactly when the markers have the
    same category; and the renderer gets one pin per marker in view, in
    order, with the id and the position of the marker. *)
Theorem pin_colours_tell_categories (a b : MapMarker.t) (filtered : list MapMarker.t) :
  (getMarkerPinColor a = "#9e9e9e"%string <-> MapMarker.isActive a = false) /\
  (MapMarker.isActive a = true -> MapMarker.isActive b = true ->
   (getMarkerPinColor a = getMarkerPinColor b <->
    MapMarker.category a = MapMarker.category b)) /\
  map WebMarker.id (webMarkers filtered) = map MapMarker.id filtered /\
  map WebMarker.lat (webMarkers filtered) = map MapMarker.lat filtered /\
  map WebMarker.lng (webMarkers filtered) = map MapMarker.lng filtered.
Proof.
  unfold getMarkerPinColor. split; [|split; [|split; [|split]]].
  - destruct (MapMarker.isActive a); simpl.
    + split; [|discriminate]. destruct (MapMarker.category a); discriminate.
    + split; reflexivity.
  - intros -> ->. simpl.
    destruct (MapMarker.category a), (MapMarker.category b); simpl;
      split; intros H; try reflexivity; discriminate H.
  - unfold webMarkers. rewrite map_map. reflexivity.
  - unfold webMarkers. rewrite map_map. reflexivity.
  - unfold webMarkers. rewrite map_map. reflexivity.
Qed.

Lemma pin_colours_tell_categories_witness :
  getMarkerPinColor (plainMarker 1 0 0 "a") <> "#9e9e9e"%string.
Proof.
  destruct (pin_colours_tell_categories (plainMarker 1 0 0 "a")
              (plainMarker 1 0 0 "a") []) as (H & _).
  intros E. apply H in E. discriminate E.
Defined.

(** ** Opening hours *)

Lemma isDigit_range (c : Ascii.ascii) :
  JsString.isDigit c = true ->
  (48 <= Z.of_nat (Ascii.nat_of_ascii c) <= 57)%Z.
Proof.
  unfold JsString.isDigit. intros H. apply andb_true_iff in H. destruct H as [A B].
  apply Nat.leb_le in A. apply Nat.leb_le in B. lia.
Qed.

Lemma keepDigits_allDigits (text : string) :
  JsString.allDigits (JsString.keepDigits text) = true.
Proof.
  induction text as [|c rest IH]; simpl; [reflexivity|].
  destruct (JsString.isDigit c) eqn:E; [simpl; now rewrite E|exact IH].
Qed.

Lemma slice_allDigits (n : nat) (text : string) :
  JsString.allDigits text = true ->
  JsString.allDigits (JsString.slice_from_0 n text) = true.
Proof.
  unfold JsString.slice_from_0. revert n.
  induction text as [|c rest IH]; intros [|n] H; simpl; try reflexivity.
  simpl in H. apply andb_true_iff in H. destruct H as [A B].
  rewrite A. simpl. now apply IH.
Qed.

Lemma slice_length (n : nat) (text : string) :
  (String.length (JsString.slice_from_0 n text) <= n)%nat.
Proof.
  unfold JsString.slice_from_0. revert n.
  induction text as [|c rest IH]; intros [|n]; simpl; try lia.
  specialize (IH n). lia.
Qed.

Lemma slice_empty (n : nat) (text : string) :
  JsString.slice_from_0 (S n) text = ""%string <-> text = ""%string.
Proof.
  unfold JsString.slice_from_0. destruct text; simpl; split; intros H;
    try reflexivity; discriminate H.
Qed.

Lemma Boolean_true (text : string) :
  JsString.Boolean text = true <-> text <> ""%string.
Proof.
  destruct text; simpl; split; intros H; try reflexivity;
    try discriminate H; try (intros E; discriminate E). now elim H.
Qed.

Lemma Boolean_false (text : string) :
  JsString.Boolean text = false -> text = ""%string.
Proof. destruct text; [reflexivity|discriminate]. Qed.

Lemma decimal_bounds (text : string) (acc : Z) :
  JsString.allDigits text = true -> (0 <= acc)%Z ->
  (0 <= JsString.decimal acc text)%Z.
Proof.
  revert acc. induction text as [|c rest IH]; intros acc H A;
    cbn [JsString.decimal]; [exact A|].
  cbn [JsString.allDigits] in H. apply andb_true_iff in H. destruct H as [D R].
  apply IH; [exact R|]. apply isDigit_range in D. lia.
Qed.

Lemma Qle_bool_inject_Z (a b : Z) :
  Qle_bool (inject_Z a) (inject_Z b) = (a <=? b)%Z.
Proof. unfold Qle_bool, inject_Z. simpl. now rewrite !Z.mul_1_r. Qed.

Lemma Qtrunc_inject_Z (z : Z) : Qtrunc (inject_Z z) = z.
Proof.
  unfold Qtrunc. destruct (Qle_bool 0 (inject_Z z));
    [apply Qfloor_Z|apply Qceiling_Z].
Qed.

Lemma clamp_integer (m t : Z) :
  (0 <= m)%Z ->
  Qtrunc (Math_max 0 (Math_min (inject_Z m) (inject_Z t))) = Z.max 0 (Z.min m t).
Proof.
  intros Hm. change 0 with (inject_Z 0). unfold Math_max, Math_min.
  rewrite (Qle_bool_inject_Z m t).
  destruct (m <=? t)%Z eqn:E.
  - apply Z.leb_le in E. rewrite Qle_bool_inject_Z.
    destruct (0 <=? m)%Z eqn:F; [|apply Z.leb_gt in F; lia].
    rewrite Qtrunc_inject_Z. lia.
  - apply Z.leb_gt in E. rewrite Qle_bool_inject_Z.
    destruct (0 <=? t)%Z eqn:F; rewrite Qtrunc_inject_Z;
      [apply Z.leb_le in F|apply Z.leb_gt in F]; lia.
Qed.

(** The two-digit text of a number of minutes or hours. *)
Lemma two_digit_text (n : Z) :
  (0 <= n <= 59)%Z ->
  let text := JsString.padStart 2 JsString.zero (JsString.String_of_integer n) in
  String.length text = 2%nat /\
  JsString.allDigits text = true /\
  JsString.decimal 0 text = n.
Proof.
  intros H.
  assert (A : forallb (fun k =>
                let text := JsString.padStart 2 JsString.zero
                              (JsString.String_of_integer k) in
                (String.length text =? 2)%nat && JsString.allDigits text
                && (JsString.decimal 0 text =? k)%Z)
                (map Z.of_nat (List.seq 0%nat 60%nat)) = true) by (vm_compute; reflexivity).
  rewrite forallb_forall in A.
  assert (I : In n (map Z.of_nat (List.seq 0%nat 60%nat))).
  { rewrite <- (Z2Nat.id n) by lia. apply in_map. apply in_seq. lia. }
  specialize (A n I). cbv zeta in A.
  apply andb_true_iff in A. destruct A as [A C].
  apply andb_true_iff in A. destruct A as [A B].
  apply Nat.eqb_eq in A. apply Z.eqb_eq in C. cbv zeta. auto.
Qed.

Lemma TimePart_get_set (key : TimePart) (value : string) (d : DraftMarker.t) :
  TimePart_get key (TimePart_set key value d) = value.
Proof. destruct key; reflexivity. Qed.

Lemma TimePart_get_set_other (key other : TimePart) (value : string)
  (d : DraftMarker.t) :
  other <> key -> TimePart_get other (TimePart_set key value d) = TimePart_get other d.
Proof. destruct key, other; intros H; try reflexivity; now elim H. Qed.

Lemma TimePart_set_set (key : TimePart) (v w : string) (d : DraftMarker.t) :
  TimePart_set key v (TimePart_set key w d) = TimePart_set key v d.
Proof. destruct key; reflexivity. Qed.

Lemma TimePart_limit_fact (key : TimePart) :
  TimePart_max key = inject_Z (if TimePart_isHour key then 23 else 59)%Z.
Proof. unfold TimePart_max. destruct (TimePart_isHour key); reflexivity. Qed.

Section TimeFieldFacts.

Variable Number_of_text : string -> number.
Variable trim : string -> string.

Local Abbreviation number_of := (Number Number_of_text).
Local Abbreviation valid := (isValidHHMM Number_of_text).
Local Abbreviation blur := (normalizeDraftTimePartOnBlur Number_of_text).
Local Abbreviation submit := (saveDraft Number_of_text trim).

Lemma Number_digits (text : string) :
  JsString.allDigits text = true ->
  (1 <= String.length text <= 15)%nat ->
  number_of text = Finite (inject_Z (JsString.decimal 0 text)).
Proof.
  intros A [L U]. unfold Number.
  rewrite A, (proj2 (Nat.leb_le _ _) L), (proj2 (Nat.leb_le _ _) U). reflexivity.
Qed.

(** What a blur does to a field that reads as a finite number. *)
Lemma blur_finite (key : TimePart) (prev : DraftMarker.t) (hint : string) (parsed : Q) :
  JsString.Boolean (TimePart_get key prev) = true ->
  number_of (TimePart_get key prev) = Finite parsed ->
  exists text,
    text <> ""%string /\
    blur key {| formDraft := Some prev; timeFixHint := hint |}
    = {| formDraft :=
           Some (TimePart_set key
                   (JsString.padStart 2 JsString.zero
                      (JsString.String_of_integer
                         (Z.max 0 (Z.min (if TimePart_isHour key then 23 else 59)
                                         (Qtrunc parsed)))))
                   prev);
         timeFixHint :=
           if Qgt_bool parsed (inject_Z (if TimePart_isHour key then 23 else 59))
           then text else hint |}.
Proof.
  intros B N. unfold normalizeDraftTimePartOnBlur. cbn [formDraft timeFixHint].
  rewrite B, N. cbn [negb]. cbv zeta. rewrite TimePart_limit_fact.
  rewrite clamp_integer by (destruct (TimePart_isHour key); lia).
  eexists. split; [|reflexivity].
  destruct (TimePart_isHour key); intros E; cbn [append] in E; discriminate E.
Qed.

Lemma blur_empty (key : TimePart) (prev : DraftMarker.t) (hint : string) :
  JsString.Boolean (TimePart_get key prev) = false ->
  blur key {| formDraft := Some prev; timeFixHint := hint |}
  = {| formDraft := Some prev; timeFixHint := hint |}.
Proof.
  intros B. unfold normalizeDraftTimePartOnBlur. cbn [formDraft timeFixHint].
  rewrite B. reflexivity.
Qed.

(** A typed value, cut to its first two digits and blurred. *)
Lemma set_then_blur (key : TimePart) (typed : string) (d : DraftMarker.t)
  (hint : string) :
  let digits := JsString.slice_from_0 2 (JsString.keepDigits typed) in
  let typedNumber := JsString.decimal 0 digits in
  let limit := (if TimePart_isHour key then 23 else 59)%Z in
  exists value shown,
    blur key (setDraftTimePart key typed {| formDraft := Some d; timeFixHint := hint |})
    = {| formDraft := Some (TimePart_set key value d); timeFixHint := shown |} /\
    (digits = ""%string -> value = ""%string /\ shown = ""%string) /\
    (digits <> ""%string ->
     String.length value = 2%nat /\
     JsString.allDigits value = true /\
     JsString.decimal 0 value = Z.min typedNumber limit /\
     (shown = ""%string <-> (typedNumber <= limit)%Z)).
Proof.
  intros digits typedNumber limit.
  assert (D : JsString.allDigits digits = true)
    by (apply slice_allDigits, keepDigits_allDigits).
  pose proof (slice_length 2 (JsString.keepDigits typed)) as Ln. fold digits in Ln.
  unfold setDraftTimePart. cbn [formDraft timeFixHint]. fold digits.
  destruct (JsString.Boolean digits) eqn:B.
  - assert (Lp : (1 <= String.length digits)%nat)
      by (destruct digits; [discriminate B|simpl; lia]).
    pose proof (decimal_bounds digits 0 D ltac:(lia)) as P. fold typedNumber in P.
    destruct (blur_finite key (TimePart_set key digits d) "" (inject_Z typedNumber))
      as (text & Ht & E).
    + rewrite TimePart_get_set. exact B.
    + rewrite TimePart_get_set. apply Number_digits; [exact D|lia].
    + rewrite E, TimePart_set_set, Qtrunc_inject_Z. fold limit.
      assert (R : (0 <= Z.max 0 (Z.min limit typedNumber) <= 59)%Z)
        by (unfold limit; destruct (TimePart_isHour key); lia).
      destruct (two_digit_text _ R) as (T1 & T2 & T3).
      eexists. eexists. split; [reflexivity|]. split.
      * intros Z0. rewrite Z0 in B. discriminate B.
      * intros _. split; [exact T1|]. split; [exact T2|]. split; [rewrite T3; unfold limit; destruct (TimePart_isHour key); lia|].
        unfold Qgt_bool. rewrite Qle_bool_inject_Z.
        destruct (typedNumber <=? limit)%Z eqn:C; cbn [negb].
        -- apply Z.leb_le in C. split; [intros _; exact C|reflexivity].
        -- apply Z.leb_gt in C. split; [intros Z0; contradiction|lia].
  - assert (Z0 : digits = ""%string) by (destruct digits; [reflexivity|discriminate B]).
    rewrite blur_empty by (rewrite TimePart_get_set; exact B).
    exists digits, ""%string. split; [reflexivity|]. split.
    + intros _. split; [exact Z0|reflexivity].
    + intros N. contradiction.
Qed.

Lemma valid_two_digit_parts (h m : string) :
  String.length h = 2%nat -> JsString.allDigits h = true ->
  (JsString.decimal 0 h <= 23)%Z ->
  String.length m = 2%nat -> JsString.allDigits m = true ->
  (JsString.decimal 0 m <= 59)%Z ->
  composeHHMM h m = (h ++ ":" ++ m)%string /\
  valid (composeHHMM h m) = true.
Proof.
  intros Lh Dh Bh Lm Dm Bm.
  pose proof (decimal_bounds h 0 Dh ltac:(lia)) as Ph.
  pose proof (decimal_bounds m 0 Dm ltac:(lia)) as Pm.
  pose proof (Number_digits h Dh ltac:(lia)) as Nh.
  pose proof (Number_digits m Dm ltac:(lia)) as Nm.
  destruct h as [|a [|b [|? ?]]]; try discriminate Lh.
  destruct m as [|c [|e [|? ?]]]; try discriminate Lm.
  cbn [JsString.allDigits] in Dh, Dm.
  apply andb_true_iff in Dh. destruct Dh as [Da Dh].
  apply andb_true_iff in Dh. destruct Dh as [Db _].
  apply andb_true_iff in Dm. destruct Dm as [Dc Dm].
  apply andb_true_iff in Dm. destruct Dm as [De _].
  split; [reflexivity|].
  unfold composeHHMM. cbn [JsString.Boolean negb orb append].
  unfold isValidHHMM. cbn [JsString.test_HHMM].
  rewrite Da, Db, Dc, De. cbn [andb negb substring].
  change (Ascii.nat_of_ascii _ =? 58)%nat with true. cbn [andb negb].
  rewrite Nh, Nm. change 0 with (inject_Z 0).
  change 23 with (inject_Z 23). change 59 with (inject_Z 59).
  rewrite !Qle_bool_inject_Z.
  rewrite (proj2 (Z.leb_le _ _) Ph), (proj2 (Z.leb_le _ _) Pm),
          (proj2 (Z.leb_le _ _) Bh), (proj2 (Z.leb_le _ _) Bm).
  reflexivity.
Qed.

(** Whatever is typed into a time field, after the field is left it is
    empty (nothing typed had a digit, and then no hint is shown) or holds
    two digits: the number written by the first two digits typed, lowered
    to 23 for an hour and 59 for a minute.  The hint is shown exactly when
    that number was lowered.  The other fields of the draft are as they
    were. *)
Theorem typed_time_part_is_normalized
  (key : TimePart) (typed : string) (d : DraftMarker.t) (hint : string) :
  let digits := JsString.slice_from_0 2 (JsString.keepDigits typed) in
  let typedNumber := JsString.decimal 0 digits in
  let limit := (if TimePart_isHour key then 23 else 59)%Z in
  let f := blur key (setDraftTimePart key typed
                       {| formDraft := Some d; timeFixHint := hint |}) in
  exists d',
    formDraft f = Some d' /\
    (forall other, other <> key -> TimePart_get other d' = TimePart_get other d) /\
    (JsString.keepDigits typed = ""%string <-> TimePart_get key d' = ""%string) /\
    (JsString.keepDigits typed = ""%string -> timeFixHint f = ""%string) /\
    (JsString.keepDigits typed <> ""%string ->
     String.length (TimePart_get key d') = 2%nat /\
     JsString.allDigits (TimePart_get key d') = true /\
     JsString.decimal 0 (TimePart_get key d') = Z.min typedNumber limit /\
     (timeFixHint f = ""%string <-> (typedNumber <= limit)%Z)).
Proof.
  intros digits typedNumber limit f.
  destruct (set_then_blur key typed d hint) as (value & shown & E & Z0 & NZ).
  fold digits in Z0, NZ. fold typedNumber limit in NZ.
  unfold f. rewrite E. cbn [formDraft timeFixHint].
  exists (TimePart_set key value d). split; [reflexivity|].
  split; [intros other Ho; now apply TimePart_get_set_other|].
  rewrite TimePart_get_set.
  assert (S0 : JsString.keepDigits typed = ""%string <-> digits = ""%string)
    by (symmetry; apply slice_empty).
  split; [|split].
  - split.
    + intros K. apply S0 in K. now destruct (Z0 K).
    + intros V. apply S0. destruct digits eqn:Ed; [reflexivity|].
      assert (Nd : String a s <> ""%string) by discriminate.
      destruct (NZ Nd) as (L & _). rewrite V in L. discriminate L.
  - intros K. apply S0 in K. now destruct (Z0 K).
  - intros K. apply NZ. intros Ed. apply K. now apply S0.
Qed.

(** Leaving a time field a second time changes nothing, whatever the field
    held and however [Number] reads it: neither the draft nor the hint. *)
Theorem blur_time_part_idempotent (key : TimePart) (f : TimeForm) :
  blur key (blur key f) = blur key f.
Proof.
  destruct f as [[prev|] hint]; [|reflexivity].
  destruct (JsString.Boolean (TimePart_get key prev)) eqn:B;
    [|now rewrite !blur_empty by exact B].
  destruct (number_of (TimePart_get key prev)) as [parsed|] eqn:N.
  - destruct (blur_finite key prev hint parsed B N) as (text & _ & E). rewrite E.
    set (limit := (if TimePart_isHour key then 23 else 59)%Z) in *.
    set (n := Z.max 0 (Z.min limit (Qtrunc parsed))).
    assert (R : (0 <= n <= 59)%Z)
      by (unfold n, limit; destruct (TimePart_isHour key); lia).
    destruct (two_digit_text n R) as (T1 & T2 & T3).
    set (normalized := JsString.padStart 2 JsString.zero (JsString.String_of_integer n))
      in *.
    destruct (blur_finite key (TimePart_set key normalized prev)
                (if Qgt_bool parsed (inject_Z limit) then text else hint)
                (inject_Z n)) as (text' & _ & E').
    + rewrite TimePart_get_set. destruct normalized; [discriminate T1|reflexivity].
    + rewrite TimePart_get_set, <- T3. apply Number_digits; [exact T2|lia].
    + rewrite E'. fold limit. rewrite Qtrunc_inject_Z, TimePart_set_set.
      replace (Z.max 0 (Z.min limit n)) with n by (unfold n; lia).
      fold normalized. unfold Qgt_bool at 1. rewrite Qle_bool_inject_Z.
      replace (n <=? limit)%Z with true
        by (symmetry; apply Z.leb_le; unfold n, limit;
            destruct (TimePart_isHour key); lia).
      reflexivity.
  - unfold normalizeDraftTimePartOnBlur. cbn [formDraft timeFixHint].
    rewrite B, N. cbn [negb formDraft timeFixHint]. rewrite B, N. reflexivity.
Qed.

(** An hour and a minute that were typed and left compose to a valid
    [HH:MM] time, or to no time at all when one of them was typed without a
    digit: after the blur the check of [saveDraft] on the format of a time
    cannot fail. *)
Theorem blurred_parts_make_valid_time
  (start : bool) (typedHour typedMinute : string) (d : DraftMarker.t) (hint : string) :
  let hourKey := if start then openStartHour else openEndHour in
  let minuteKey := if start then openStartMinute else openEndMinute in
  let f := blur minuteKey
             (setDraftTimePart minuteKey typedMinute
                (blur hourKey
                   (setDraftTimePart hourKey typedHour
                      {| formDraft := Some d; timeFixHint := hint |}))) in
  exists d',
    formDraft f = Some d' /\
    let time := composeHHMM (TimePart_get hourKey d') (TimePart_get minuteKey d') in
    (time = ""%string <->
     JsString.keepDigits typedHour = ""%string \/
     JsString.keepDigits typedMinute = ""%string) /\
    (time <> ""%string -> valid time = true).
Proof.
  intros hourKey minuteKey f.
  destruct (set_then_blur hourKey typedHour d hint) as (h & shown & E & Zh & Nh).
  destruct (set_then_blur minuteKey typedMinute (TimePart_set hourKey h d) shown)
    as (m & shown' & E' & Zm & Nm).
  unfold f. rewrite E, E'. cbn [formDraft].
  exists (TimePart_set minuteKey m (TimePart_set hourKey h d)).
  split; [reflexivity|]. cbv zeta.
  rewrite TimePart_get_set.
  rewrite TimePart_get_set_other
    by (unfold hourKey, minuteKey; destruct start; discriminate).
  rewrite TimePart_get_set.
  assert (Sh := slice_empty 1 (JsString.keepDigits typedHour)).
  assert (Sm := slice_empty 1 (JsString.keepDigits typedMinute)).
  destruct (JsString.slice_from_0 2 (JsString.keepDigits typedHour)) as [|a0 r0] eqn:Dh.
  - destruct (Zh eq_refl) as [-> _]. unfold composeHHMM. cbn.
    split; [split; [intros _; left; now apply Sh|reflexivity]|].
    intros C. now elim C.
  - destruct (JsString.slice_from_0 2 (JsString.keepDigits typedMinute))
      as [|a1 r1] eqn:Dm.
    + destruct (Zm eq_refl) as [-> _]. unfold composeHHMM.
      replace (negb (JsString.Boolean h) || negb (JsString.Boolean ""))
        with true by (destruct (JsString.Boolean h); reflexivity).
      split; [split; [intros _; right; now apply Sm|reflexivity]|].
      intros C. now elim C.
    + destruct (Nh ltac:(discriminate)) as (L1 & D1 & V1 & _).
      destruct (Nm ltac:(discriminate)) as (L2 & D2 & V2 & _).
      assert (B1 : (JsString.decimal 0 h <= 23)%Z).
      { rewrite V1. unfold hourKey. destruct start; simpl; lia. }
      assert (B2 : (JsString.decimal 0 m <= 59)%Z).
      { rewrite V2. unfold minuteKey. destruct start; simpl; lia. }
      destruct (valid_two_digit_parts h m L1 D1 B1 L2 D2 B2) as [C V].
      split; [|intros _; exact V].
      rewrite C. split.
      * intros Z0. destruct h; [discriminate L1|discriminate Z0].
      * intros [K|K]; [apply Sh in K|apply Sm in K]; discriminate K.
Qed.

(** The times of a marker opened for editing come back from the time
    fields as they were when they have the form of two digits, a colon and
    two digits, which every valid time has; a time of any other form, or no
    time, gives empty fields, so that saving the draft submits no time. *)
Theorem edit_round_trip_of_times
  (openTimeStart openTimeEnd : option string) (d : DraftMarker.t) :
  let kept (value : option string) :=
    match value with
    | Some text => if JsString.test_HHMM text then text else ""%string
    | None => ""%string
    end in
  let d' := openEditDraft_times openTimeStart openTimeEnd d in
  composeHHMM (DraftMarker.openStartHour d') (DraftMarker.openStartMinute d')
  = kept openTimeStart /\
  composeHHMM (DraftMarker.openEndHour d') (DraftMarker.openEndMinute d')
  = kept openTimeEnd /\
  (forall text, valid text = true -> kept (Some text) = text).
Proof.
  assert (K : forall value,
            composeHHMM (HourMinute.hour (splitHHMM value))
                        (HourMinute.minute (splitHHMM value))
            = match value with
              | Some text => if JsString.test_HHMM text then text else ""%string
              | None => ""%string
              end).
  { intros [text|]; [|reflexivity]. unfold splitHHMM.
    destruct (JsString.test_HHMM text) eqn:T.
    - destruct text as [|a [|b [|c [|e [|g [|? ?]]]]]]; try discriminate T.
      cbn [JsString.test_HHMM] in T.
      apply andb_true_iff in T. destruct T as [T _].
      apply andb_true_iff in T. destruct T as [T _].
      apply andb_true_iff in T. destruct T as [_ T].
      apply Nat.eqb_eq in T.
      assert (C : c = Ascii.ascii_of_nat 58)
        by (rewrite <- T; symmetry; apply Ascii.ascii_nat_embedding).
      subst c. reflexivity.
    - rewrite orb_true_r. reflexivity. }
  cbv zeta. split; [apply K|]. split; [apply K|].
  intros text V. unfold isValidHHMM in V.
  destruct (JsString.test_HHMM text); [reflexivity|discriminate V].
Qed.

Lemma showNotice_keeps (text : string) (s : Screen) :
  effects (showNotice text s) = effects s /\
  savingDraft (showNotice text s) = savingDraft s.
Proof. destruct s; split; reflexivity. Qed.

(** [saveDraft] sends nothing and does not enter the saving state unless
    there is a draft, the user is logged in, the trimmed title is not empty
    and the two times are both absent or both valid [HH:MM] times; when it
    does send, it sends the one create or update request of the submit
    step. *)
Theorem saveDraft_checks_before_request (isLoggedIn : bool) (s : Screen) :
  let s' := submit isLoggedIn s in
  (effects s' = effects s /\ savingDraft s' = savingDraft s) \/
  (exists d,
     draft s = Some d /\
     isLoggedIn = true /\
     trim (DraftMarker.title d) <> ""%string /\
     s' = saveDraft_submit d s /\
     let start :=
       composeHHMM (DraftMarker.openStartHour d) (DraftMarker.openStartMinute d) in
     let end_ :=
       composeHHMM (DraftMarker.openEndHour d) (DraftMarker.openEndMinute d) in
     (start = ""%string /\ end_ = ""%string) \/
     (valid start = true /\ valid end_ = true)).
Proof.
  cbv zeta. unfold saveDraft.
  destruct (draft s) as [d|] eqn:Ed; [|left; split; reflexivity].
  destruct isLoggedIn; cbn [negb];
    [|left; destruct s; split; reflexivity].
  cbv zeta.
  repeat match goal with
         | |- context [if negb ?c then showNotice _ _ else _] =>
             destruct c eqn:?; cbn [negb]; [|left; apply showNotice_keeps]
         end.
  set (start := composeHHMM (DraftMarker.openStartHour d) (DraftMarker.openStartMinute d))
    in *.
  set (end_ := composeHHMM (DraftMarker.openEndHour d) (DraftMarker.openEndMinute d))
    in *.
  destruct (JsString.Boolean start) eqn:Bs; cbn [andb].
  - destruct (valid start) eqn:Vs; cbn [negb]; [|left; apply showNotice_keeps].
    assert (Be : JsString.Boolean end_ = true).
    { match goal with H : Bool.eqb true _ = true |- _ =>
        apply Bool.eqb_prop in H; symmetry; exact H end. }
    rewrite Be. cbn [andb].
    destruct (valid end_) eqn:Ve; cbn [negb]; [|left; apply showNotice_keeps].
    right. exists d. split; [reflexivity|]. split; [reflexivity|].
    split; [now apply Boolean_true|]. split; [reflexivity|]. right. auto.
  - assert (Be : JsString.Boolean end_ = false).
    { match goal with H : Bool.eqb false _ = true |- _ =>
        apply Bool.eqb_prop in H; symmetry; exact H end. }
    rewrite Be. cbn [andb].
    right. exists d. split; [reflexivity|]. split; [reflexivity|].
    split; [now apply Boolean_true|]. split; [reflexivity|]. left.
    split; [exact (Boolean_false _ Bs)|exact (Boolean_false _ Be)].
Qed.

End TimeFieldFacts.

Lemma typed_time_part_is_normalized_witness :
  exists d',
    formDraft (normalizeDraftTimePartOnBlur sampleNumber_of_text openStartHour
                 (setDraftTimePart openStartHour "7 pm"%string
                    {| formDraft := Some sampleDraft; timeFixHint := "" |}))
    = Some d' /\
    String.length (DraftMarker.openStartHour d') = 2%nat.
Proof.
  destruct (typed_time_part_is_normalized sampleNumber_of_text openStartHour "7 pm"%string
              sampleDraft ""%string) as (d' & E & _ & _ & _ & H).
  exists d'. split; [exact E|].
  assert (N : JsString.keepDigits "7 pm"%string <> ""%string) by (vm_compute; discriminate).
  exact (proj1 (H N)).
Defined.

Lemma blurred_parts_make_valid_time_witness :
  exists d',
    formDraft
      (normalizeDraftTimePartOnBlur sampleNumber_of_text openStartMinute
         (setDraftTimePart openStartMinute "75"%string
            (normalizeDraftTimePartOnBlur sampleNumber_of_text openStartHour
               (setDraftTimePart openStartHour "9"%string
                  {| formDraft := Some sampleDraft; timeFixHint := "" |}))))
    = Some d' /\
    isValidHHMM sampleNumber_of_text
      (composeHHMM (DraftMarker.openStartHour d') (DraftMarker.openStartMinute d'))
    = true.
Proof.
  destruct (blurred_parts_make_valid_time sampleNumber_of_text true "9"%string "75"%string
              sampleDraft ""%string) as (d' & E & T & V).
  exists d'. split; [exact E|]. apply V. intros Z0.
  apply T in Z0. destruct Z0 as [K|K]; vm_compute in K; discriminate K.
Defined.

Lemma edit_round_trip_of_times_witness :
  (if JsString.test_HHMM "08:30" then "08:30" else "")%string = "08:30"%string.
Proof.
  destruct (edit_round_trip_of_times sampleNumber_of_text (Some "08:30"%string) None sampleDraft)
    as (_ & _ & H).
  apply (H "08:30"%string). vm_compute. reflexivity.
Defined.


(** ** The iOS location module *)

Section NativeLocationIOSFacts.

Import NativeLocationIOS.

Lemma ios_readInt_range (options : option Options) (key : Options -> option Z)
  (defaultValue min max : Z) :
  (min <= defaultValue <= max)%Z ->
  (min <= readInt options key defaultValue min max <= max)%Z.
Proof.
  intros H. unfold readInt. destruct options as [o|]; [|exact H].
  destruct (key o); [lia|exact H].
Qed.

Lemma ios_known_callBlock_reset (outcome : Settlement) (m : t) :
  known (resetRequestState (callBlock outcome m)) = known m.
Proof.
  unfold known, resetRequestState, callBlock.
  destruct (blocks m) as [call|]; cbn [settled blocks]; [|reflexivity].
  rewrite map_app, app_nil_r. reflexivity.
Qed.

Lemma ios_known_finishSuccess (location : CLLocation) (provider : string) (m : t) :
  known (finishSuccess location provider m) = known m.
Proof.
  unfold finishSuccess. destruct (requestInFlight m); cbn [negb];
    [apply ios_known_callBlock_reset|reflexivity].
Qed.

Lemma ios_known_finishFailure (code message : string) (m : t) :
  known (finishFailure code message m) = known m.
Proof.
  unfold finishFailure. destruct (requestInFlight m); cbn [negb];
    [apply ios_known_callBlock_reset|reflexivity].
Qed.

Lemma ios_consistent_finishSuccess (location : CLLocation) (provider : string) (m : t) :
  requestInFlight m = true -> consistent (finishSuccess location provider m).
Proof.
  intros F. unfold finishSuccess. rewrite F. cbn [negb]. reflexivity.
Qed.

Lemma ios_consistent_finishFailure (code message : string) (m : t) :
  requestInFlight m = true -> consistent (finishFailure code message m).
Proof.
  intros F. unfold finishFailure. rewrite F. cbn [negb]. reflexivity.
Qed.

Lemma ios_consistent_flag (m : t) :
  consistent m ->
  (requestInFlight m = false /\ blocks m = None /\ timeoutWorkItem m = None) \/
  (requestInFlight m = true /\ exists call delayMs,
     blocks m = Some call /\ timeoutWorkItem m = Some delayMs /\
     (1000 <= delayMs <= 30000)%Z).
Proof.
  unfold consistent. destruct (blocks m) as [call|], (timeoutWorkItem m) as [d|];
    intros H; try contradiction.
  - right. destruct H as [F R]. split; [exact F|]. exists call, d. auto.
  - left. auto.
Qed.

Lemma ios_consistent_callManager (c : ManagerCall) (m : t) :
  consistent m -> consistent (callManager c m).
Proof. intros H. exact H. Qed.

(** Every event keeps the state consistent. *)
Lemma ios_step_consistent (m : t) (e : Event) : consistent m -> consistent (step m e).
Proof.
  intros C. destruct (ios_consistent_flag m C) as [(F & B & T)|(F & call & d & B & T & R)].
  - destruct e as [c o se st loc| | | |]; cbn [step]; rewrite ?F, ?T; cbn [negb];
      try exact C.
    unfold startRequest. rewrite F.
    destruct se; cbn [negb]; [|unfold consistent; cbn; rewrite B, T; reflexivity].
    cbv zeta.
    pose proof (ios_readInt_range o timeoutMs 8000 1000 30000 ltac:(lia)) as RT.
    destruct st; try destruct loc as [l|];
      try (apply ios_consistent_finishFailure; reflexivity);
      try (unfold consistent; cbn; split; [reflexivity|exact RT]).
    all: match goal with
         | |- context [isFresh ?l ?m1] =>
             destruct (isFresh l m1);
             [apply ios_consistent_finishSuccess; reflexivity
             |unfold consistent; cbn; split; [reflexivity|exact RT]]
         end.
  - destruct e as [c o se st loc| |st loc|ls|code]; cbn [step]; rewrite ?F, ?T;
      cbn [negb].
    + unfold startRequest. rewrite F. unfold consistent. cbn. rewrite B, T. auto.
    + apply ios_consistent_finishFailure. exact F.
    + unfold handleAuthorizationChange.
      destruct st; try destruct loc as [l|]; try exact C;
        try (apply ios_consistent_finishFailure; exact F).
      all: destruct (isFresh l m);
        [apply ios_consistent_finishSuccess; exact F|exact C].
    + destruct (pickLocation ls);
        [apply ios_consistent_finishSuccess|apply ios_consistent_finishFailure]; exact F.
    + destruct code; [exact C| |]; apply ios_consistent_finishFailure; exact F.
Qed.

(** Events other than a call settle at most the call whose blocks are
    held. *)
Lemma ios_step_known_other (m : t) (e : Event) :
  (forall c o se st loc, e <> GetCurrentPosition c o se st loc) ->
  known (step m e) = known m.
Proof.
  intros N. destruct e as [c o se st loc| |st loc|ls|code]; cbn [step].
  - elim (N c o se st loc). reflexivity.
  - destruct (timeoutWorkItem m); [apply ios_known_finishFailure|reflexivity].
  - destruct (requestInFlight m); cbn [negb]; [|reflexivity].
    unfold handleAuthorizationChange.
    destruct st; try destruct loc as [l|]; try reflexivity;
      try apply ios_known_finishFailure.
    all: destruct (isFresh l m); [apply ios_known_finishSuccess|reflexivity].
  - destruct (requestInFlight m); cbn [negb]; [|reflexivity].
    destruct (pickLocation ls); [apply ios_known_finishSuccess|apply ios_known_finishFailure].
  - destruct (requestInFlight m); cbn [negb]; [|reflexivity].
    destruct code; [reflexivity| |]; apply ios_known_finishFailure.
Qed.

(** A call adds itself, and only itself, to the calls known. *)
Lemma ios_step_known_call (m : t) (c : nat) (o : option Options) (se : bool)
  (st : CLAuthorizationStatus) (loc : option CLLocation) :
  consistent m ->
  Permutation (known (step m (GetCurrentPosition c o se st loc))) (c :: known m).
Proof.
  intros C. cbn [step]. unfold startRequest.
  destruct (ios_consistent_flag m C) as [(F & B & T)|(F & call & d & B & T & R)];
    rewrite F.
  - assert (K : known m = map fst (settled m)) by (unfold known; rewrite B; apply app_nil_r).
    rewrite K.
    destruct se; cbn [negb].
    + cbv zeta.
      match goal with
      | |- context [finishFailure _ _ ?m1] =>
          assert (K1 : known m1 = map fst (settled m) ++ [c]) by reflexivity
      end.
      destruct st; try destruct loc as [l|];
        rewrite ?ios_known_finishFailure; try rewrite K1;
        try (symmetry; apply Permutation_cons_append).
      all: match goal with
           | |- context [isFresh ?l ?m1] => destruct (isFresh l m1)
           end; rewrite ?ios_known_finishSuccess; try rewrite K1;
           symmetry; apply Permutation_cons_append.
    + unfold known. cbn [settled blocks]. rewrite B, map_app, app_nil_r.
      symmetry. apply Permutation_cons_append.
  - unfold known. cbn [settled blocks]. rewrite B, map_app, <- app_assoc.
    symmetry. apply Permutation_cons_app. reflexivity.
Qed.

Lemma ios_run_snoc (events : list Event) (e : Event) :
  run (events ++ [e]) = step (run events) e.
Proof. unfold run. rewrite fold_left_app. reflexivity. Qed.

Lemma ios_calls_snoc (events : list Event) (e : Event) :
  calls (events ++ [e])
  = calls events ++ match e with
                    | GetCurrentPosition call _ _ _ _ => [call]
                    | _ => []
                    end.
Proof.
  unfold calls. rewrite flat_map_app. cbn [flat_map]. now rewrite app_nil_r.
Qed.

Lemma ios_run_known (events : list Event) :
  NoDup (calls events) ->
  consistent (run events) /\
  NoDup (known (run events)) /\
  incl (known (run events)) (calls events).
Proof.
  induction events as [|e events IH] using rev_ind; intros D.
  - split; [reflexivity|]. split; [constructor|intros x []].
  - rewrite ios_calls_snoc in D. rewrite ios_calls_snoc, ios_run_snoc.
    assert (D0 : NoDup (calls events)) by (eapply NoDup_app_remove_r; exact D).
    destruct (IH D0) as (C & N & I).
    split; [apply ios_step_consistent; exact C|].
    destruct e as [c o se st loc| | | |];
      try (rewrite ios_step_known_other by (intros; discriminate);
           split; [exact N|]; intros x Hx; apply in_or_app; left; now apply I).
    pose proof (ios_step_known_call (run events) c o se st loc C) as P.
    assert (Fresh : ~ In c (calls events)).
    { intros Hc. apply NoDup_remove_2 in D. apply D. rewrite app_nil_r. exact Hc. }
    split.
    + apply (Permutation_NoDup (Permutation_sym P)).
      constructor; [|exact N]. intros Hc. apply Fresh. now apply I.
    + intros x Hx. apply (Permutation_in _ P) in Hx.
      apply in_or_app. destruct Hx as [<-|Hx]; [right; now left|left; now apply I].
Qed.

(** Over any run of the module in which every call has a promise of its
    own, no promise is settled twice, and only promises of calls made are
    settled; the call whose blocks are held, if any, has not been settled;
    and the module is in flight exactly when it holds blocks and a timeout is
    pending, with a delay between one and thirty seconds. *)
Theorem ios_promises_settled_at_most_once (events : list Event) :
  NoDup (calls events) ->
  let m := run events in
  NoDup (map fst (settled m)) /\
  incl (map fst (settled m)) (calls events) /\
  (forall call, blocks m = Some call ->
     In call (calls events) /\ ~ In call (map fst (settled m))) /\
  consistent m.
Proof.
  intros D m. destruct (ios_run_known events D) as (C & N & I). fold m in C, N, I.
  unfold known in N, I.
  split; [eapply NoDup_app_remove_r; exact N|].
  split; [intros x Hx; apply I, in_or_app; now left|].
  split; [|exact C].
  intros call B. rewrite B in N, I. split.
  - apply I, in_or_app. right. now left.
  - intros Hc. apply NoDup_remove_2 in N. apply N. rewrite app_nil_r. exact Hc.
Qed.

(** While a request is in flight, a further call is rejected with
    [LOCATION_BUSY] and changes nothing else, whatever the system would have
    answered; and in any state that a run reaches, a request in flight is
    settled by its timeout at the latest: the pending work item rejects it
    with [LOCATION_TIMEOUT] and frees the module. *)
Theorem ios_busy_and_timeout (events : list Event) (m : t) :
  NoDup (calls events) ->
  m = run events ->
  requestInFlight m = true ->
  (forall call options servicesEnabled status managerLocation,
     let m' := step m (GetCurrentPosition call options servicesEnabled status
                         managerLocation) in
     settled m' = settled m ++ [(call, Rejected "LOCATION_BUSY" "定位请求进行中。")] /\
     blocks m' = blocks m /\
     timeoutWorkItem m' = timeoutWorkItem m /\
     requestInFlight m' = true /\
     managerCalls m' = managerCalls m) /\
  (exists call,
     blocks m = Some call /\
     settled (step m TimeoutWorkItem)
     = settled m ++ [(call, Rejected "LOCATION_TIMEOUT" "定位超时，请稍后重试。")] /\
     requestInFlight (step m TimeoutWorkItem) = false /\
     blocks (step m TimeoutWorkItem) = None).
Proof.
  intros D -> F. split.
  - intros call options servicesEnabled status managerLocation. cbn [step].
    unfold startRequest. rewrite F. cbn. auto.
  - destruct (ios_run_known events D) as (C & _).
    destruct (ios_consistent_flag _ C) as [(F0 & _)|(_ & call & d & B & T & _)];
      [congruence|].
    exists call. split; [exact B|]. cbn [step]. rewrite T.
    unfold finishFailure. rewrite F. cbn [negb].
    unfold callBlock. rewrite B. cbn. auto.
Qed.

End NativeLocationIOSFacts.

Lemma ios_promises_settled_at_most_once_witness :
  let events :=
    [NativeLocationIOS.GetCurrentPosition 1 None true
       NativeLocationIOS.authorizedWhenInUse None;
     NativeLocationIOS.GetCurrentPosition 2 None true
       NativeLocationIOS.authorizedWhenInUse None;
     NativeLocationIOS.TimeoutWorkItem;
     NativeLocationIOS.DidFailWithError NativeLocationIOS.otherError] in
  map fst (NativeLocationIOS.settled (NativeLocationIOS.run events)) = [2%nat; 1%nat] /\
  NoDup (map fst (NativeLocationIOS.settled (NativeLocationIOS.run events))).
Proof.
  intros events. split; [reflexivity|].
  apply (ios_promises_settled_at_most_once events).
  unfold events. cbn. constructor; [intros [E|[]]; discriminate E|].
  constructor; [intros []|constructor].
Defined.

Lemma ios_busy_and_timeout_witness :
  let events :=
    [NativeLocationIOS.GetCurrentPosition 1
       (Some {| NativeLocationIOS.timeoutMs := Some 8000%Z;
                NativeLocationIOS.maxAgeMs := Some 60000%Z |})
       true NativeLocationIOS.notDetermined None] in
  NativeLocationIOS.settled
    (NativeLocationIOS.step (NativeLocationIOS.run events)
       NativeLocationIOS.TimeoutWorkItem)
  = [(1%nat, NativeLocationIOS.Rejected "LOCATION_TIMEOUT" "定位超时，请稍后重试。")].
Proof.
  intros events.
  destruct (ios_busy_and_timeout events (NativeLocationIOS.run events))
    as (_ & call & B & E & _).
  - unfold events. cbn. constructor; [intros []|constructor].
  - reflexivity.
  - reflexivity.
  - rewrite E. vm_compute in B. injection B as <-. reflexivity.
Defined.

(** ** The Android location module *)

Section NativeLocationAndroidFacts.

Import NativeLocationAndroid.

Lemma android_coerceIn_range (value min max : Z) :
  (min <= max)%Z -> (min <= coerceIn value min max <= max)%Z.
Proof.
  intros H. unfold coerceIn.
  destruct (value <? min)%Z eqn:A; [lia|].
  destruct (max <? value)%Z eqn:B; [lia|].
  apply Z.ltb_ge in A. apply Z.ltb_ge in B. lia.
Qed.

Lemma android_readInt_range (options : option Options) (key : Options -> Entry)
  (defaultValue min max : Z) :
  (min <= defaultValue <= max)%Z ->
  (min <= readInt options key defaultValue min max <= max)%Z.
Proof.
  intros H. unfold readInt. destruct options as [o|]; [|exact H].
  destruct (key o); [exact H| |]; apply android_coerceIn_range; lia.
Qed.

Lemma android_bestLastKnownLocation_spec (sys : System) :
  match bestLastKnownLocation sys with
  | Some best =>
      (exists p, getLastKnownLocation sys p = Some best) /\
      (forall p l, getLastKnownLocation sys p = Some l -> (time l <= time best)%Z)
  | None => forall p, getLastKnownLocation sys p = None
  end.
Proof.
  unfold bestLastKnownLocation, providers. cbn [fold_left].
  destruct (getLastKnownLocation sys GPS_PROVIDER) as [g|] eqn:G;
    destruct (getLastKnownLocation sys NETWORK_PROVIDER) as [n|] eqn:N;
    destruct (getLastKnownLocation sys PASSIVE_PROVIDER) as [q|] eqn:P;
    repeat match goal with
           | |- context [(?a <? ?b)%Z] =>
               let E := fresh "E" in
               destruct (a <? b)%Z eqn:E;
               [apply Z.ltb_lt in E|apply Z.ltb_ge in E]
           end;
    try (intros []; assumption);
    (split;
     [first [now exists GPS_PROVIDER|now exists NETWORK_PROVIDER
            |now exists PASSIVE_PROVIDER]
     |intros [] l H; rewrite ?G, ?N, ?P in H; try discriminate H;
      injection H as <-; lia]).
Qed.

Lemma android_pickProvider_spec (sys : System) :
  match pickProvider sys with
  | Some p =>
      isProviderEnabled sys p = true /\
      (isProviderEnabled sys GPS_PROVIDER = true -> p = GPS_PROVIDER) /\
      (isProviderEnabled sys NETWORK_PROVIDER = true -> p <> PASSIVE_PROVIDER)
  | None => forall p, isProviderEnabled sys p = false
  end.
Proof.
  unfold pickProvider.
  destruct (isProviderEnabled sys GPS_PROVIDER) eqn:G;
    [split; [exact G|split; [reflexivity|discriminate]]|].
  destruct (isProviderEnabled sys NETWORK_PROVIDER) eqn:N;
    [split; [exact N|split; [discriminate|discriminate]]|].
  destruct (isProviderEnabled sys PASSIVE_PROVIDER) eqn:P;
    [split; [exact P|split; discriminate]|].
  intros []; assumption.
Qed.

(** How [getCurrentPosition] ends.  It resolves at once only with the
    newest of the last known fixes of the three providers, labelled
    [last_known], when the service is there, a location permission is
    granted, a provider is enabled and that fix is at most [maxAgeMs] old,
    which is never more than ten minutes.  It hands over to
    [requestSingleLocation] only with an enabled provider, GPS before network
    before passive, and a timeout between one and thirty seconds.  Without
    a permission it rejects with [LOCATION_PERMISSION_DENIED] and asks
    nothing of the providers. *)
Theorem android_getCurrentPosition_cases (options : option Options) (sys : System) :
  match getCurrentPosition options sys with
  | Settled (Resolved found label) =>
      label = "last_known"%string /\
      locationService sys = true /\ hasLocationPermission sys = true /\
      (exists p, isProviderEnabled sys p = true) /\
      exists best,
        found = Some best /\
        (exists p, getLastKnownLocation sys p = Some best) /\
        (forall p l, getLastKnownLocation sys p = Some l -> (time l <= time best)%Z) /\
        (currentTimeMillis sys - time best <= 600000)%Z
  | Settled (Rejected code _) =>
      (code = "LOCATION_SERVICE_UNAVAILABLE"%string /\ locationService sys = false) \/
      (code = "LOCATION_PERMISSION_DENIED"%string /\ locationService sys = true /\
       hasLocationPermission sys = false) \/
      (code = "LOCATION_PROVIDER_DISABLED"%string /\
       forall p, isProviderEnabled sys p = false)
  | RequestSingleLocation p timeout =>
      locationService sys = true /\ hasLocationPermission sys = true /\
      isProviderEnabled sys p = true /\
      (isProviderEnabled sys GPS_PROVIDER = true -> p = GPS_PROVIDER) /\
      (isProviderEnabled sys NETWORK_PROVIDER = true -> p <> PASSIVE_PROVIDER) /\
      (1000 <= timeout <= 30000)%Z
  end.
Proof.
  unfold getCurrentPosition.
  destruct (locationService sys) eqn:S; cbn [negb]; [|left; auto].
  destruct (hasLocationPermission sys) eqn:H; cbn [negb]; [|right; left; auto].
  cbv zeta.
  pose proof (android_pickProvider_spec sys) as PP.
  destruct (pickProvider sys) as [p|]; [|right; right; auto].
  destruct PP as (E & G & N).
  pose proof (android_readInt_range options timeoutMs 8000 1000 30000 ltac:(lia)) as RT.
  pose proof (android_readInt_range options maxAgeMs 60000 0 600000 ltac:(lia)) as RA.
  pose proof (android_bestLastKnownLocation_spec sys) as BB.
  destruct (bestLastKnownLocation sys) as [best|]; [|auto 10].
  destruct BB as (B1 & B2).
  destruct (currentTimeMillis sys - time best
            <=? readInt options maxAgeMs 60000 0 600000)%Z eqn:F; [|auto 10].
  apply Z.leb_le in F.
  split; [reflexivity|]. split; [reflexivity|]. split; [reflexivity|].
  split; [now exists p|]. exists best. split; [reflexivity|].
  split; [exact B1|]. split; [exact B2|lia].
Qed.

Lemma android_settleOnce_spec (how : Settlement) (unregister : bool) (r : Request) :
  handled (settleOnce how unregister r) = true /\
  settled (settleOnce how unregister r)
  = (if handled r then settled r else settled r ++ [how]) /\
  timeoutRunnablePosted (settleOnce how unregister r) = timeoutRunnablePosted r.
Proof.
  unfold settleOnce. destruct (handled r) eqn:H; cbn; auto.
Qed.

Lemma android_start_guarded (sdkAtLeastR : bool) (p : Provider) (start : Start) :
  guarded (requestSingleLocation sdkAtLeastR p start).
Proof. destruct start; cbn; auto. Qed.

Lemma android_step_guarded (r : Request) (e : Event) :
  guarded r ->
  guarded (step r e) /\
  (handled r = true -> settled (step r e) = settled r /\ handled (step r e) = true) /\
  (e = TimeoutRunnable \/ e = ListenerTimer -> handled (step r e) = true).
Proof.
  unfold guarded. destruct r as [p h posted reg canc st]. cbn.
  destruct h; intros G.
  - destruct e as [|l| |l|d|]; cbn; try destruct posted; cbn;
      try destruct (Provider_eqb d p); cbn; auto.
  - destruct G as [-> ->].
    destruct e as [|l| |l|d|]; cbn; try destruct (Provider_eqb d p); cbn;
      (split; [auto|]); (split; [discriminate|]);
      intros [E|E]; try discriminate E; reflexivity.
Qed.

(** The promise handed to [requestSingleLocation] is settled at most once,
    at either API level and whatever callbacks and timers run afterwards and
    in whatever order; it is settled exactly when the flag [handled] is set;
    when the start throws it is rejected at once and nothing that runs later
    changes that; and once the timeout runnable or the listener timer has
    run, it is settled. *)
Theorem android_promise_settled_at_most_once
  (sdkAtLeastR : bool) (p : Provider) (start : Start) (events : list Event) :
  let r0 := requestSingleLocation sdkAtLeastR p start in
  let r := run r0 events in
  (List.length (settled r) <= 1)%nat /\
  (handled r = true <-> List.length (settled r) = 1%nat) /\
  (start <> Returns -> List.length (settled r0) = 1%nat /\ settled r = settled r0) /\
  (In TimeoutRunnable events \/ In ListenerTimer events -> handled r = true).
Proof.
  intros r0 r.
  assert (K : forall evs r1,
            guarded r1 ->
            guarded (run r1 evs) /\
            (handled r1 = true ->
             settled (run r1 evs) = settled r1 /\ handled (run r1 evs) = true) /\
            (In TimeoutRunnable evs \/ In ListenerTimer evs ->
             handled (run r1 evs) = true)).
  { induction evs as [|e evs IH]; intros r1 G.
    - split; [exact G|]. split; [auto|]. intros [[]|[]].
    - destruct (android_step_guarded r1 e G) as (G1 & H1 & T1).
      destruct (IH (step r1 e) G1) as (G2 & H2 & T2).
      unfold run in *. cbn [fold_left].
      split; [exact G2|]. split.
      + intros H. destruct (H1 H) as [A B]. destruct (H2 B) as [C D].
        split; [congruence|exact D].
      + intros [[E|I]|[E|I]].
        * apply H2. apply T1. left. now symmetry.
        * apply T2. now left.
        * apply H2. apply T1. right. now symmetry.
        * apply T2. now right. }
  destruct (K events r0 (android_start_guarded sdkAtLeastR p start)) as (G & H & T).
  fold r in G, H, T. unfold guarded in G.
  split; [destruct (handled r); [lia|destruct G as [-> _]; cbn; lia]|].
  split.
  - destruct (handled r); [split; auto|].
    destruct G as [-> _]. split; [discriminate|cbn; discriminate].
  - split; [|exact T].
    intros N. assert (H0 : handled r0 = true) by (destruct start; [now elim N| |];
                                                  reflexivity).
    split; [destruct start; [now elim N| |]; reflexivity|].
    exact (proj1 (H H0)).
Qed.

End NativeLocationAndroidFacts.

Lemma android_promise_settled_at_most_once_witness :
  NativeLocationAndroid.settled
    (NativeLocationAndroid.run
       (NativeLocationAndroid.requestSingleLocation true
          NativeLocationAndroid.GPS_PROVIDER NativeLocationAndroid.Returns)
       [NativeLocationAndroid.TimeoutRunnable;
        NativeLocationAndroid.CurrentLocationCallback None;
        NativeLocationAndroid.CancelTimer])
  = [NativeLocationAndroid.Rejected "LOCATION_TIMEOUT" "定位超时，请稍后重试。"] /\
  NativeLocationAndroid.handled
    (NativeLocationAndroid.run
       (NativeLocationAndroid.requestSingleLocation true
          NativeLocationAndroid.GPS_PROVIDER NativeLocationAndroid.Returns)
       [NativeLocationAndroid.TimeoutRunnable;
        NativeLocationAndroid.CurrentLocationCallback None;
        NativeLocationAndroid.CancelTimer]) = true.
Proof.
  split; [reflexivity|].
  destruct (android_promise_settled_at_most_once true
              NativeLocationAndroid.GPS_PROVIDER NativeLocationAndroid.Returns
              [NativeLocationAndroid.TimeoutRunnable;
               NativeLocationAndroid.CurrentLocationCallback None;
               NativeLocationAndroid.CancelTimer]) as (_ & _ & _ & H).
  apply H. left. left. reflexivity.
Defined.

(** ** The radius of the nearby search *)

Lemma clamp_integer_value (m t : Z) :
  (0 <= m)%Z ->
  Math_max 0 (Math_min (inject_Z m) (inject_Z t)) = inject_Z (Z.max 0 (Z.min m t)).
Proof.
  intros Hm. change 0 with (inject_Z 0). unfold Math_max, Math_min.
  rewrite (Qle_bool_inject_Z m t).
  destruct (m <=? t)%Z eqn:E.
  - apply Z.leb_le in E. rewrite Qle_bool_inject_Z.
    destruct (0 <=? m)%Z eqn:F; [|apply Z.leb_gt in F; lia].
    f_equal. lia.
  - apply Z.leb_gt in E. rewrite Qle_bool_inject_Z.
    destruct (0 <=? t)%Z eqn:F; f_equal;
      [apply Z.leb_le in F|apply Z.leb_gt in F]; lia.
Qed.

(** *** [String(n)] read back *)

Lemma decimal_of_uint_acc (d : Decimal.uint) (acc : positive) :
  JsString.decimal (Z.pos acc) (DecimalString.NilEmpty.string_of_uint d)
  = Z.pos (Pos.of_uint_acc d acc).
Proof.
  revert acc. induction d; intros acc;
    cbn [DecimalString.NilEmpty.string_of_uint JsString.decimal Pos.of_uint_acc];
    try reflexivity;
    rewrite <- IHd; f_equal;
    match goal with
    | |- context [Ascii.nat_of_ascii ?c] =>
        let v := eval vm_compute in (Ascii.nat_of_ascii c) in
        change (Ascii.nat_of_ascii c) with v
    end; lia.
Qed.

Lemma decimal_of_uint (d : Decimal.uint) :
  JsString.decimal 0 (DecimalString.NilEmpty.string_of_uint d) = Z.of_N (Pos.of_uint d).
Proof.
  induction d;
    cbn [DecimalString.NilEmpty.string_of_uint JsString.decimal Pos.of_uint];
    try reflexivity; try exact IHd;
    cbn [Z.of_N]; rewrite <- decimal_of_uint_acc; f_equal.
Qed.

Lemma allDigits_of_uint (d : Decimal.uint) :
  JsString.allDigits (DecimalString.NilEmpty.string_of_uint d) = true.
Proof. induction d; cbn; auto. Qed.

Lemma length_of_uint (d : Decimal.uint) :
  String.length (DecimalString.NilEmpty.string_of_uint d) = Decimal.nb_digits d.
Proof. induction d; cbn; auto. Qed.

Lemma nb_digits_double (d : Decimal.uint) :
  (Decimal.nb_digits (Decimal.Little.double d) <= S (Decimal.nb_digits d))%nat /\
  (Decimal.nb_digits (Decimal.Little.succ_double d) <= S (Decimal.nb_digits d))%nat.
Proof.
  induction d as [|d [A B]|d [A B]|d [A B]|d [A B]|d [A B]|d [A B]|d [A B]|d [A B]
                  |d [A B]|d [A B]]; cbn; split; lia.
Qed.

Lemma nb_digits_to_little_uint (p : positive) :
  (Decimal.nb_digits (Pos.to_little_uint p) <= Pos.size_nat p)%nat.
Proof.
  induction p as [p IH|p IH|]; cbn [Pos.to_little_uint Pos.size_nat].
  - destruct (nb_digits_double (Pos.to_little_uint p)) as [_ B]. lia.
  - destruct (nb_digits_double (Pos.to_little_uint p)) as [A _]. lia.
  - cbn. lia.
Qed.

(** The text of a whole number from 0 to 10000 is made of one to fifteen
    digits and reads back as the number. *)
Lemma radius_text (z : Z) :
  (0 <= z <= 10000)%Z ->
  let text := JsString.String_of_integer z in
  JsString.allDigits text = true /\
  (1 <= String.length text <= 15)%nat /\
  JsString.decimal 0 text = z.
Proof.
  intros H. unfold JsString.String_of_integer.
  destruct z as [|p|p]; [cbn; repeat split; lia| |lia].
  cbn [Z.to_int DecimalString.NilZero.string_of_int].
  assert (N : Pos.to_uint p <> Decimal.Nil) by apply DecimalPos.Unsigned.to_uint_nonnil.
  assert (E : DecimalString.NilZero.string_of_uint (Pos.to_uint p)
              = DecimalString.NilEmpty.string_of_uint (Pos.to_uint p)).
  { unfold DecimalString.NilZero.string_of_uint.
    destruct (Pos.to_uint p); [now elim N|reflexivity..]. }
  rewrite E. cbv zeta.
  split; [apply allDigits_of_uint|]. split.
  - rewrite length_of_uint. split.
    + destruct (Pos.to_uint p); [now elim N|cbn; lia..].
    + unfold Pos.to_uint. rewrite DecimalFacts.nb_digits_rev.
      pose proof (nb_digits_to_little_uint p) as B.
      assert (S : (Pos.size_nat p <= Pos.size_nat 10000)%nat).
      { destruct (Pos.eq_dec p 10000) as [->|Ne]; [lia|].
        apply Pos.size_nat_monotone. lia. }
      cbn in S. lia.
  - rewrite decimal_of_uint, DecimalPos.Unsigned.of_to. reflexivity.
Qed.

Section NearbyRadiusFacts.

Variable Number_of_text : string -> number.
Variable trim : string -> string.

Local Abbreviation apply_input := (applyNearbyRadiusInput Number_of_text trim).
Local Abbreviation radius_step := (radiusStep Number_of_text trim).

(** Whatever is typed, applied or pressed, and in whatever order, the
    radius of the nearby query is a whole number of metres between 0 and
    10000. *)
Theorem nearby_radius_stays_in_range (events : list RadiusEvent) :
  exists z,
    nearbyRadius (fold_left radius_step events initialNearbyRadius) = inject_Z z /\
    (0 <= z <= 10000)%Z.
Proof.
  assert (K : forall evs st,
            (exists z, nearbyRadius st = inject_Z z /\ (0 <= z <= 10000)%Z) ->
            exists z, nearbyRadius (fold_left radius_step evs st) = inject_Z z /\
                      (0 <= z <= 10000)%Z).
  { induction evs as [|e evs IH]; intros st H; [exact H|].
    cbn [fold_left]. apply IH.
    destruct e as [value| |c]; cbn [radiusStep nearbyRadius].
    - exact H.
    - unfold applyNearbyRadiusInput.
      destruct (Number Number_of_text (trim (nearbyRadiusInput st))) as [parsed|];
        [|exact H].
      cbv zeta. cbn [nearbyRadius]. change 10000 with (inject_Z 10000).
      rewrite clamp_integer_value by lia. eexists. split; [reflexivity|lia].
    - exists (chipRadius c). split; [reflexivity|destruct c; cbn; lia]. }
  apply K. exists 1000%Z. split; [reflexivity|lia].
Qed.

(** Applying the radius input.  With a text that is no number the radius
    is kept and an error shown.  With a number the radius becomes the
    nearest whole number within 0..10000 and the error is shown exactly when
    that differs from what was typed.  Applying a second time, as the blur
    and the button do in a row, keeps the radius and the text and clears the
    error. *)
Theorem apply_radius_input_twice (st : NearbyRadius) :
  (forall text, JsString.allDigits text = true -> trim text = text) ->
  let st1 := apply_input st in
  match Number Number_of_text (trim (nearbyRadiusInput st)) with
  | NotFinite =>
      nearbyRadius st1 = nearbyRadius st /\
      nearbyRadiusInput st1 = nearbyRadiusInput st /\
      nearbyRadiusError st1 <> ""%string
  | Finite parsed =>
      nearbyRadius st1 = inject_Z (Z.max 0 (Z.min 10000 (Math_round parsed))) /\
      (nearbyRadiusError st1 = ""%string <-> nearbyRadius st1 == parsed) /\
      (0 <= parsed <= 10000 ->
       nearbyRadius st1 - (1 # 2) <= parsed /\ parsed < nearbyRadius st1 + (1 # 2)) /\
      nearbyRadius (apply_input st1) = nearbyRadius st1 /\
      nearbyRadiusInput (apply_input st1) = nearbyRadiusInput st1 /\
      nearbyRadiusError (apply_input st1) = ""%string
  end.
Proof.
  intros Htrim st1.
  destruct (Number Number_of_text (trim (nearbyRadiusInput st))) as [parsed|] eqn:N.
  - assert (E1 : st1
                 = {| nearbyRadius := inject_Z (Z.max 0 (Z.min 10000 (Math_round parsed)));
                      nearbyRadiusInput :=
                        JsString.String_of_integer
                          (Z.max 0 (Z.min 10000 (Math_round parsed)));
                      nearbyRadiusError :=
                        if negb (Qeq_bool
                                   (inject_Z (Z.max 0 (Z.min 10000 (Math_round parsed))))
                                   parsed)
                        then "范围需在 0-10000m，已自动修正"%string else ""%string |}).
    { unfold st1, applyNearbyRadiusInput. rewrite N. cbv zeta.
      change 10000 with (inject_Z 10000).
      rewrite clamp_integer_value by lia. rewrite Qtrunc_inject_Z. reflexivity. }
    set (z := Z.max 0 (Z.min 10000 (Math_round parsed))) in *.
    assert (R : (0 <= z <= 10000)%Z) by (unfold z; lia).
    destruct (radius_text z R) as (T1 & T2 & T3).
    rewrite E1. cbn [nearbyRadius nearbyRadiusInput nearbyRadiusError].
    split; [reflexivity|]. split.
    { destruct (Qeq_bool (inject_Z z) parsed) eqn:Q; cbn [negb].
      - apply Qeq_bool_iff in Q. split; [intros _; exact Q|reflexivity].
      - split; [discriminate|]. intros Q'. apply Qeq_bool_iff in Q'. congruence. }
    split.
    { intros [P0 P1]. unfold z, Math_round.
      pose proof (Qfloor_le (parsed + (1 # 2))) as F1.
      pose proof (Qlt_floor (parsed + (1 # 2))) as F2.
      rewrite inject_Z_plus in F2. change (inject_Z 1) with 1 in F2.
      assert (B0 : (0 <= Qfloor (parsed + (1 # 2)))%Z).
      { apply Z.lt_succ_r. rewrite Zlt_Qlt. rewrite <- Z.add_1_r, inject_Z_plus.
        change (inject_Z 0) with 0. change (inject_Z 1) with 1. lra. }
      assert (B1 : (Qfloor (parsed + (1 # 2)) <= 10000)%Z).
      { destruct (Z_le_gt_dec (Qfloor (parsed + (1 # 2))) 10000) as [L|G];
          [exact L|].
        exfalso. assert (G' : (10001 <= Qfloor (parsed + (1 # 2)))%Z) by lia.
        rewrite Zle_Qle in G'. change (inject_Z 10001) with 10001 in G'. lra. }
      replace (Z.max 0 (Z.min 10000 (Qfloor (parsed + (1 # 2)))))
        with (Qfloor (parsed + (1 # 2))) by lia.
      split; lra. }
    assert (N2 : Number Number_of_text (trim (JsString.String_of_integer z))
                 = Finite (inject_Z z)).
    { rewrite Htrim by exact T1. unfold Number.
      rewrite T1, (proj2 (Nat.leb_le _ _) (proj1 T2)),
              (proj2 (Nat.leb_le _ _) (proj2 T2)), T3. reflexivity. }
    unfold applyNearbyRadiusInput. cbn [nearbyRadiusInput]. rewrite N2. cbv zeta.
    cbn [nearbyRadius nearbyRadiusInput nearbyRadiusError].
    unfold Math_round.
    assert (F : Qfloor (inject_Z z + (1 # 2)) = z).
    { pose proof (Qfloor_le (inject_Z z + (1 # 2))) as F1.
      pose proof (Qlt_floor (inject_Z z + (1 # 2))) as F2.
      rewrite inject_Z_plus in F2. change (inject_Z 1) with 1 in F2.
      assert (A1 : (Qfloor (inject_Z z + (1 # 2)) < z + 1)%Z).
      { rewrite Zlt_Qlt, inject_Z_plus. change (inject_Z 1) with 1. lra. }
      assert (A2 : (z < Qfloor (inject_Z z + (1 # 2)) + 1)%Z).
      { rewrite Zlt_Qlt, inject_Z_plus. change (inject_Z 1) with 1. lra. }
      lia. }
    rewrite F. change 10000 with (inject_Z 10000).
    rewrite clamp_integer_value by lia. rewrite Qtrunc_inject_Z.
    replace (Z.max 0 (Z.min 10000 z)) with z by lia.
    split; [reflexivity|]. split; [reflexivity|].
    replace (Qeq_bool (inject_Z z) (inject_Z z)) with true
      by (symmetry; apply Qeq_bool_iff; reflexivity).
    reflexivity.
  - unfold st1, applyNearbyRadiusInput. rewrite N.
    cbn [nearbyRadius nearbyRadiusInput nearbyRadiusError].
    split; [reflexivity|]. split; [reflexivity|]. discriminate.
Qed.

End NearbyRadiusFacts.

Lemma apply_radius_input_twice_witness :
  let st := radiusStep sampleNumber_of_text sampleTrim initialNearbyRadius
              (RadiusTyped "25000") in
  let st1 := applyNearbyRadiusInput sampleNumber_of_text sampleTrim st in
  nearbyRadius st1 = 10000 /\
  nearbyRadiusError (applyNearbyRadiusInput sampleNumber_of_text sampleTrim st1)
  = ""%string.
Proof.
  intros st st1.
  pose proof (apply_radius_input_twice sampleNumber_of_text sampleTrim st
                (fun text _ => eq_refl)) as H.
  cbv zeta in H.
  change (Number sampleNumber_of_text (sampleTrim (nearbyRadiusInput st)))
    with (Finite 25000) in H.
  destruct H as (R & _ & _ & _ & _ & E).
  split; [|exact E]. fold st1 in R. rewrite R. vm_compute. reflexivity.
Defined.

(** ** Runtime configuration and URLs *)

Section RuntimeFacts.

Import Runtime.

Lemma runtime_trim_no_slash (value : string) :
  endsWithSlash (trimTrailingSlash value) = false.
Proof.
  induction value as [|c rest IH]; [reflexivity|].
  cbn [trimTrailingSlash].
  destruct (trimTrailingSlash rest) as [|d trimmed] eqn:E.
  - destruct (isSlash c) eqn:S; [reflexivity|]. cbn. exact S.
  - cbn [endsWithSlash] in *. exact IH.
Qed.

Lemma runtime_trim_fixed (value : string) :
  endsWithSlash value = false -> trimTrailingSlash value = value.
Proof.
  induction value as [|c rest IH]; [reflexivity|].
  intros H. cbn [trimTrailingSlash]. destruct rest as [|d rest'].
  - cbn in *. rewrite H. reflexivity.
  - cbn [endsWithSlash] in H. rewrite (IH H). reflexivity.
Qed.

Lemma runtime_startsWith_app (prefix value more : string) :
  startsWith prefix value = true -> startsWith prefix (value ++ more) = true.
Proof.
  revert value. induction prefix as [|p prefix IH]; intros [|v value] H;
    try reflexivity; try discriminate H.
  cbn in *. apply andb_true_iff in H. destruct H as [A B].
  rewrite A. cbn. now apply IH.
Qed.

Lemma runtime_startsWith_i_app (prefix value more : string) :
  startsWith_i prefix value = true -> startsWith_i prefix (value ++ more) = true.
Proof.
  revert value. induction prefix as [|p prefix IH]; intros [|v value] H;
    try reflexivity; try discriminate H.
  cbn [startsWith_i append] in *. apply andb_true_iff in H. destruct H as [A B].
  rewrite A. cbn [andb]. now apply IH.
Qed.

Lemma runtime_isAbsoluteUrl_app (value more : string) :
  isAbsoluteUrl value = true -> isAbsoluteUrl (value ++ more) = true.
Proof.
  unfold isAbsoluteUrl. intros H.
  repeat (apply orb_true_iff in H; destruct H as [H|H]);
    [apply (runtime_startsWith_i_app _ _ more) in H
    |apply (runtime_startsWith_i_app _ _ more) in H
    |apply (runtime_startsWith_i_app _ _ more) in H
    |apply (runtime_startsWith_app _ _ more) in H
    |apply (runtime_startsWith_app _ _ more) in H];
    rewrite H; rewrite ?orb_true_r; reflexivity.
Qed.

Lemma runtime_leading_slash (path : string) :
  startsWith "/" path = true -> exists rest, path = ("/" ++ rest)%string.
Proof.
  destruct path as [|c rest]; [discriminate|]. cbn. intros H.
  apply andb_true_iff in H. destruct H as [H _]. apply Nat.eqb_eq in H.
  exists rest. f_equal.
  rewrite <- (Ascii.ascii_nat_embedding c), <- H. reflexivity.
Qed.

Variable trim : string -> string.
Variable runtimeGlobal nativeConfig : option string.
Variable DEV : bool.

Local Abbreviation base := (API_BASE_URL trim runtimeGlobal nativeConfig DEV).
Local Abbreviation api_url := (buildApiUrl trim runtimeGlobal nativeConfig DEV).
Local Abbreviation asset_url := (toBackendAssetUrl trim runtimeGlobal nativeConfig DEV).

(** However the base URL is configured, it does not end in a slash, and
    trimming it again changes nothing; [buildApiUrl] puts the path behind it
    with a slash of its own only when the path has none, so that a path
    with and without its leading slash give the same URL. *)
Theorem api_url_joined_by_one_slash (path : string) :
  endsWithSlash base = false /\
  trimTrailingSlash base = base /\
  (exists rest,
     api_url path = (base ++ "/" ++ rest)%string /\
     (path = rest \/ path = ("/" ++ rest)%string)) /\
  (startsWith "/" path = false -> api_url ("/" ++ path) = api_url path).
Proof.
  assert (E : endsWithSlash base = false) by apply runtime_trim_no_slash.
  split; [exact E|]. split; [apply runtime_trim_fixed; exact E|]. split.
  - unfold buildApiUrl. destruct (startsWith "/" path) eqn:S.
    + destruct (runtime_leading_slash path S) as [rest ->].
      exists rest. split; [reflexivity|now right].
    + exists path. split; [reflexivity|now left].
  - intros S. unfold buildApiUrl. rewrite S. reflexivity.
Qed.

(** With a base URL that is itself absolute, or empty, resolving an asset
    URL a second time changes nothing: what [toBackendAssetUrl] returns is
    absolute or was left alone.  It returns nothing exactly for a missing or
    empty value. *)
Theorem asset_url_resolved_once (value : option string) :
  isAbsoluteUrl base = true \/ base = ""%string ->
  asset_url (asset_url value) = asset_url value /\
  (asset_url value = None <-> value = None \/ value = Some ""%string).
Proof.
  intros H. unfold toBackendAssetUrl.
  destruct value as [text|]; [|split; [reflexivity|split; auto]].
  destruct (JsString.Boolean text) eqn:B; cbn [negb].
  - assert (N : text <> ""%string) by (intros ->; discriminate B).
    assert (R : forall u : option string,
              u <> None -> (u = None <-> Some text = None \/ Some text = Some ""%string)).
    { intros u Hu. split; [intros U; contradiction|].
      intros [U|U]; [discriminate U|]. injection U as U. contradiction. }
    destruct (isAbsoluteUrl text) eqn:A.
    + rewrite B, A. cbn [negb]. split; [reflexivity|apply R; discriminate].
    + destruct (JsString.Boolean base) eqn:BB; cbn [negb].
      * destruct H as [H|H0]; [|rewrite H0 in BB; discriminate BB].
        assert (NB : forall more, JsString.Boolean (base ++ more) = true).
        { intros more. destruct base; [discriminate BB|reflexivity]. }
        destruct (startsWith "/" text); rewrite NB; cbn [negb];
          rewrite (runtime_isAbsoluteUrl_app _ _ H);
          (split; [reflexivity|apply R; discriminate]).
      * rewrite B, A. cbn [negb]. split; [reflexivity|apply R; discriminate].
  - split; [reflexivity|]. split; [intros _|reflexivity].
    right. destruct text; [reflexivity|discriminate B].
Qed.

End RuntimeFacts.

Lemma asset_url_resolved_once_witness :
  Runtime.toBackendAssetUrl sampleTrim None None false
    (Runtime.toBackendAssetUrl sampleTrim None None false (Some "uploads/a.jpg"%string))
  = Some "https://api.lycoris.online/uploads/a.jpg"%string.
Proof.
  destruct (asset_url_resolved_once sampleTrim None None false
              (Some "uploads/a.jpg"%string)) as [E _].
  - left. reflexivity.
  - rewrite E. reflexivity.
Defined.

(** ** Picking an image to upload *)

Section ImageUploadFacts.

Import ImageUpload.

Lemma image_hasExt_app (raw ext : string) :
  JsString.Boolean ext = true -> allAlnum ext = true ->
  hasExt (raw ++ "." ++ ext) = true.
Proof.
  intros B A.
  assert (T : hasExt ("." ++ ext) = true) by (cbn [append hasExt]; now rewrite B, A).
  remember ("." ++ ext)%string as tail. clear Heqtail.
  induction raw as [|c raw IH]; [exact T|].
  cbn [append hasExt]. rewrite IH. apply orb_true_r.
Qed.

Lemma image_extFromMime_alnum (mime : string) :
  JsString.Boolean (extFromMime mime) = true /\ allAlnum (extFromMime mime) = true.
Proof.
  unfold extFromMime. cbv zeta.
  repeat match goal with
         | |- context [if ?c then _ else _] => destruct c
         end; split; reflexivity.
Qed.

Lemma image_Math_max_integer (a b : Z) :
  Math_max (inject_Z a) (inject_Z b) = inject_Z (Z.max a b).
Proof.
  unfold Math_max. rewrite Qle_bool_inject_Z.
  destruct (a <=? b)%Z eqn:E; f_equal;
    [apply Z.leb_le in E|apply Z.leb_gt in E]; lia.
Qed.

Variable trim : string -> string.
Variable now : string.

Local Abbreviation normalize := (normalizeUploadImage trim now).
Local Abbreviation pick := (pickUploadImage trim now).

Lemma image_normalized (asset : Asset) (fallbackPrefix : string)
  (file : LocalUploadImage.t) :
  normalize asset fallbackPrefix = Some file ->
  LocalUploadImage.uri file <> ""%string /\
  Runtime.startsWith "image/" (LocalUploadImage.type file) = true /\
  hasExt (LocalUploadImage.name file) = true /\
  exists bytes, LocalUploadImage.size file = inject_Z bytes /\ (0 <= bytes)%Z.
Proof.
  unfold normalizeUploadImage. cbv zeta.
  destruct (uri asset) as [u|]; [|discriminate].
  destruct (JsString.Boolean u) eqn:U; cbn [negb]; [|discriminate].
  remember (match type asset with
            | Some text =>
                if Runtime.startsWith "image/" text then text else "image/jpeg"%string
            | None => "image/jpeg"%string
            end) as ty eqn:Ety.
  remember (match fileSize asset with
            | Some (Finite bytes) => Math_max 0 (inject_Z (Qfloor bytes))
            | _ => 0
            end) as sz eqn:Esz.
  match goal with
  | |- Some {| LocalUploadImage.uri := _; LocalUploadImage.name := ?n;
               LocalUploadImage.type := _; LocalUploadImage.size := _ |} = _ -> _ =>
      remember n as nm eqn:Enm
  end.
  intros H. injection H as <-.
  cbn [LocalUploadImage.uri LocalUploadImage.type LocalUploadImage.name
       LocalUploadImage.size].
  split; [intros ->; discriminate U|]. split; [|split].
  - rewrite Ety. destruct (type asset) as [t|]; [|reflexivity].
    destruct (Runtime.startsWith "image/" t) eqn:T; [exact T|reflexivity].
  - rewrite Enm.
    match goal with
    | |- hasExt (if hasExt ?raw then _ else _) = true =>
        destruct (hasExt raw) eqn:Hx;
        [exact Hx
        |destruct (image_extFromMime_alnum ty) as [B A];
         apply image_hasExt_app; assumption]
    end.
  - rewrite Esz. destruct (fileSize asset) as [[bytes|]|];
      [|exists 0%Z; split; [reflexivity|lia]..].
    change 0 with (inject_Z 0). rewrite image_Math_max_integer.
    eexists. split; [reflexivity|lia].
Qed.

(** A file that [pickUploadImage] returns has a location, a type that
    begins with [image/], a name that ends in a dot and letters or digits,
    and a whole number of bytes between zero and five mebibytes; for an
    avatar neither its type nor its name says HEIC or HEIF; and its size is
    reported as known exactly when it is positive. *)
Theorem picked_image_is_well_formed
  (mode : Mode) (result : PickerResult) (file : LocalUploadImage.t) (sizeKnown : bool) :
  pick mode result = Picked file sizeKnown ->
  LocalUploadImage.uri file <> ""%string /\
  Runtime.startsWith "image/" (LocalUploadImage.type file) = true /\
  hasExt (LocalUploadImage.name file) = true /\
  (exists bytes,
     LocalUploadImage.size file = inject_Z bytes /\ (0 <= bytes <= 5242880)%Z) /\
  (mode = avatar -> looksLikeHeic file = false) /\
  (sizeKnown = true <-> 0 < LocalUploadImage.size file).
Proof.
  unfold pickUploadImage. destruct result as [|didCancel errorCode asset];
    [discriminate|].
  destruct didCancel; [discriminate|]. destruct errorCode; [discriminate|].
  destruct (normalize match asset with Some a => a | None => emptyAsset end
              (modeName mode)) as [normalized|] eqn:N; [|discriminate].
  destruct (image_normalized _ _ _ N) as (U & T & X & bytes & S & P).
  destruct (Qgt_bool (LocalUploadImage.size normalized) MAX_UPLOAD_IMAGE_BYTES) eqn:L;
    [discriminate|].
  destruct (match mode with avatar => looksLikeHeic normalized | marker => false end)
    eqn:K; [discriminate|].
  intros H. injection H as <- <-.
  split; [exact U|]. split; [exact T|]. split; [exact X|]. split; [|split].
  - exists bytes. split; [exact S|]. split; [exact P|].
    rewrite S in L. unfold Qgt_bool in L. apply negb_false_iff in L.
    change MAX_UPLOAD_IMAGE_BYTES with (inject_Z 5242880) in L.
    rewrite Qle_bool_inject_Z in L. now apply Z.leb_le.
  - intros ->. exact K.
  - rewrite Qgt_bool_iff. reflexivity.
Qed.

End ImageUploadFacts.

Lemma picked_image_is_well_formed_witness :
  ImageUpload.hasExt "avatar-1730000000000.jpg" = true.
Proof.
  destruct (picked_image_is_well_formed sampleTrim "1730000000000"%string
              ImageUpload.avatar
              (ImageUpload.PickerReturns false false
                 (Some {| ImageUpload.uri := Some "file:///tmp/a"%string;
                          ImageUpload.fileName := None;
                          ImageUpload.type := Some "image/gif"%string;
                          ImageUpload.fileSize := Some (Finite 1200.5) |}))
              {| LocalUploadImage.uri := "file:///tmp/a";
                 LocalUploadImage.name := "avatar-1730000000000.jpg";
                 LocalUploadImage.type := "image/gif";
                 LocalUploadImage.size := 1200 |}
              true) as (_ & _ & H & _).
  - vm_compute. reflexivity.
  - exact H.
Defined.
